(** * The write-ahead log of xv6 ([kernel/log.c])

    A shallow embedding of the logging layer: the in-memory [struct log]
    and its header, the header block as it lies on disk, and the functions
    [initlog], [install_trans], [read_head], [write_head],
    [recover_from_log], [begin_op], [end_op], [write_log], [commit] and
    [log_write], written in a small state-and-halt monad over a machine
    made of the log, the disk, the buffer cache and a trace of the calls
    made to the rest of the kernel. *)

From stdpp Require Import base gmap list strings.
From Stdlib Require Import ZArith Lia.
Local Open Scope Z_scope.

(** ** C [int]: 32 bits, two's complement *)

Module Int.
Definition min_int : Z := - 2 ^ 31.
Definition max_int : Z := 2 ^ 31 - 1.

  (** The value a 32-bit register holds after an arithmetic result [z]. *)
Definition wrap (z : Z) : Z := (z + 2 ^ 31) mod 2 ^ 32 - 2 ^ 31.

Definition in_range (z : Z) : Prop := min_int <= z <= max_int.

  (** The four bytes of an [int] in memory, least significant first
      (RISC-V is little-endian). *)
Definition byte_of (v : Z) (k : Z) : Z := Z.land (Z.shiftr v (8 * k)) 255.

Definition encode (v : Z) : list Z :=
    [byte_of v 0; byte_of v 1; byte_of v 2; byte_of v 3].

Definition decode (bs : list Z) : Z :=
    match bs with
    | [b0; b1; b2; b3] =>
        wrap (b0 + Z.shiftl b1 8 + Z.shiftl b2 16 + Z.shiftl b3 24)
    | _ => 0
    end.
End Int.

(** ** C [uint]: 32 bits *)

Module Uint.
  (** The value of [z] converted to [uint]. *)
Definition wrap (z : Z) : Z := z mod 2 ^ 32.
End Uint.

(** ** Configuration constants *)

(** Modelled from the spec: the compile-time constants [BSIZE] (block size
    in bytes), [LOGSIZE] (maximum entries per transaction) and
    [MAXOPBLOCKS] (per-operation upper bound), which [param.h] and [fs.h]
    define and which are not among the sources.  They are parameters of
    the whole development. *)
Class Params := { BSIZE : Z; LOGSIZE : Z; MAXOPBLOCKS : Z }.

(** The values of the spec's concrete scenarios. *)
Definition xv6_params : Params :=
  {| BSIZE := 1024; LOGSIZE := 30; MAXOPBLOCKS := 10 |}.

(** ** Disk blocks and the header block *)

(** [uchar data[BSIZE]]: a byte is a [Z] in [0, 256). *)
Definition bdata : Type := list Z.

(** A [(dev, blockno)] pair names a disk block, and the buffer caching it. *)
Definition addr : Type := (Z * Z)%type.

Definition blockno (b : addr) : Z := snd b.

Module Block.
  (** An [int] read from, and stored to, byte offset [off] of a buffer. *)
Definition get_int (b : bdata) (off : nat) : Z :=
    Int.decode (take 4 (drop off b)).

Definition set_int (b : bdata) (off : nat) (v : Z) : bdata :=
    list_inserts off (Int.encode v) b.

  (** [memmove(dst, src, len)]: the first [len] bytes of [dst] become those
      of [src]. *)
Definition memmove (dst src : bdata) (len : nat) : bdata :=
    take len src ++ drop len dst.
End Block.

Module logheader.
  (** [struct logheader { int n; int block[LOGSIZE]; }] *)
Record t : Type := mk { n : Z; block : list Z }.

  (** [sizeof(struct logheader)] *)
Definition sizeof `{Params} : Z := 4 * (LOGSIZE + 1).

  (** Byte offsets of the fields when a buffer is cast to the struct. *)
Definition off_n : nat := 0%nat.
Definition off_block (i : nat) : nat := (4 + 4 * i)%nat.
End logheader.

Module log.
  (** [struct log] without its spinlock, whose use shows in the trace. *)
Record t : Type := mk {
    start : Z;
    size : Z;
    outstanding : Z;
    committing : Z;
    dev : Z;
    lh : logheader.t
  }.
End log.

(** [struct superblock], the two fields [initlog] reads, both [uint]. *)
Record superblock : Type := { logstart : Z; nlog : Z }.

(** ** The machine *)

(** Calls that leave the logging layer, in the order they are made. *)
Inductive event : Type :=
  | EInitlock
  | EAcquire
  | ERelease
  | ESleep
  | EWakeup
  | EBread (a : addr)
  | EBwrite (a : addr) (d : bdata)
  | EBrelse (a : addr)
  | EBpin (a : addr)
  | EBunpin (a : addr).

Record world : Type := mkWorld {
  logV : log.t;                       (* struct log logV *)
  disk : gmap addr bdata;             (* what survives a crash *)
  cache : gmap addr bdata;            (* buffers held by the buffer cache *)
  power : option nat;                 (* I/O calls left before power is lost *)
  wakeups : list (log.t → log.t);     (* what other threads do during each sleep *)
  trace : list event
}.

(** Why a run stops without returning. *)
Inductive halt : Type :=
  | Panic (msg : string)
  | PowerLoss
  | OutOfBounds       (* an array indexed outside its bounds *)
  | Blocked.          (* asleep with nobody left to wake it *)

Inductive result (A : Type) : Type :=
  | Ok (a : A) (w : world)
  | Halt (h : halt) (w : world).
Arguments Ok {A} a w.
Arguments Halt {A} h w.

Definition M (A : Type) : Type := world → result A.

Definition ret {A} (a : A) : M A := fun w => Ok a w.

Definition bind {A B} (m : M A) (k : A → M B) : M B :=
  fun w => match m w with
           | Ok a w' => k a w'
           | Halt h w' => Halt h w'
           end.

Declare Scope log_scope.
Delimit Scope log_scope with log.
Notation "x <- m ;; k" := (bind m (fun x => k))
  (at level 100, m at next level, right associativity) : log_scope.
Notation "m ;;; k" := (bind m (fun _ => k))
  (at level 100, right associativity) : log_scope.
Local Open Scope log_scope.

Definition stop {A} (h : halt) : M A := fun w => Halt h w.
Definition panic {A} (msg : string) : M A := stop (Panic msg).
Definition gets {A} (f : world → A) : M A := fun w => Ok (f w) w.
Definition modify (f : world → world) : M unit := fun w => Ok tt (f w).

Definition set_logV (f : log.t → log.t) (w : world) : world :=
  mkWorld (f (logV w)) (disk w) (cache w) (power w) (wakeups w) (trace w).
Definition set_disk (f : gmap addr bdata → gmap addr bdata) (w : world) : world :=
  mkWorld (logV w) (f (disk w)) (cache w) (power w) (wakeups w) (trace w).
Definition set_cache (f : gmap addr bdata → gmap addr bdata) (w : world) : world :=
  mkWorld (logV w) (disk w) (f (cache w)) (power w) (wakeups w) (trace w).
Definition set_power (p : option nat) (w : world) : world :=
  mkWorld (logV w) (disk w) (cache w) p (wakeups w) (trace w).
Definition set_wakeups (l : list (log.t → log.t)) (w : world) : world :=
  mkWorld (logV w) (disk w) (cache w) (power w) l (trace w).
Definition set_trace (f : list event → list event) (w : world) : world :=
  mkWorld (logV w) (disk w) (cache w) (power w) (wakeups w) (f (trace w)).

Definition emit (e : event) : M unit := modify (set_trace (fun t => t ++ [e])).

(** Field updates of [logV]. *)
Definition with_outstanding (v : Z) (l : log.t) : log.t :=
  log.mk (log.start l) (log.size l) v (log.committing l) (log.dev l) (log.lh l).
Definition with_committing (v : Z) (l : log.t) : log.t :=
  log.mk (log.start l) (log.size l) (log.outstanding l) v (log.dev l) (log.lh l).
Definition with_lh (h : logheader.t) (l : log.t) : log.t :=
  log.mk (log.start l) (log.size l) (log.outstanding l) (log.committing l) (log.dev l) h.
Definition with_n (v : Z) (l : log.t) : log.t :=
  with_lh (logheader.mk v (logheader.block (log.lh l))) l.
Definition with_block (bl : list Z) (l : log.t) : log.t :=
  with_lh (logheader.mk (logheader.n (log.lh l)) bl) l.

Definition lh_n (w : world) : Z := logheader.n (log.lh (logV w)).
Definition lh_block (w : world) : list Z := logheader.block (log.lh (logV w)).

(** [logV.lh.block[i]] as an rvalue and as an lvalue; the array has as many
    elements as the list, and an index outside it is undefined in C: the
    run ends there as [OutOfBounds], which says that the access is reached
    and nothing about what the machine does next. *)
Definition load_block (i : nat) : M Z :=
  fun w => match lh_block w !! i with
           | Some v => Ok v w
           | None => Halt OutOfBounds w
           end.

Definition store_block (i : nat) (v : Z) : M unit :=
  fun w => if decide (i < length (lh_block w))%nat
           then Ok tt (set_logV (with_block (<[i:=v]> (lh_block w))) w)
           else Halt OutOfBounds w.

(** [for (i = 0; i < n; i++) body(i)], for a body that leaves [n] alone. *)
Fixpoint for_loop (i : nat) (todo : nat) (body : nat → M unit) : M unit :=
  match todo with
  | O => ret tt
  | S todo' => body i ;;; for_loop (S i) todo' body
  end.

Definition for_upto (n : Z) (body : nat → M unit) : M unit :=
  for_loop 0 (Z.to_nat n) body.

(** ** The buffer cache and the scheduler *)

Section Cache.
Context `{Params}.

Definition zero_block : bdata := replicate (Z.to_nat BSIZE) 0.

  (** What the device returns for block [a]. *)
Definition disk_read (d : gmap addr bdata) (a : addr) : bdata :=
    default zero_block (d !! a).

  (** The bytes a [bread] of [a] finds in the buffer: the cached copy when
      there is one, the disk's otherwise. *)
Definition content (w : world) (a : addr) : bdata :=
    match cache w !! a with
    | Some b => b
    | None => disk_read (disk w) a
    end.

  (** Every [bread] and [bwrite] is a point where power can fail: with
      [power = Some k], [k] such calls complete and the next one does not
      happen. *)
Definition io_point : M unit :=
    fun w => match power w with
             | None => Ok tt w
             | Some O => Halt PowerLoss w
             | Some (S k) => Ok tt (set_power (Some k) w)
             end.

  (** Modelled from the spec: the buffer cache of [bio.c], which is not among
      the sources.  [read(dev, blockno)] returns the in-memory copy of the
      block, loading it from disk when the cache has none; [write(buf)]
      synchronously writes the buffer's current contents to disk;
      [release(buf)] drops the caller's reference; [pin]/[unpin] bias the
      reference count.  A [struct buf *] is modelled by the address of its
      block, so two handles of one block alias one buffer; the sleep-lock
      of a buffer and its reference count are not modelled beyond the
      calls in the trace.  Storage errors, which the cache reports by a
      panic of its own, are not modelled: a [bread] or a [bwrite] completes,
      or power is lost. *)
Definition bread (dev blk : Z) : M addr :=
    io_point ;;;
    cur <- gets (fun w => content w (dev, blk)) ;;
    modify (set_cache (insert (dev, blk) cur)) ;;;
    emit (EBread (dev, blk)) ;;;
    ret (dev, blk).

Definition bwrite (b : addr) : M unit :=
    io_point ;;;
    cur <- gets (fun w => content w b) ;;
    modify (set_disk (insert b cur)) ;;;
    emit (EBwrite b cur).

Definition brelse (b : addr) : M unit := emit (EBrelse b).
Definition bpin (b : addr) : M unit := emit (EBpin b).
Definition bunpin (b : addr) : M unit := emit (EBunpin b).

  (** [b->data] read as a whole, and overwritten as a whole. *)
Definition buf_data (b : addr) : M bdata := gets (fun w => content w b).
Definition buf_store (b : addr) (d : bdata) : M unit :=
    modify (set_cache (insert b d)).

  (** Modelled from the spec: the scheduler primitives of [spinlock.c] and
      [proc.c], which are not among the sources: [acquire]/[release] of the
      non-sleeping mutex, [sleep(channel, lock)] as an atomic
      release-and-wait and [wakeup(channel)] as a broadcast.  While this
      thread sleeps the others change [logV]; [wakeups] lists, sleep by
      sleep, what they have made of it when this thread runs again. *)
Definition initlock : M unit := emit EInitlock.
Definition acquire : M unit := emit EAcquire.
Definition release : M unit := emit ERelease.
Definition wakeup : M unit := emit EWakeup.
Definition sleep : M unit :=
    emit ESleep ;;;
    fun w => match wakeups w with
             | [] => Halt Blocked w
             | f :: fs => Ok tt (set_wakeups fs (set_logV f w))
             end.
End Cache.

(** ** log.c *)

Section Log.
Context `{Params}.

  (** Copy committed blocks from log to their home location *)
Definition install_trans (recovering : Z) : M unit :=
    n <- gets lh_n ;;
    for_upto n (fun tail =>
      dev <- gets (fun w => log.dev (logV w)) ;;
      start <- gets (fun w => log.start (logV w)) ;;
      lbuf <- bread dev (Int.wrap (Int.wrap (start + Z.of_nat tail) + 1)) ;;
      dst <- load_block tail ;;
      dbuf <- bread dev dst ;;
      from <- buf_data lbuf ;;
      to <- buf_data dbuf ;;
      buf_store dbuf (Block.memmove to from (Z.to_nat BSIZE)) ;;;
      bwrite dbuf ;;;
      (if decide (recovering = 0) then bunpin dbuf else ret tt) ;;;
      brelse lbuf ;;;
      brelse dbuf).

  (** Read the log header from disk into the in-memory log header *)
Definition read_head : M unit :=
    dev <- gets (fun w => log.dev (logV w)) ;;
    start <- gets (fun w => log.start (logV w)) ;;
    buf <- bread dev start ;;
    hb <- buf_data buf ;;
    modify (set_logV (with_n (Block.get_int hb logheader.off_n))) ;;;
    n <- gets lh_n ;;
    for_upto n (fun i =>
      hb <- buf_data buf ;;
      store_block i (Block.get_int hb (logheader.off_block i))) ;;;
    brelse buf.

  (** Write in-memory log header to disk.  This is the true point at which
      the current transaction commits. *)
Definition write_head : M unit :=
    dev <- gets (fun w => log.dev (logV w)) ;;
    start <- gets (fun w => log.start (logV w)) ;;
    buf <- bread dev start ;;
    hb <- buf_data buf ;;
    n <- gets lh_n ;;
    buf_store buf (Block.set_int hb logheader.off_n n) ;;;
    for_upto n (fun i =>
      v <- load_block i ;;
      hb <- buf_data buf ;;
      buf_store buf (Block.set_int hb (logheader.off_block i) v)) ;;;
    bwrite buf ;;;
    brelse buf.

Definition recover_from_log : M unit :=
    read_head ;;;
    install_trans 1 ;;;           (* if committed, copy from log to disk *)
    modify (set_logV (with_n 0)) ;;;
    write_head.                   (* clear the log *)

  (** [sb->logstart] and [sb->nlog] are [uint]; [logV.start] and
      [logV.size] are [int], so the two assignments convert. *)
Definition initlog (dev : Z) (sb : superblock) : M unit :=
    (if decide (BSIZE <= logheader.sizeof)
     then panic "initlog: too big logheader" else ret tt) ;;;
    initlock ;;;
    modify (set_logV (fun l =>
      log.mk (Int.wrap (logstart sb)) (Int.wrap (nlog sb))
             (log.outstanding l) (log.committing l) dev (log.lh l))) ;;;
    recover_from_log.

  (** The reservation test of [begin_op], in [int] arithmetic. *)
Definition reserved (l : log.t) : Z :=
    Int.wrap (logheader.n (log.lh l)
              + Int.wrap (Int.wrap (log.outstanding l + 1) * MAXOPBLOCKS)).

  (** The [while (1)] of [begin_op]: every pass but the last ends in a
      [sleep], so there are at most one more passes than wake-ups. *)
Fixpoint begin_op_loop (passes : nat) : M unit :=
    match passes with
    | O => stop Blocked
    | S passes' =>
        l <- gets logV ;;
        if decide (log.committing l ≠ 0) then
          sleep ;;; begin_op_loop passes'
        else if decide (reserved l > LOGSIZE) then
          (* this op might exhaust log space; wait for commit. *)
          sleep ;;; begin_op_loop passes'
        else
          modify (set_logV (with_outstanding (Int.wrap (log.outstanding l + 1)))) ;;;
          release
    end.

  (** called at the start of each FS system call. *)
Definition begin_op : M unit :=
    acquire ;;;
    ws <- gets wakeups ;;
    begin_op_loop (S (length ws)).

  (** Copy modified blocks from cache to logV. *)
Definition write_log : M unit :=
    n <- gets lh_n ;;
    for_upto n (fun tail =>
      dev <- gets (fun w => log.dev (logV w)) ;;
      start <- gets (fun w => log.start (logV w)) ;;
      to <- bread dev (Int.wrap (Int.wrap (start + Z.of_nat tail) + 1)) ;;
      src <- load_block tail ;;
      from <- bread dev src ;;
      fromd <- buf_data from ;;
      tod <- buf_data to ;;
      buf_store to (Block.memmove tod fromd (Z.to_nat BSIZE)) ;;;
      bwrite to ;;;
      brelse from ;;;
      brelse to).

Definition commit : M unit :=
    n <- gets lh_n ;;
    if decide (n > 0) then
      write_log ;;;               (* Write modified blocks from cache to log *)
      write_head ;;;              (* Write header to disk -- the real commit *)
      install_trans 0 ;;;         (* Now install writes to home locations *)
      modify (set_logV (with_n 0)) ;;;
      write_head                  (* Erase the transaction from the log *)
    else ret tt.

  (** called at the end of each FS system call.
      commits if this was the last outstanding operation. *)
Definition end_op : M unit :=
    acquire ;;;
    modify (set_logV (fun l => with_outstanding (Int.wrap (log.outstanding l - 1)) l)) ;;;
    c <- gets (fun w => log.committing (logV w)) ;;
    (if decide (c ≠ 0) then panic "logV.committing" else ret tt) ;;;
    o <- gets (fun w => log.outstanding (logV w)) ;;
    do_commit <- (if decide (o = 0) then
                    modify (set_logV (with_committing 1)) ;;; ret 1
                  else
                    wakeup ;;; ret 0) ;;
    release ;;;
    if decide (do_commit ≠ 0) then
      commit ;;;
      acquire ;;;
      modify (set_logV (with_committing 0)) ;;;
      wakeup ;;;
      release
    else ret tt.

  (** The scan of [log_write]: the least [i < n] with
      [block[i] == blockno], or [n].  [b->blockno] is [uint] and [block[i]]
      is [int]: the store [block[i] = b->blockno] converts to [int], [==]
      compares the two as [uint], and [write_log] and [install_trans] hand
      the entry back to [bread] as [uint].  The model keeps a block number
      as the number it is through all of these.  For a block number that
      fits an [int], [0 <= blockno <= INT_MAX], that is what the conversions
      do ([blockno_stored] and [blockno_compared] below); for a larger one
      the [int] in the array is that number less 2^32, and it is still the
      same block that is compared, pinned, read and written. *)
Fixpoint absorb_scan (blk : list Z) (bno : Z) (i todo : nat) : option nat :=
    match todo with
    | O => Some i
    | S todo' =>
        match blk !! i with
        | None => None
        | Some v => if decide (v = bno) then Some i
                    else absorb_scan blk bno (S i) todo'
        end
    end.

Definition log_write (b : addr) : M unit :=
    acquire ;;;
    n <- gets lh_n ;;
    sz <- gets (fun w => log.size (logV w)) ;;
    (if decide (n >= LOGSIZE ∨ n >= Int.wrap (sz - 1))
     then panic "too big a transaction" else ret tt) ;;;
    o <- gets (fun w => log.outstanding (logV w)) ;;
    (if decide (o < 1) then panic "log_write outside of trans" else ret tt) ;;;
    blk <- gets lh_block ;;
    match absorb_scan blk (blockno b) 0 (Z.to_nat n) with
    | None => stop OutOfBounds
    | Some i =>
        store_block i (blockno b) ;;;
        (if decide (Z.of_nat i = n) then      (* Add new block to log? *)
           bpin b ;;;
           modify (set_logV (with_n (Int.wrap (n + 1))))
         else ret tt) ;;;
        release
    end.

  (** The machine after a reboot: the disk as it was left, an empty cache,
      [logV] zeroed as a C global is. *)
Definition log_zero : log.t :=
    log.mk 0 0 0 0 0 (logheader.mk 0 (replicate (Z.to_nat LOGSIZE) 0)).

Definition boot (d : gmap addr bdata) : world :=
    mkWorld log_zero d ∅ None [] [].
End Log.

(** ** The header block as [write_head] leaves it and as [read_head] reads it *)

Section Head.
  (** The stores [hb->block[i] = logV.lh.block[i]] for [i] from [i] on. *)
Fixpoint put_entries (blk : list Z) (i todo : nat) (hb : bdata) : bdata :=
    match todo with
    | O => hb
    | S todo' =>
        put_entries blk (S i) todo'
          (Block.set_int hb (logheader.off_block i) (default 0 (blk !! i)))
    end.

Definition put_head (hb : bdata) (h : logheader.t) : bdata :=
    put_entries (logheader.block h) 0 (Z.to_nat (logheader.n h))
      (Block.set_int hb logheader.off_n (logheader.n h)).

  (** The stores [logV.lh.block[i] = lh->block[i]] for [i] from [i] on. *)
Fixpoint get_entries (hb : bdata) (i todo : nat) (blk : list Z) : list Z :=
    match todo with
    | O => blk
    | S todo' =>
        get_entries hb (S i) todo'
          (<[i := Block.get_int hb (logheader.off_block i)]> blk)
    end.

Definition get_head (hb : bdata) (blk : list Z) : logheader.t :=
    let n := Block.get_int hb logheader.off_n in
    logheader.mk n (get_entries hb 0 (Z.to_nat n) blk).
End Head.

(** * Properties *)

(** ** Integers and bytes *)

Lemma wrap_id z : Int.in_range z → Int.wrap z = z.
Proof.
  unfold Int.in_range, Int.min_int, Int.max_int, Int.wrap.
  intros Hz. rewrite Z.mod_small; lia.
Qed.

Lemma wrap_mod z : Int.wrap (z mod 2 ^ 32) = Int.wrap z.
Proof. unfold Int.wrap. now rewrite Zplus_mod_idemp_l. Qed.

Lemma decode_encode v : Int.decode (Int.encode v) = Int.wrap v.
Proof.
  unfold Int.decode, Int.encode, Int.byte_of.
  rewrite <- (wrap_mod v). f_equal.
  change 255 with (Z.ones 8).
  rewrite !Z.land_ones by lia.
  rewrite !Z.shiftr_div_pow2, !Z.shiftl_mul_pow2 by lia.
  change (8 * 0) with 0. change (8 * 1) with 8.
  change (8 * 2) with 16. change (8 * 3) with 24.
  change (2 ^ 0) with 1. rewrite Z.div_1_r.
  change (2 ^ 8) with 256. change (2 ^ 16) with (256 * 256).
  change (2 ^ 24) with (256 * 256 * 256).
  change (2 ^ 32) with (256 * (256 * (256 * 256))).
  rewrite <- !Z.div_div by lia.
  rewrite (Z.rem_mul_r v 256 (256 * (256 * 256))) by lia.
  rewrite (Z.rem_mul_r (v / 256) 256 (256 * 256)) by lia.
  rewrite (Z.rem_mul_r (v / 256 / 256) 256 256) by lia.
  lia.
Qed.

Lemma length_encode v : length (Int.encode v) = 4%nat.
Proof. reflexivity. Qed.

(** ** Integers inside a buffer *)

Lemma length_set_int b off v : length (Block.set_int b off v) = length b.
Proof. apply length_inserts. Qed.

Lemma lookup_set_int_out b off v (p : nat) :
  (p < off ∨ off + 4 ≤ p)%nat → Block.set_int b off v !! p = b !! p.
Proof.
  intros [Hp | Hp]; unfold Block.set_int.
  - now apply list_lookup_inserts_lt.
  - apply list_lookup_inserts_ge. rewrite length_encode. lia.
Qed.

Lemma get_set_int_eq b off v :
  (off + 4 ≤ length b)%nat → Block.get_int (Block.set_int b off v) off = Int.wrap v.
Proof.
  intros Hlen. unfold Block.get_int, Block.set_int.
  rewrite <- decode_encode. f_equal.
  apply list_eq. intros i.
  destruct (decide (i < 4)%nat) as [Hi | Hi].
  - rewrite lookup_take_lt, lookup_drop by lia.
    rewrite list_lookup_inserts by (rewrite ?length_encode; lia).
    f_equal. lia.
  - rewrite lookup_take_ge by lia. symmetry.
    apply lookup_ge_None. rewrite length_encode. lia.
Qed.

Lemma get_set_int_ne b off off' v :
  (off' + 4 ≤ off ∨ off + 4 ≤ off')%nat →
  Block.get_int (Block.set_int b off v) off' = Block.get_int b off'.
Proof.
  intros Hd. unfold Block.get_int. f_equal.
  apply list_eq. intros i.
  destruct (decide (i < 4)%nat) as [Hi | Hi].
  - rewrite !lookup_take_lt, !lookup_drop by lia.
    apply lookup_set_int_out. lia.
  - now rewrite !lookup_take_ge by lia.
Qed.

Lemma memmove_whole dst src len :
  length src = len → length dst = len → Block.memmove dst src len = src.
Proof.
  intros Hs Hd. unfold Block.memmove.
  rewrite take_ge, drop_ge by lia. apply app_nil_r.
Qed.

Lemma memmove_self b len : Block.memmove b b len = b.
Proof. apply take_drop. Qed.

Lemma length_memmove dst src len :
  length src = len → length dst = len → length (Block.memmove dst src len) = len.
Proof. intros Hs Hd. now rewrite memmove_whole. Qed.

(** ** The header image *)

Lemma length_put_entries blk i todo hb :
  length (put_entries blk i todo hb) = length hb.
Proof.
  revert i hb. induction todo as [| todo IH]; intros i hb; simpl; [done |].
  now rewrite IH, length_set_int.
Qed.

Lemma length_put_head hb h : length (put_head hb h) = length hb.
Proof. unfold put_head. now rewrite length_put_entries, length_set_int. Qed.


Lemma get_put_entries_out blk i todo hb off :
  (off + 4 ≤ logheader.off_block i ∨ logheader.off_block (i + todo) ≤ off)%nat →
  Block.get_int (put_entries blk i todo hb) off = Block.get_int hb off.
Proof.
  unfold logheader.off_block.
  revert i hb. induction todo as [| todo IH]; intros i hb Hp; simpl; [done |].
  rewrite IH by (unfold logheader.off_block; lia).
  apply get_set_int_ne. unfold logheader.off_block. lia.
Qed.

Lemma get_put_entries_in blk i todo hb j :
  (i ≤ j < i + todo)%nat →
  (logheader.off_block (i + todo) ≤ length hb)%nat →
  Block.get_int (put_entries blk i todo hb) (logheader.off_block j)
  = Int.wrap (default 0 (blk !! j)).
Proof.
  unfold logheader.off_block.
  revert i hb. induction todo as [| todo IH]; intros i hb Hj Hlen; simpl; [lia |].
  destruct (decide (j = i)) as [-> | Hne].
  - rewrite get_put_entries_out by (unfold logheader.off_block; lia).
    apply get_set_int_eq. unfold logheader.off_block. lia.
  - apply IH; [lia |]. rewrite length_set_int. lia.
Qed.

Lemma put_head_n hb h :
  (4 ≤ length hb)%nat →
  Block.get_int (put_head hb h) logheader.off_n = Int.wrap (logheader.n h).
Proof.
  intros Hlen. unfold put_head.
  rewrite get_put_entries_out by (unfold logheader.off_block, logheader.off_n; lia).
  now apply get_set_int_eq.
Qed.

Lemma put_head_block hb h (j : nat) :
  (j < Z.to_nat (logheader.n h))%nat →
  (logheader.off_block (Z.to_nat (logheader.n h)) ≤ length hb)%nat →
  Block.get_int (put_head hb h) (logheader.off_block j)
  = Int.wrap (default 0 (logheader.block h !! j)).
Proof.
  intros Hj Hlen. unfold put_head.
  apply get_put_entries_in; [lia |]. now rewrite length_set_int.
Qed.


Lemma length_get_entries hb i todo blk :
  length (get_entries hb i todo blk) = length blk.
Proof.
  revert i blk. induction todo as [| todo IH]; intros i blk; simpl; [done |].
  now rewrite IH, length_insert.
Qed.

Lemma lookup_get_entries_out hb i todo blk (j : nat) :
  (j < i ∨ i + todo ≤ j)%nat → get_entries hb i todo blk !! j = blk !! j.
Proof.
  revert i blk. induction todo as [| todo IH]; intros i blk Hj; simpl; [done |].
  rewrite IH by lia. apply list_lookup_insert_ne. lia.
Qed.

Lemma lookup_get_entries_in hb i todo blk (j : nat) :
  (i ≤ j < i + todo)%nat → (j < length blk)%nat →
  get_entries hb i todo blk !! j = Some (Block.get_int hb (logheader.off_block j)).
Proof.
  revert i blk. induction todo as [| todo IH]; intros i blk Hj Hlen; simpl; [lia |].
  destruct (decide (j = i)) as [-> | Hne].
  - rewrite lookup_get_entries_out by lia. now apply list_lookup_insert_eq.
  - apply IH; [lia |]. now rewrite length_insert.
Qed.

(** ** Runs and what they establish *)

(** [spec m w Q C]: run from [w], [m] either returns with [Q], or loses
    power in a state with [C]; it neither panics nor blocks nor leaves an
    array. *)
Definition spec {A} (m : M A) (w : world)
    (Q : A → world → Prop) (C : world → Prop) : Prop :=
  match m w with
  | Ok a w' => Q a w'
  | Halt PowerLoss w' => C w'
  | Halt _ _ => False
  end.

Lemma spec_ret {A} (a : A) w Q C : Q a w → spec (ret a) w Q C.
Proof. done. Qed.

Lemma spec_bind {A B} (m : M A) (k : A → M B) w Q C :
  spec m w (fun a w' => spec (k a) w' Q C) C → spec (bind m k) w Q C.
Proof.
  unfold spec, bind. destruct (m w) as [a w' | h w']; [done |].
  now destruct h.
Qed.

Lemma spec_gets {A} (f : world → A) w Q C : Q (f w) w → spec (gets f) w Q C.
Proof. done. Qed.

Lemma spec_modify f w Q C : Q tt (f w) → spec (modify f) w Q C.
Proof. done. Qed.

Lemma spec_weaken {A} (m : M A) w (Q Q' : A → world → Prop) (C C' : world → Prop) :
  spec m w Q C → (∀ a w', Q a w' → Q' a w') → (∀ w', C w' → C' w') →
  spec m w Q' C'.
Proof.
  unfold spec. intros Hs HQ HC.
  destruct (m w) as [a w' | [] w']; auto.
Qed.

Lemma spec_load_block i v w Q C :
  lh_block w !! i = Some v → Q v w → spec (load_block i) w Q C.
Proof. unfold spec, load_block. now intros ->. Qed.

Lemma spec_store_block i v w Q C :
  (i < length (lh_block w))%nat →
  Q tt (set_logV (with_block (<[i:=v]> (lh_block w))) w) →
  spec (store_block i v) w Q C.
Proof. unfold spec, store_block. intros Hi HQ. now rewrite decide_True. Qed.

(** A loop keeps an invariant indexed by the counter. *)
Lemma spec_for_loop (I : nat → world → Prop) body i todo w Q C :
  I i w →
  (∀ j w', (i ≤ j < i + todo)%nat → I j w' →
           spec (body j) w' (fun _ w'' => I (S j) w'') C) →
  (∀ w', I (i + todo)%nat w' → Q tt w') →
  spec (for_loop i todo body) w Q C.
Proof.
  revert i w. induction todo as [| todo IH]; intros i w Hi Hbody HQ; simpl.
  - apply spec_ret, HQ. now rewrite Nat.add_0_r.
  - apply spec_bind.
    eapply spec_weaken; [apply (Hbody i w); [lia | done] | | done].
    intros [] w' Hw'. cbv beta in *.
    apply IH; [done | |].
    + intros j w'' Hj. apply Hbody. lia.
    + intros w'' Hw''. apply HQ. now replace (i + S todo)%nat with (S i + todo)%nat by lia.
Qed.

Ltac sp_pure :=
  repeat (lazymatch goal with
          | |- spec (bind _ _) _ _ _ => apply spec_bind
          | |- spec (gets _) _ _ _ => apply spec_gets
          | |- spec (buf_data _) _ _ _ => apply spec_gets
          | |- spec (ret _) _ _ _ => apply spec_ret
          | |- spec (modify (set_logV _)) _ _ _ => apply spec_modify
          end; cbv beta).

(** The writes a trace has made, oldest first. *)
Definition writes (t : list event) : list (addr * bdata) :=
  flat_map (fun e => match e with EBwrite a d => [(a, d)] | _ => [] end) t.

Definition pins (t : list event) : list addr :=
  flat_map (fun e => match e with EBpin a => [a] | _ => [] end) t.

Definition unpins (t : list event) : list addr :=
  flat_map (fun e => match e with EBunpin a => [a] | _ => [] end) t.

Lemma writes_app t1 t2 : writes (t1 ++ t2) = writes t1 ++ writes t2.
Proof. apply flat_map_app. Qed.

Lemma pins_app t1 t2 : pins (t1 ++ t2) = pins t1 ++ pins t2.
Proof. apply flat_map_app. Qed.

Lemma unpins_app t1 t2 : unpins (t1 ++ t2) = unpins t1 ++ unpins t2.
Proof. apply flat_map_app. Qed.

Section Machine.
Context `{Params}.

  (** Every block, on disk and in the cache, is [BSIZE] bytes long. *)
Definition wf_store (w : world) : Prop :=
    map_Forall (fun _ b => length b = Z.to_nat BSIZE) (disk w) ∧
    map_Forall (fun _ b => length b = Z.to_nat BSIZE) (cache w).

Lemma length_zero_block : length zero_block = Z.to_nat BSIZE.
  Proof. apply length_replicate. Qed.

Lemma length_disk_read w a :
    wf_store w → length (disk_read (disk w) a) = Z.to_nat BSIZE.
  Proof.
    intros [Hd _]. unfold disk_read.
    destruct (disk w !! a) as [b |] eqn:E; simpl.
    - apply (Hd _ _ E).
    - apply length_zero_block.
  Qed.

Lemma length_content w a : wf_store w → length (content w a) = Z.to_nat BSIZE.
  Proof.
    intros Hwf. unfold content.
    destruct (cache w !! a) as [b |] eqn:E.
    - apply (proj2 Hwf _ _ E).
    - now apply length_disk_read.
  Qed.

Lemma disk_read_insert d a b a' :
    disk_read (<[a:=b]> d) a' = if decide (a' = a) then b else disk_read d a'.
  Proof.
    unfold disk_read. destruct (decide (a' = a)) as [-> | Hne].
    - now rewrite lookup_insert_eq.
    - now rewrite lookup_insert_ne.
  Qed.

  (** How a call changes what the rest of the proofs look at: the log, the
      disk, the contents buffers show, the trace. *)
Record becomes (w w' : world) (l : log.t) (d : gmap addr bdata)
      (c : addr → bdata) (evs : list event) : Prop := {
    bc_logV : logV w' = l;
    bc_wakeups : wakeups w' = wakeups w;
    bc_disk : disk w' = d;
    bc_content : ∀ a, content w' a = c a;
    bc_trace : trace w' = trace w ++ evs;
    bc_power : power w = None → power w' = None
  }.

Lemma spec_io_point w Q C :
    (power w ≠ None → C w) →
    (∀ p, (power w = None → p = None) → Q tt (set_power p w)) →
    spec io_point w Q C.
  Proof.
    unfold spec, io_point. intros HC HQ.
    destruct w as [l d c [[| k] |] ws t]; simpl in *.
    - now apply HC.
    - now apply (HQ (Some k)).
    - now apply (HQ None).
  Qed.

Lemma spec_bread dev blk w Q C :
    (power w ≠ None → C w) →
    (∀ w', becomes w w' (logV w) (disk w) (content w) [EBread (dev, blk)] →
           (wf_store w → wf_store w') → Q (dev, blk) w') →
    spec (bread dev blk) w Q C.
  Proof.
    intros HC HQ. unfold bread.
    apply spec_bind, spec_io_point; [done |]. intros p Hp. cbv beta.
    sp_pure. apply spec_modify. sp_pure. apply spec_modify. sp_pure.
    apply HQ.
    - split; simpl; try done.
      intros a. unfold content at 1. simpl.
      destruct (decide (a = (dev, blk))) as [-> | Hne].
      + now rewrite lookup_insert_eq.
      + now rewrite lookup_insert_ne.
    - intros Hwf. split; simpl; [apply Hwf |].
      apply map_Forall_insert_2; [| apply Hwf].
      now apply (length_content (set_power p w)).
  Qed.

Lemma spec_bwrite b w Q C :
    (power w ≠ None → C w) →
    (∀ w', becomes w w' (logV w) (<[b := content w b]> (disk w)) (content w)
             [EBwrite b (content w b)] →
           (wf_store w → wf_store w') → Q tt w') →
    spec (bwrite b) w Q C.
  Proof.
    intros HC HQ. unfold bwrite.
    apply spec_bind, spec_io_point; [done |]. intros p Hp. cbv beta.
    sp_pure. apply spec_modify. sp_pure. apply spec_modify.
    apply HQ.
    - split; simpl; try done.
      intros a. unfold content. simpl.
      destruct (cache w !! a) as [c |] eqn:Ea; [done |].
      rewrite disk_read_insert. case_decide; [| done].
      subst a. now rewrite Ea.
    - intros Hwf. split; simpl; [| apply Hwf].
      apply map_Forall_insert_2; [| apply Hwf].
      now apply (length_content (set_power p w)).
  Qed.

Lemma spec_buf_store b d w Q C :
    (∀ w', becomes w w' (logV w) (disk w)
             (fun a => if decide (a = b) then d else content w a) [] →
           (wf_store w → length d = Z.to_nat BSIZE → wf_store w') → Q tt w') →
    spec (buf_store b d) w Q C.
  Proof.
    intros HQ. unfold buf_store. apply spec_modify. apply HQ.
    - split; simpl; try done.
      + intros a. unfold content. simpl. case_decide as Ha.
        * subst a. now rewrite lookup_insert_eq.
        * now rewrite lookup_insert_ne.
      + now rewrite app_nil_r.
    - intros Hwf Hd. split; simpl; [apply Hwf |].
      apply map_Forall_insert_2; [done | apply Hwf].
  Qed.

Lemma spec_emit e w Q C :
    (∀ w', becomes w w' (logV w) (disk w) (content w) [e] →
           (wf_store w → wf_store w') → Q tt w') →
    spec (emit e) w Q C.
  Proof.
    intros HQ. unfold emit. apply spec_modify. apply HQ; [| done].
    split; simpl; done.
  Qed.
End Machine.

(** From here on a [spec] is used through its rules only. *)
Lemma spec_ok {A} (m : M A) w Q C a w' : spec m w Q C → m w = Ok a w' → Q a w'.
Proof. unfold spec. intros Hs E. now rewrite E in Hs. Qed.

Lemma spec_run {A} (m : M A) w Q C :
  spec m w Q C →
  (∃ a w', m w = Ok a w' ∧ Q a w') ∨ (∃ w', m w = Halt PowerLoss w' ∧ C w').
Proof.
  unfold spec. destruct (m w) as [a w' | [] w']; try done; eauto.
Qed.

Lemma spec_returns {A} (m : M A) w Q :
  spec m w Q (fun _ => False) → ∃ a w', m w = Ok a w' ∧ Q a w'.
Proof. intros Hs. destruct (spec_run _ _ _ _ Hs) as [? | (? & _ & [])]; done. Qed.

#[global] Opaque spec.

(** ** Composing the effects of calls *)

Section Becomes.
Context `{Params}.

Lemma becomes_refl w : becomes w w (logV w) (disk w) (content w) [].
  Proof. split; try done. now rewrite app_nil_r. Qed.

Lemma becomes_ext w w' l d c e l' d' c' e' :
    becomes w w' l d c e →
    l = l' → d = d' → (∀ a, c a = c' a) → e = e' →
    becomes w w' l' d' c' e'.
  Proof.
    intros [] <- <- Hc <-. split; try done.
    intros a. now rewrite <- Hc.
  Qed.

  (** A call that changes neither log, disk nor buffers. *)
Lemma becomes_frame w wi wj l d c e e' :
    becomes w wi l d c e →
    becomes wi wj (logV wi) (disk wi) (content wi) e' →
    becomes w wj l d c (e ++ e').
  Proof.
    intros [Hl Hw Hd Hc Ht Hp] [Hl' Hw' Hd' Hc' Ht' Hp'].
    split; [congruence | congruence | congruence | | | auto].
    - intros a. now rewrite Hc', Hc.
    - now rewrite Ht', Ht, app_assoc.
  Qed.

  (** A store into buffer [b]. *)
Lemma becomes_store w wi wj l d c e b v :
    becomes w wi l d c e →
    becomes wi wj (logV wi) (disk wi)
      (fun a => if decide (a = b) then v else content wi a) [] →
    becomes w wj l d (fun a => if decide (a = b) then v else c a) e.
  Proof.
    intros [Hl Hw Hd Hc Ht Hp] [Hl' Hw' Hd' Hc' Ht' Hp'].
    split; [congruence | congruence | congruence | | | auto].
    - intros a. rewrite Hc'. case_decide; [done | apply Hc].
    - now rewrite Ht', Ht, app_nil_r.
  Qed.

  (** A [bwrite] of buffer [b]. *)
Lemma becomes_write w wi wj l d c e b :
    becomes w wi l d c e →
    becomes wi wj (logV wi) (<[b := content wi b]> (disk wi)) (content wi)
      [EBwrite b (content wi b)] →
    becomes w wj l (<[b := c b]> d) c (e ++ [EBwrite b (c b)]).
  Proof.
    intros [Hl Hw Hd Hc Ht Hp] [Hl' Hw' Hd' Hc' Ht' Hp'].
    split; [congruence | congruence | | | | auto].
    - now rewrite Hd', Hc, Hd.
    - intros a. now rewrite Hc', Hc.
    - now rewrite Ht', Ht, Hc, app_assoc.
  Qed.

  (** An assignment to a field of [logV]. *)
Lemma becomes_set_logV w wi l d c e f :
    becomes w wi l d c e → becomes w (set_logV f wi) (f l) d c e.
  Proof.
    intros [Hl Hw Hd Hc Ht Hp]. split; simpl; [congruence | done .. ].
  Qed.
End Becomes.

Section Copy.
Context `{Params}.

Definition head_addr (l : log.t) : addr := (log.dev l, log.start l).
Definition slot_addr (l : log.t) (i : nat) : addr :=
    (log.dev l, Int.wrap (Int.wrap (log.start l + Z.of_nat i) + 1)).
Definition home_addr (l : log.t) (b : Z) : addr := (log.dev l, b).

  (** The calls one turn of [install_trans] makes. *)
Definition install_events (recovering : Z) (s h : addr) (d : bdata) : list event :=
    [EBread s; EBread h; EBwrite h d]
    ++ (if decide (recovering = 0) then [EBunpin h] else [])
    ++ [EBrelse s; EBrelse h].

Lemma install_trans_rule recovering (I : nat → world → Prop) w Q C :
    (Z.to_nat (lh_n w) ≤ length (lh_block w))%nat →
    I 0%nat w →
    (∀ (j : nat) dst w1,
       (j < Z.to_nat (lh_n w))%nat → lh_block w !! j = Some dst →
       logV w1 = logV w → I j w1 →
       let s := slot_addr (logV w) j in
       let h := home_addr (logV w) dst in
       let d := Block.memmove (content w1 h) (content w1 s) (Z.to_nat BSIZE) in
       (power w1 ≠ None →
        ∀ w'', disk w'' = disk w1 → writes (trace w'') = writes (trace w1) → C w'') ∧
       (∀ w2, becomes w1 w2 (logV w) (<[h := d]> (disk w1))
                (fun a => if decide (a = h) then d else content w1 a)
                (install_events recovering s h d) →
              (wf_store w1 → wf_store w2) → I (S j) w2)) →
    (∀ w', logV w' = logV w → I (Z.to_nat (lh_n w)) w' → Q tt w') →
    spec (install_trans recovering) w Q C.
  Proof.
    intros Hlen HI0 Hstep HQ. unfold install_trans, for_upto. sp_pure.
    apply (spec_for_loop (fun j w1 => logV w1 = logV w ∧ I j w1)); [done | |].
    2: { intros w' [Hl HI]. now apply HQ. }
    intros j w1 Hj [Hl HI]. simpl in Hj.
    destruct (lookup_lt_is_Some_2 (lh_block w) j) as [dst Hdst]; [lia |].
    destruct (Hstep j dst w1 ltac:(lia) Hdst Hl HI) as [HC HS].
    sp_pure. rewrite Hl.
    change (log.dev (logV w), Int.wrap (Int.wrap (log.start (logV w) + Z.of_nat j) + 1))
      with (slot_addr (logV w) j).
    apply spec_bread; [intros Hp; now apply HC |]. intros w2 B2 W2. sp_pure.
    apply (spec_load_block _ dst).
    { unfold lh_block. rewrite (bc_logV _ _ _ _ _ _ B2), Hl. exact Hdst. }
    sp_pure.
    change (log.dev (logV w), dst) with (home_addr (logV w) dst).
    apply spec_bread.
    { intros Hp. apply HC; [| apply (bc_disk _ _ _ _ _ _ B2) |].
      - intros Hn. now apply Hp, (bc_power _ _ _ _ _ _ B2).
      - now rewrite (bc_trace _ _ _ _ _ _ B2), writes_app, app_nil_r. }
    intros w3 B3 W3. pose proof (becomes_frame _ _ _ _ _ _ _ _ B2 B3) as R3.
    sp_pure. rewrite !(bc_content _ _ _ _ _ _ R3).
    apply spec_buf_store. intros w4 B4 W4.
    pose proof (becomes_store _ _ _ _ _ _ _ _ _ R3 B4) as R4.
    sp_pure.
    apply spec_bwrite.
    { intros Hp. apply HC; [| apply (bc_disk _ _ _ _ _ _ R4) |].
      - intros Hn. now apply Hp, (bc_power _ _ _ _ _ _ R4).
      - now rewrite (bc_trace _ _ _ _ _ _ R4), writes_app, app_nil_r. }
    intros w5 B5 W5. pose proof (becomes_write _ _ _ _ _ _ _ _ R4 B5) as R5.
    cbv beta in R5. rewrite decide_True in R5 by done.
    sp_pure.
    assert (∀ w6 evs,
      becomes w1 w6 (logV w1)
        (<[home_addr (logV w) dst :=
             Block.memmove (content w1 (home_addr (logV w) dst))
               (content w1 (slot_addr (logV w) j)) (Z.to_nat BSIZE)]> (disk w1))
        (fun a => if decide (a = home_addr (logV w) dst)
                  then Block.memmove (content w1 (home_addr (logV w) dst))
                         (content w1 (slot_addr (logV w) j)) (Z.to_nat BSIZE)
                  else content w1 a)
        (([EBread (slot_addr (logV w) j); EBread (home_addr (logV w) dst)]
          ++ [EBwrite (home_addr (logV w) dst)
                (Block.memmove (content w1 (home_addr (logV w) dst))
                   (content w1 (slot_addr (logV w) j)) (Z.to_nat BSIZE))])
         ++ evs) →
      (wf_store w1 → wf_store w6) →
      evs = (if decide (recovering = 0) then [EBunpin (home_addr (logV w) dst)] else []) →
      spec (brelse (slot_addr (logV w) j) ;;; brelse (home_addr (logV w) dst)) w6
        (fun _ w'' => logV w'' = logV w ∧ I (S j) w'') C) as Hrel.
    { intros w6 evs R6 W6 ->. unfold brelse. sp_pure.
      apply spec_emit. intros w7 B7 W7. sp_pure.
      pose proof (becomes_frame _ _ _ _ _ _ _ _ R6 B7) as R7.
      apply spec_emit. intros w8 B8 W8.
      pose proof (becomes_frame _ _ _ _ _ _ _ _ R7 B8) as R8.
      split; [rewrite (bc_logV _ _ _ _ _ _ R8); exact Hl |].
      apply HS; [| tauto].
      eapply becomes_ext; [exact R8 | done .. |].
      unfold install_events. now rewrite <- !app_assoc. }
    assert (wf_store w1 → wf_store w5) as W15.
    { intros Hwf. apply W5, W4; [now apply W3, W2 |].
      apply length_memmove; now apply length_content. }
    destruct (decide (recovering = 0)) as [Hrec | Hrec].
    - unfold bunpin. apply spec_emit. intros w6 B6 W6.
      pose proof (becomes_frame _ _ _ _ _ _ _ _ R5 B6) as R6.
      eapply Hrel; [exact R6 | tauto | done].
    - apply spec_ret. eapply Hrel; [| exact W15 | done].
      eapply becomes_ext; [exact R5 | done .. |]. now rewrite app_nil_r.
  Qed.

  (** The calls one turn of [write_log] makes. *)
Definition write_log_events (s h : addr) (d : bdata) : list event :=
    [EBread s; EBread h; EBwrite s d; EBrelse h; EBrelse s].

Lemma write_log_rule (I : nat → world → Prop) w Q C :
    (Z.to_nat (lh_n w) ≤ length (lh_block w))%nat →
    I 0%nat w →
    (∀ (j : nat) src w1,
       (j < Z.to_nat (lh_n w))%nat → lh_block w !! j = Some src →
       logV w1 = logV w → I j w1 →
       let s := slot_addr (logV w) j in
       let h := home_addr (logV w) src in
       let d := Block.memmove (content w1 s) (content w1 h) (Z.to_nat BSIZE) in
       (power w1 ≠ None →
        ∀ w'', disk w'' = disk w1 → writes (trace w'') = writes (trace w1) → C w'') ∧
       (∀ w2, becomes w1 w2 (logV w) (<[s := d]> (disk w1))
                (fun a => if decide (a = s) then d else content w1 a)
                (write_log_events s h d) →
              (wf_store w1 → wf_store w2) → I (S j) w2)) →
    (∀ w', logV w' = logV w → I (Z.to_nat (lh_n w)) w' → Q tt w') →
    spec write_log w Q C.
  Proof.
    intros Hlen HI0 Hstep HQ. unfold write_log, for_upto. sp_pure.
    apply (spec_for_loop (fun j w1 => logV w1 = logV w ∧ I j w1)); [done | |].
    2: { intros w' [Hl HI]. now apply HQ. }
    intros j w1 Hj [Hl HI]. simpl in Hj.
    destruct (lookup_lt_is_Some_2 (lh_block w) j) as [src Hsrc]; [lia |].
    destruct (Hstep j src w1 ltac:(lia) Hsrc Hl HI) as [HC HS].
    sp_pure. rewrite Hl.
    change (log.dev (logV w), Int.wrap (Int.wrap (log.start (logV w) + Z.of_nat j) + 1))
      with (slot_addr (logV w) j).
    apply spec_bread; [intros Hp; now apply HC |]. intros w2 B2 W2. sp_pure.
    apply (spec_load_block _ src).
    { unfold lh_block. rewrite (bc_logV _ _ _ _ _ _ B2), Hl. exact Hsrc. }
    sp_pure.
    change (log.dev (logV w), src) with (home_addr (logV w) src).
    apply spec_bread.
    { intros Hp. apply HC; [| apply (bc_disk _ _ _ _ _ _ B2) |].
      - intros Hn. now apply Hp, (bc_power _ _ _ _ _ _ B2).
      - now rewrite (bc_trace _ _ _ _ _ _ B2), writes_app, app_nil_r. }
    intros w3 B3 W3. pose proof (becomes_frame _ _ _ _ _ _ _ _ B2 B3) as R3.
    sp_pure. rewrite !(bc_content _ _ _ _ _ _ R3).
    apply spec_buf_store. intros w4 B4 W4.
    pose proof (becomes_store _ _ _ _ _ _ _ _ _ R3 B4) as R4.
    sp_pure.
    apply spec_bwrite.
    { intros Hp. apply HC; [| apply (bc_disk _ _ _ _ _ _ R4) |].
      - intros Hn. now apply Hp, (bc_power _ _ _ _ _ _ R4).
      - now rewrite (bc_trace _ _ _ _ _ _ R4), writes_app, app_nil_r. }
    intros w5 B5 W5. pose proof (becomes_write _ _ _ _ _ _ _ _ R4 B5) as R5.
    cbv beta in R5. rewrite decide_True in R5 by done.
    assert (wf_store w1 → wf_store w5) as W15.
    { intros Hwf. apply W5, W4; [now apply W3, W2 |].
      apply length_memmove; now apply length_content. }
    unfold brelse. sp_pure.
    apply spec_emit. intros w6 B6 W6. sp_pure.
    pose proof (becomes_frame _ _ _ _ _ _ _ _ R5 B6) as R6.
    apply spec_emit. intros w7 B7 W7.
    pose proof (becomes_frame _ _ _ _ _ _ _ _ R6 B7) as R7.
    split; [rewrite (bc_logV _ _ _ _ _ _ R7); exact Hl |].
    apply HS; [| tauto].
    eapply becomes_ext; [exact R7 | done .. |].
    unfold write_log_events. now rewrite <- !app_assoc.
  Qed.

Lemma put_entries_snoc blk i todo hb :
    put_entries blk i (S todo) hb
    = Block.set_int (put_entries blk i todo hb) (logheader.off_block (i + todo))
        (default 0 (blk !! (i + todo)%nat)).
  Proof.
    revert i hb. induction todo as [| todo IH]; intros i hb.
    - simpl. now rewrite Nat.add_0_r.
    - change (put_entries blk i (S (S todo)) hb)
        with (put_entries blk (S i) (S todo)
                (Block.set_int hb (logheader.off_block i) (default 0 (blk !! i)))).
      rewrite IH. simpl. replace (i + S todo)%nat with (S (i + todo))%nat by lia.
      reflexivity.
  Qed.

Lemma get_entries_snoc hb i todo blk :
    get_entries hb i (S todo) blk
    = <[(i + todo)%nat := Block.get_int hb (logheader.off_block (i + todo))]>
        (get_entries hb i todo blk).
  Proof.
    revert i blk. induction todo as [| todo IH]; intros i blk.
    - simpl. now rewrite Nat.add_0_r.
    - change (get_entries hb i (S (S todo)) blk)
        with (get_entries hb (S i) (S todo)
                (<[i := Block.get_int hb (logheader.off_block i)]> blk)).
      rewrite IH. simpl. replace (i + S todo)%nat with (S (i + todo))%nat by lia.
      reflexivity.
  Qed.

Lemma write_head_spec w Q C :
    (Z.to_nat (lh_n w) ≤ length (lh_block w))%nat →
    let a := head_addr (logV w) in
    let hb := put_head (content w a) (log.lh (logV w)) in
    (power w ≠ None →
     ∀ w'', disk w'' = disk w → writes (trace w'') = writes (trace w) → C w'') →
    (∀ w', becomes w w' (logV w) (<[a := hb]> (disk w))
             (fun x => if decide (x = a) then hb else content w x)
             [EBread a; EBwrite a hb; EBrelse a] →
           (wf_store w → wf_store w') → Q tt w') →
    spec write_head w Q C.
  Proof.
    intros Hlen a hb HC HQ. unfold write_head. sp_pure.
    change (log.dev (logV w), log.start (logV w)) with a.
    apply spec_bread; [intros Hp; now apply HC |]. intros w2 B2 W2. sp_pure.
    rewrite (bc_content _ _ _ _ _ _ B2).
    replace (lh_n w2) with (lh_n w)
      by (unfold lh_n; now rewrite (bc_logV _ _ _ _ _ _ B2)).
    apply spec_buf_store. intros w3 B3 W3.
    pose proof (becomes_store _ _ _ _ _ _ _ _ _ B2 B3) as R3. sp_pure.
    unfold for_upto.
    apply (spec_for_loop (fun j wj =>
      becomes w wj (logV w) (disk w)
        (fun x => if decide (x = a)
                  then put_entries (lh_block w) 0 j
                         (Block.set_int (content w a) logheader.off_n (lh_n w))
                  else content w x)
        [EBread a] ∧ (wf_store w → wf_store wj))).
    - split; [exact R3 |]. intros Hwf. apply W3; [now apply W2 |].
      rewrite length_set_int. now apply length_content.
    - intros j wj Hj [Rj Wj]. simpl in Hj.
      destruct (lookup_lt_is_Some_2 (lh_block w) j) as [v Hv]; [lia |].
      sp_pure. apply (spec_load_block _ v).
      { unfold lh_block. now rewrite (bc_logV _ _ _ _ _ _ Rj). }
      sp_pure. rewrite (bc_content _ _ _ _ _ _ Rj), decide_True by done.
      apply spec_buf_store. intros wk Bk Wk.
      pose proof (becomes_store _ _ _ _ _ _ _ _ _ Rj Bk) as Rk.
      split.
      + eapply becomes_ext; [exact Rk | done | done | | done].
        intros x. cbv beta.
        change (log.dev (logV w), log.start (logV w)) with a.
        destruct (decide (x = a)); [| done].
        rewrite put_entries_snoc. simpl. now rewrite Hv.
      + intros Hwf. apply Wk; [now apply Wj |].
        rewrite length_set_int, length_put_entries, length_set_int.
        now apply length_content.
    - intros wj [Rj Wj]. simpl in Rj. sp_pure.
      apply spec_bwrite.
      { intros Hp. apply HC; [| apply (bc_disk _ _ _ _ _ _ Rj) |].
        - intros Hn. now apply Hp, (bc_power _ _ _ _ _ _ Rj).
        - now rewrite (bc_trace _ _ _ _ _ _ Rj), writes_app, app_nil_r. }
      intros wk Bk Wk. pose proof (becomes_write _ _ _ _ _ _ _ _ Rj Bk) as Rk.
      cbv beta in Rk. rewrite decide_True in Rk by done.
      unfold brelse. apply spec_emit. intros wl Bl Wl.
      pose proof (becomes_frame _ _ _ _ _ _ _ _ Rk Bl) as Rl.
      apply HQ; [| tauto].
      eapply becomes_ext; [exact Rl | done .. ].
  Qed.

Lemma read_head_spec w Q C :
    let a := head_addr (logV w) in
    let hb := content w a in
    (Z.to_nat (Block.get_int hb logheader.off_n) ≤ length (lh_block w))%nat →
    (power w ≠ None →
     ∀ w'', disk w'' = disk w → writes (trace w'') = writes (trace w) → C w'') →
    (∀ w', becomes w w' (with_lh (get_head hb (lh_block w)) (logV w)) (disk w)
             (content w) [EBread a; EBrelse a] →
           (wf_store w → wf_store w') → Q tt w') →
    spec read_head w Q C.
  Proof.
    intros a hb Hlen HC HQ. unfold read_head. sp_pure.
    change (log.dev (logV w), log.start (logV w)) with a.
    apply spec_bread; [intros Hp; now apply HC |]. intros w2 B2 W2. sp_pure.
    rewrite (bc_content _ _ _ _ _ _ B2).
    change (log.dev (logV w), log.start (logV w)) with a.
    change (content w a) with hb.
    pose proof (becomes_set_logV _ _ _ _ _ _
      (with_n (Block.get_int hb logheader.off_n)) B2) as R3.
    set (w3 := set_logV (with_n (Block.get_int hb logheader.off_n)) w2) in *.
    assert (lh_n w3 = Block.get_int hb logheader.off_n) as Hn3.
    { unfold lh_n. now rewrite (bc_logV _ _ _ _ _ _ R3). }
    rewrite Hn3. unfold for_upto.
    apply (spec_for_loop (fun j wj =>
      becomes w wj
        (with_lh (logheader.mk (Block.get_int hb logheader.off_n)
                    (get_entries hb 0 j (lh_block w))) (logV w))
        (disk w) (content w) [EBread a] ∧ (wf_store w → wf_store wj))).
    - split; [| intros Hwf; now apply W2].
      eapply becomes_ext; [exact R3 | | done ..].
      reflexivity.
    - intros j wj Hj [Rj Wj]. simpl in Hj. sp_pure.
      rewrite (bc_content _ _ _ _ _ _ Rj). change (content w a) with hb.
      assert (lh_block wj = get_entries hb 0 j (lh_block w)) as Hbj.
      { unfold lh_block at 1. now rewrite (bc_logV _ _ _ _ _ _ Rj). }
      apply spec_store_block.
      { rewrite Hbj, length_get_entries. lia. }
      split; [| exact Wj].
      pose proof (becomes_set_logV _ _ _ _ _ _
        (with_block (<[j := Block.get_int hb (logheader.off_block j)]> (lh_block wj)))
        Rj) as Rk.
      eapply becomes_ext; [exact Rk | | done ..].
      rewrite Hbj, get_entries_snoc. reflexivity.
    - intros wj [Rj Wj]. unfold brelse. apply spec_emit. intros wk Bk Wk.
      pose proof (becomes_frame _ _ _ _ _ _ _ _ Rj Bk) as Rk.
      apply HQ; [| tauto].
      eapply becomes_ext; [exact Rk | done ..].
  Qed.
End Copy.

(** ** Running a call by hand *)

Ltac wsimpl :=
  unfold lh_n, lh_block;
  cbn [logV disk cache power wakeups trace
       set_logV set_disk set_cache set_power set_wakeups set_trace
       with_outstanding with_committing with_lh with_n with_block
       log.start log.size log.outstanding log.committing log.dev log.lh
       logheader.n logheader.block];
  repeat match goal with
         | |- context [logheader.n (log.lh (logV ?w))] =>
             change (logheader.n (log.lh (logV w))) with (lh_n w)
         | |- context [logheader.block (log.lh (logV ?w))] =>
             change (logheader.block (log.lh (logV w))) with (lh_block w)
         end.

Ltac run :=
  cbv [bind gets modify ret stop panic emit acquire release wakeup initlock
       brelse bpin bunpin buf_data buf_store];
  wsimpl.

(** ** [log_write] *)

Section LogWrite.
Context `{Params}.

  (** The logged block numbers: [lh.block[0..lh.n)]. *)
Definition entries (w : world) : list Z :=
    take (Z.to_nat (lh_n w)) (lh_block w).

  (** What logging block number [b] does to the logged block numbers. *)
Definition absorb (es : list Z) (b : Z) : list Z :=
    if decide (b ∈ es) then es else es ++ [b].

  (** The conversions of [log_write] on a block number that fits an [int]:
      the [int] stored is the block number, and an [int] entry equals it
      as [uint] exactly when it is that number. *)
Lemma blockno_stored bno :
    0 <= bno <= Int.max_int → Int.wrap bno = bno.
  Proof.
    intros Hb. apply wrap_id.
    unfold Int.in_range, Int.min_int, Int.max_int in *. lia.
  Qed.

Lemma blockno_compared v bno :
    Int.in_range v → 0 <= bno <= Int.max_int →
    Uint.wrap v = bno ↔ v = bno.
  Proof.
    unfold Int.in_range, Int.min_int, Int.max_int, Uint.wrap. intros Hv Hb.
    split; [| intros ->; apply Z.mod_small; lia].
    destruct (decide (0 <= v)) as [Hpos | Hneg].
    - rewrite Z.mod_small by lia. done.
    - rewrite <- (Z_mod_plus_full v 1), Z.mod_small by lia. lia.
  Qed.

Lemma absorb_scan_total blk bno i todo :
    (i + todo ≤ length blk)%nat →
    ∃ k, absorb_scan blk bno i todo = Some k ∧ (i ≤ k ≤ i + todo)%nat ∧
         (∀ j, (i ≤ j < k)%nat → blk !! j ≠ Some bno) ∧
         ((k < i + todo)%nat → blk !! k = Some bno).
  Proof.
    revert i. induction todo as [| todo IH]; intros i Hlen; simpl.
    - exists i. repeat split; [lia | lia | intros; lia | intros; lia].
    - destruct (lookup_lt_is_Some_2 blk i) as [v Hv]; [lia |].
      rewrite Hv. destruct (decide (v = bno)) as [-> | Hne].
      + exists i. repeat split; [lia | lia | intros; lia | done].
      + destruct (IH (S i)) as (k & Hk & Hr & Hbefore & Hat); [lia |].
        exists k. repeat split; [done | lia | lia | | intros; apply Hat; lia].
        intros j Hj. destruct (decide (j = i)) as [-> | Hji].
        * rewrite Hv. congruence.
        * apply Hbefore. lia.
  Qed.

  (** The three tests of [log_write] that end in [panic]. *)
Definition log_write_panics (w : world) : Prop :=
    lh_n w >= LOGSIZE ∨ lh_n w >= log.size (logV w) - 1 ∨
    log.outstanding (logV w) < 1.

  (** The state [log_write b] returns in when the scan stops at [k]. *)
Definition log_write_at (b : addr) (k : nat) (w : world) : world :=
    let w1 := set_trace (fun t => t ++ [EAcquire]) w in
    let w2 := set_logV (with_block (<[k := blockno b]> (lh_block w))) w1 in
    let w3 := if decide (Z.of_nat k = lh_n w)
              then set_logV (with_n (Int.wrap (lh_n w + 1)))
                     (set_trace (fun t => t ++ [EBpin b]) w2)
              else w2 in
    set_trace (fun t => t ++ [ERelease]) w3.

Lemma log_write_run b w :
    Int.in_range (log.size (logV w) - 1) →
    (Z.to_nat LOGSIZE ≤ length (lh_block w))%nat →
    0 < LOGSIZE →
    ¬ log_write_panics w →
    ∃ k, (k ≤ Z.to_nat (lh_n w))%nat ∧
         (∀ j, (j < k)%nat → lh_block w !! j ≠ Some (blockno b)) ∧
         ((k < Z.to_nat (lh_n w))%nat → lh_block w !! k = Some (blockno b)) ∧
         log_write b w = Ok tt (log_write_at b k w).
  Proof.
    intros Hsz Hlen Hpos Hok. unfold log_write_panics in Hok.
    destruct (absorb_scan_total (lh_block w) (blockno b) 0 (Z.to_nat (lh_n w)))
      as (k & Hk & Hr & Hbefore & Hat); [lia |].
    exists k. split; [lia |].
    split; [intros j Hj; apply Hbefore; lia |]. split; [exact Hat |].
    unfold log_write, log_write_at. run. rewrite (wrap_id _ Hsz).
    rewrite decide_False by lia. run. rewrite decide_False by lia. run.
    rewrite Hk. unfold store_block. run.
    rewrite decide_True by lia.
    destruct (decide (Z.of_nat k = lh_n w)); reflexivity.
  Qed.

Lemma log_write_stops b w :
    Int.in_range (log.size (logV w) - 1) →
    log_write_panics w →
    ∃ msg w', log_write b w = Halt (Panic msg) w'.
  Proof.
    intros Hsz Hp. unfold log_write_panics in Hp.
    unfold log_write. run. rewrite (wrap_id _ Hsz).
    destruct (decide (lh_n w >= LOGSIZE ∨ lh_n w >= log.size (logV w) - 1)).
    - eauto.
    - run. rewrite decide_True by lia. eauto.
  Qed.

Lemma NoDup_absorb es b : NoDup es → NoDup (absorb es b).
  Proof.
    intros Hnd. unfold absorb. case_decide; [done |].
    apply NoDup_app. split; [done |]. split; [| apply NoDup_singleton].
    intros x Hx Hx'. apply list_elem_of_singleton in Hx'. now subst.
  Qed.

  (** What [log_write] leaves alone. *)
Record log_write_frame (w w' : world) : Prop := {
    lwf_start : log.start (logV w') = log.start (logV w);
    lwf_size : log.size (logV w') = log.size (logV w);
    lwf_dev : log.dev (logV w') = log.dev (logV w);
    lwf_outstanding : log.outstanding (logV w') = log.outstanding (logV w);
    lwf_committing : log.committing (logV w') = log.committing (logV w);
    lwf_length : length (lh_block w') = length (lh_block w);
    lwf_disk : disk w' = disk w;
    lwf_cache : cache w' = cache w;
    lwf_power : power w' = power w;
    lwf_writes : writes (trace w') = writes (trace w);
    lwf_unpins : unpins (trace w') = unpins (trace w)
  }.

Lemma log_write_ok b w w' :
    Int.in_range (log.size (logV w) - 1) →
    length (lh_block w) = Z.to_nat LOGSIZE →
    0 < LOGSIZE <= Int.max_int →
    0 <= lh_n w →
    log_write b w = Ok tt w' →
    ¬ log_write_panics w ∧
    entries w' = absorb (entries w) (blockno b) ∧
    lh_n w' = Z.of_nat (length (entries w')) ∧
    pins (trace w') =
      pins (trace w) ++ (if decide (blockno b ∈ entries w) then [] else [b]) ∧
    log_write_frame w w'.
  Proof.
    intros Hsz Hlen HL Hn Hrun.
    destruct (decide (log_write_panics w)) as [Hp | Hp].
    { destruct (log_write_stops b w Hsz Hp) as (msg & w'' & E). congruence. }
    split; [done |].
    destruct (log_write_run b w Hsz ltac:(lia) ltac:(lia) Hp)
      as (k & Hk & Hbefore & Hat & E).
    rewrite E in Hrun. injection Hrun as <-. clear E.
    unfold log_write_panics in Hp.
    assert (Z.to_nat (lh_n w) < length (lh_block w))%nat as Hnlen by lia.
    unfold entries, log_write_at.
    destruct (decide (Z.of_nat k = lh_n w)) as [Hkn | Hkn]; wsimpl.
    - assert (k = Z.to_nat (lh_n w)) as -> by lia.
      assert (blockno b ∉ take (Z.to_nat (lh_n w)) (lh_block w)) as Hnew.
      { intros (j & Hj)%list_elem_of_lookup_1.
        apply lookup_take_Some in Hj as [Hj Hlt]. now apply (Hbefore j). }
      rewrite wrap_id by (unfold Int.in_range, Int.min_int, Int.max_int in *; lia).
      replace (Z.to_nat (lh_n w + 1)) with (S (Z.to_nat (lh_n w))) by lia.
      rewrite (take_S_r _ _ (blockno b)) by now apply list_lookup_insert_eq.
      rewrite take_insert_ge by lia.
      unfold absorb. rewrite !decide_False by done.
      repeat split; wsimpl; try done.
      + rewrite length_app, length_take. simpl. lia.
      + rewrite !pins_app. simpl. now rewrite !app_nil_r.
      + now rewrite length_insert.
      + rewrite !writes_app. simpl. now rewrite !app_nil_r.
      + rewrite !unpins_app. simpl. now rewrite !app_nil_r.
    - assert (k < Z.to_nat (lh_n w))%nat as Hlt by lia.
      rewrite list_insert_id by now apply Hat.
      assert (blockno b ∈ take (Z.to_nat (lh_n w)) (lh_block w)) as Hold.
      { apply list_elem_of_lookup. exists k. rewrite lookup_take_lt by lia. now apply Hat. }
      unfold absorb. rewrite !decide_True by done.
      repeat split; wsimpl; try done.
      + rewrite length_take. lia.
      + rewrite !pins_app. simpl. now rewrite !app_nil_r.
      + rewrite !writes_app. simpl. now rewrite !app_nil_r.
      + rewrite !unpins_app. simpl. now rewrite !app_nil_r.
  Qed.

  (** The calls of one transaction, one after the other. *)
Definition log_write_all (bs : list addr) : M unit :=
    foldr (fun b k => log_write b ;;; k) (ret tt) bs.
End LogWrite.


Section LogWriteClaims.
Context `{Params}.

(** C6.  [log_write] panics if and only if, at entry, [lh.n ≥ LOGSIZE], or
    [lh.n ≥ size − 1], or [outstanding < 1]; when none of the three holds it
    returns normally.  ([size − 1] is assumed to be computed without
    overflow, and [lh.block] to have its [LOGSIZE] elements.) *)
Theorem log_write_panic_iff b w :
  Int.in_range (log.size (logV w) - 1) →
  length (lh_block w) = Z.to_nat LOGSIZE →
  0 < LOGSIZE →
  ((∃ msg w', log_write b w = Halt (Panic msg) w') ↔
   (lh_n w >= LOGSIZE ∨ lh_n w >= log.size (logV w) - 1 ∨
    log.outstanding (logV w) < 1)) ∧
  (¬ (lh_n w >= LOGSIZE ∨ lh_n w >= log.size (logV w) - 1 ∨
      log.outstanding (logV w) < 1) →
   ∃ w', log_write b w = Ok tt w').
Proof.
  intros Hsz Hlen Hpos.
  assert (¬ log_write_panics w → ∃ w', log_write b w = Ok tt w') as Hret.
  { intros Hok.
    destruct (log_write_run b w Hsz ltac:(lia) Hpos Hok) as (k & _ & _ & _ & E).
    eauto. }
  split; [split |].
  - intros (msg & w' & E).
    destruct (decide (log_write_panics w)) as [Hp | Hp]; [exact Hp |].
    destruct (Hret Hp) as (w'' & E'). congruence.
  - apply log_write_stops, Hsz.
  - exact Hret.
Qed.

Lemma log_write_all_ok bs : ∀ w w',
  Int.in_range (log.size (logV w) - 1) →
  length (lh_block w) = Z.to_nat LOGSIZE →
  0 < LOGSIZE <= Int.max_int →
  0 <= lh_n w <= LOGSIZE →
  log_write_all bs w = Ok tt w' →
  entries w' = foldl absorb (entries w) (blockno <$> bs) ∧
  lh_n w' = Z.of_nat (length (entries w')) ∧
  log_write_frame w w'.
Proof.
  induction bs as [| b bs IH]; intros w w' Hsz Hlen HL Hn Hrun.
  - injection Hrun as <-. simpl. split; [done |]. split; [| done].
    unfold entries. rewrite length_take. lia.
  - simpl in Hrun. unfold bind in Hrun.
    destruct (log_write b w) as [[] w1 | h w1] eqn:E1; [| done].
    destruct (log_write_ok b w w1 Hsz Hlen HL ltac:(lia) E1)
      as (_ & He & Hn1 & Hp1 & F1).
    destruct (IH w1 w') as (He' & Hn' & F'); try done.
    { now rewrite (lwf_size _ _ F1). }
    { now rewrite (lwf_length _ _ F1). }
    { split; [lia |]. rewrite Hn1. unfold entries.
      rewrite length_take, (lwf_length _ _ F1). lia. }
    split; [simpl; now rewrite He', He |]. split; [done |].
    destruct F1, F'. split; congruence.
Qed.


Lemma Forall_foldl_absorb (P : Z → Prop) bs : ∀ es,
  Forall P es → Forall P bs → Forall P (foldl absorb es bs).
Proof.
  induction bs as [| b bs IH]; intros es Hes Hbs; simpl; [done |].
  inversion Hbs as [| ? ? Hb Hbs']; subst.
  apply IH; [| done]. unfold absorb. case_decide; [done |].
  apply Forall_app. split; [done |]. now apply Forall_singleton.
Qed.

(** C3.  Over any sequence of [log_write] calls of a transaction, all of
    which return, the entries [lh.block[0..lh.n)] stay pairwise distinct and
    are [lh.n] in number: a block number already among them is absorbed
    ([lh.n] and the entries are unchanged), a new one is appended at index
    [lh.n] and [lh.n] grows by one.  What the array holds entry by entry is
    stated for block numbers that fit its [int] elements,
    [0 <= blockno <= INT_MAX], and for entries that are [int]s: the entries
    then stay [int]s, the [int] that the store of line 209 converts a block
    number to is the block number, and the comparison of line 206, of an
    entry with a block number as [uint], is the comparison of the
    numbers. *)
Theorem log_write_absorption bs w w' :
  Int.in_range (log.size (logV w) - 1) →
  length (lh_block w) = Z.to_nat LOGSIZE →
  0 < LOGSIZE <= Int.max_int →
  0 <= lh_n w <= LOGSIZE →
  NoDup (entries w) →
  log_write_all bs w = Ok tt w' →
  NoDup (entries w') ∧
  Z.of_nat (length (entries w')) = lh_n w' ∧
  (Forall Int.in_range (entries w) →
   Forall (fun b => 0 <= blockno b <= Int.max_int) bs →
   entries w' = foldl absorb (entries w) (blockno <$> bs) ∧
   Forall Int.in_range (entries w') ∧
   (∀ b v, b ∈ bs → v ∈ entries w' →
      Int.wrap (blockno b) = blockno b ∧
      (Uint.wrap v = blockno b ↔ v = blockno b)) ∧
   (∀ b, bs = [b] →
      (blockno b ∈ entries w → lh_n w' = lh_n w ∧ entries w' = entries w) ∧
      (blockno b ∉ entries w →
         lh_n w' = lh_n w + 1 ∧
         lh_block w' !! Z.to_nat (lh_n w) = Some (blockno b) ∧
         entries w' = entries w ++ [blockno b]))).
Proof.
  intros Hsz Hlen HL Hn Hnd Hrun.
  destruct (log_write_all_ok bs w w' Hsz Hlen HL Hn Hrun) as (He & Hn' & _).
  assert (Z.of_nat (length (entries w)) = lh_n w) as Hcount.
  { unfold entries. rewrite length_take. lia. }
  split.
  { rewrite He. clear -Hnd. revert Hnd. generalize (entries w).
    induction (blockno <$> bs) as [| x xs IH]; intros es Hes; simpl; [done |].
    apply IH. now apply NoDup_absorb. }
  split; [lia |].
  intros Hint Hfit.
  assert (Forall Int.in_range (entries w')) as Hint'.
  { rewrite He. apply Forall_foldl_absorb; [done |].
    apply Forall_fmap. eapply Forall_impl; [exact Hfit |].
    intros b Hb. simpl. unfold Int.in_range, Int.min_int, Int.max_int in *. lia. }
  split; [exact He |]. split; [exact Hint' |]. split.
  { intros b v Hb Hv.
    pose proof (proj1 (Forall_forall _ _) Hfit b Hb) as Hbn.
    pose proof (proj1 (Forall_forall _ _) Hint' v Hv) as Hvr.
    split; [now apply blockno_stored | now apply blockno_compared]. }
  intros b ->. simpl in He. unfold absorb in He. split.
  - intros Hin. rewrite decide_True in He by done.
    split; [| done]. rewrite Hn', He. lia.
  - intros Hnin. rewrite decide_False in He by done.
    split; [| split; [| done]].
    + rewrite Hn', He, length_app. simpl. lia.
    + assert (entries w' !! Z.to_nat (lh_n w) = Some (blockno b)) as Hl.
      { rewrite He, <- Hcount, Nat2Z.id. now rewrite list_lookup_middle. }
      unfold entries in Hl. apply lookup_take_Some in Hl. tauto.
Qed.
End LogWriteClaims.

(** ** [commit] with nothing logged, [end_op], [begin_op] *)

Section Admission.
Context `{Params}.

Lemma commit_idle w : lh_n w <= 0 → commit w = Ok tt w.
Proof.
  intros Hn. unfold commit. run. now rewrite decide_False by lia.
Qed.

(** C8.  If [lh.n == 0] when [commit] is called, it makes no call at all, so
    no disk read or write, and leaves the whole machine, every field of the
    log state included, as it was. *)
Theorem commit_nothing_logged w :
  lh_n w = 0 → commit w = Ok tt w.
Proof. intros Hn. apply commit_idle. lia. Qed.

(** The calls [evs] added to the trace. *)
Definition add_events (evs : list event) (w : world) : world :=
  set_trace (fun t => t ++ evs) w.

Lemma add_events_add_events e1 e2 w :
  add_events e2 (add_events e1 w) = add_events (e1 ++ e2) w.
Proof. unfold add_events, set_trace. simpl. now rewrite app_assoc. Qed.

Lemma add_events_set_logV f evs w :
  add_events evs (set_logV f w) = set_logV f (add_events evs w).
Proof. reflexivity. Qed.

(** C7.  [end_op] decrements [outstanding], then panics if [committing] is
    set.  Otherwise, if the decremented count is 0 it sets [committing],
    releases the lock, runs [commit], and with the lock again clears
    [committing] and wakes all sleepers; if the count is not 0 it wakes all
    sleepers and does not commit. *)
Theorem end_op_behaviour w :
  Int.in_range (log.outstanding (logV w) - 1) →
  let o' := log.outstanding (logV w) - 1 in
  let w1 := set_logV (with_outstanding o') (add_events [EAcquire] w) in
  (log.committing (logV w) ≠ 0 →
     end_op w = Halt (Panic "logV.committing") w1) ∧
  (log.committing (logV w) = 0 → o' ≠ 0 →
     end_op w = Ok tt (add_events [EWakeup; ERelease] w1)) ∧
  (log.committing (logV w) = 0 → o' = 0 →
     let w2 := add_events [ERelease] (set_logV (with_committing 1) w1) in
     match commit w2 with
     | Ok _ w3 =>
         end_op w = Ok tt (add_events [EAcquire; EWakeup; ERelease]
                             (set_logV (with_committing 0) w3))
     | Halt h w3 => end_op w = Halt h w3
     end).
Proof.
  intros Ho o' w1. subst w1 o'.
  split; [| split].
  - intros Hc. unfold end_op. run.
    rewrite decide_True by done.
    unfold add_events, set_trace, set_logV. simpl. now rewrite (wrap_id _ Ho).
  - intros Hc Hne. unfold end_op. run.
    rewrite decide_False by (intros E; now apply E). run.
    rewrite decide_False by (simpl; now rewrite (wrap_id _ Ho)). run.
    rewrite decide_False by (intros E; now apply E).
    unfold add_events, set_trace, set_logV. simpl.
    now rewrite (wrap_id _ Ho), <- !app_assoc.
  - intros Hc He. cbv zeta. unfold end_op. run.
    rewrite decide_False by (intros E; now apply E). run.
    rewrite decide_True by (simpl; now rewrite (wrap_id _ Ho)). run.
    rewrite decide_True by done.
    replace (set_trace (fun t => t ++ [ERelease])
               (set_logV (with_committing 1)
                  (set_logV (fun l => with_outstanding (Int.wrap (log.outstanding l - 1)) l)
                     (set_trace (fun t => t ++ [EAcquire]) w))))
      with (add_events [ERelease]
              (set_logV (with_committing 1)
                 (set_logV (with_outstanding (log.outstanding (logV w) - 1))
                    (add_events [EAcquire] w)))).
    2: { unfold add_events, set_trace, set_logV. simpl. now rewrite (wrap_id _ Ho). }
    match goal with
    | |- context [commit ?a] => destruct (commit a) as [[] w3 | h w3]
    end; [| done].
    unfold add_events, set_trace, set_logV. simpl. now rewrite <- !app_assoc.
Qed.

(** The state lets a caller in: no commit is running and the caller's
    reservation fits. *)
Definition admits (l : log.t) : Prop :=
  log.committing l = 0 ∧
  logheader.n (log.lh l) + (log.outstanding l + 1) * MAXOPBLOCKS <= LOGSIZE.

(** The arithmetic of the reservation test does not overflow an [int]. *)
Definition no_overflow (l : log.t) : Prop :=
  Int.in_range (log.outstanding l + 1) ∧
  Int.in_range ((log.outstanding l + 1) * MAXOPBLOCKS) ∧
  Int.in_range (logheader.n (log.lh l) + (log.outstanding l + 1) * MAXOPBLOCKS).

(** The states of [logV] a thread finds, pass after pass of the loop, when
    the other threads act as [ws] says. *)
Fixpoint observed (l : log.t) (ws : list (log.t → log.t)) : list log.t :=
  l :: match ws with
       | [] => []
       | f :: ws' => observed (f l) ws'
       end.

Lemma reserved_exact l :
  no_overflow l →
  reserved l = logheader.n (log.lh l) + (log.outstanding l + 1) * MAXOPBLOCKS.
Proof.
  intros (H1 & H2 & H3). unfold reserved.
  now rewrite (wrap_id _ H1), (wrap_id _ H2), (wrap_id _ H3).
Qed.

(** What a run of [begin_op] comes to after [k] sleeps. *)
Definition admitted (w w' : world) (k : nat) (l : log.t) : Prop :=
  logV w' = with_outstanding (log.outstanding l + 1) l ∧
  trace w' = trace w ++ replicate k ESleep ++ [ERelease] ∧
  disk w' = disk w ∧ cache w' = cache w ∧ power w' = power w.

Lemma begin_op_loop_run ws : ∀ w,
  wakeups w = ws →
  Forall no_overflow (observed (logV w) ws) →
  match begin_op_loop (S (length ws)) w with
  | Ok _ w' =>
      ∃ k l, observed (logV w) ws !! k = Some l ∧ admits l ∧
             (∀ j l', (j < k)%nat → observed (logV w) ws !! j = Some l' → ¬ admits l') ∧
             admitted w w' k l
  | Halt Blocked w' => ∀ l, l ∈ observed (logV w) ws → ¬ admits l
  | Halt _ _ => False
  end.
Proof.
  induction ws as [| f ws IH]; intros w Hws Hno.
  - simpl in *. run.
    apply Forall_cons in Hno as [Hno _].
    pose proof (reserved_exact _ Hno) as Hres.
    destruct (decide (log.committing (logV w) ≠ 0)) as [Hc | Hc].
    { unfold sleep. run. rewrite Hws.
      intros l ->%list_elem_of_singleton [Hc' _]. done. }
    destruct (decide (reserved (logV w) > LOGSIZE)) as [Hr | Hr].
    { unfold sleep. run. rewrite Hws.
      intros l ->%list_elem_of_singleton [_ Hf]. lia. }
    run. rewrite (wrap_id _ (proj1 Hno)).
    exists 0%nat, (logV w). split; [done |].
    split; [split; [| lia]; destruct (decide (log.committing (logV w) = 0)); tauto |].
    split; [intros; lia |]. repeat split.
  - apply Forall_cons in Hno as [Hno Hrest].
    pose proof (reserved_exact _ Hno) as Hres.
    specialize (IH (set_wakeups ws (set_logV f (set_trace (fun t => t ++ [ESleep]) w)))
                  eq_refl Hrest).
    change (begin_op_loop (S (length (f :: ws))) w)
      with ((l <- gets logV ;;
             if decide (log.committing l ≠ 0) then
               sleep ;;; begin_op_loop (S (length ws))
             else if decide (reserved l > LOGSIZE) then
               sleep ;;; begin_op_loop (S (length ws))
             else
               modify (set_logV (with_outstanding (Int.wrap (log.outstanding l + 1)))) ;;;
               release) w).
    assert ((sleep ;;; begin_op_loop (S (length ws))) w
            = begin_op_loop (S (length ws))
                (set_wakeups ws (set_logV f (set_trace (fun t => t ++ [ESleep]) w)))) as Hsleep.
    { unfold sleep. run. now rewrite Hws. }
    assert (¬ admits (logV w) →
      match (sleep ;;; begin_op_loop (S (length ws))) w with
      | Ok _ w' =>
          ∃ k l, observed (logV w) (f :: ws) !! k = Some l ∧ admits l ∧
                 (∀ j l', (j < k)%nat →
                    observed (logV w) (f :: ws) !! j = Some l' → ¬ admits l') ∧
                 admitted w w' k l
      | Halt Blocked w' => ∀ l, l ∈ observed (logV w) (f :: ws) → ¬ admits l
      | Halt _ _ => False
      end) as Hgo.
    { intros Hna. rewrite Hsleep.
      destruct (begin_op_loop _ _) as [[] w' | [] w']; try done.
      - destruct IH as (k & l & Hk & Hl & Hbefore & Hlog & Htr & Hd & Hc & Hp).
        exists (S k), l. split; [exact Hk |]. split; [done |]. split.
        + intros [| j] l' Hj Hl'.
          * injection Hl' as <-. exact Hna.
          * apply (Hbefore j l'); [lia | exact Hl'].
        + split; [done |]. split; [| done].
          rewrite Htr. simpl. now rewrite <- app_assoc.
      - intros l [-> | Hl]%elem_of_cons; [exact Hna |]. now apply IH. }
    unfold bind at 1, gets at 1.
    destruct (decide (log.committing (logV w) ≠ 0)) as [Hc | Hc].
    { apply Hgo. intros [Hc' _]. done. }
    destruct (decide (reserved (logV w) > LOGSIZE)) as [Hr | Hr].
    { apply Hgo. intros [_ Hf]. lia. }
    run. rewrite (wrap_id _ (proj1 Hno)).
    exists 0%nat, (logV w). split; [done |].
    split; [split; [| lia]; destruct (decide (log.committing (logV w) = 0)); tauto |].
    split; [intros; lia |]. repeat split.
Qed.

(** C2.  Whenever [begin_op] returns, [lh.n + outstanding × MAXOPBLOCKS ≤
    LOGSIZE]: it lets the caller in, incrementing [outstanding], only in a
    state where [committing] is false and [lh.n + (outstanding + 1) ×
    MAXOPBLOCKS ≤ LOGSIZE], and sleeps through every state before it where
    that fails; it returns as soon as some state it finds lets it in, and
    stays asleep if none does. *)
Theorem begin_op_reservation w :
  Forall no_overflow (observed (logV w) (wakeups w)) →
  (∀ w', begin_op w = Ok tt w' →
     lh_n w' + log.outstanding (logV w') * MAXOPBLOCKS <= LOGSIZE ∧
     ∃ k l, observed (logV w) (wakeups w) !! k = Some l ∧
            log.committing l = 0 ∧
            logheader.n (log.lh l) + (log.outstanding l + 1) * MAXOPBLOCKS <= LOGSIZE ∧
            (∀ j l', (j < k)%nat → observed (logV w) (wakeups w) !! j = Some l' →
                     ¬ admits l') ∧
            logV w' = with_outstanding (log.outstanding l + 1) l ∧
            trace w' = trace w ++ [EAcquire] ++ replicate k ESleep ++ [ERelease]) ∧
  ((∃ l, l ∈ observed (logV w) (wakeups w) ∧ admits l) →
   ∃ w', begin_op w = Ok tt w') ∧
  ((∀ l, l ∈ observed (logV w) (wakeups w) → ¬ admits l) →
   ∃ w', begin_op w = Halt Blocked w').
Proof.
  intros Hno.
  pose proof (begin_op_loop_run (wakeups w)
                (set_trace (fun t => t ++ [EAcquire]) w) eq_refl Hno) as Hrun.
  assert (begin_op w = begin_op_loop (S (length (wakeups w)))
                         (set_trace (fun t => t ++ [EAcquire]) w)) as ->.
  { unfold begin_op. now run. }
  change (logV (set_trace _ w)) with (logV w) in Hrun.
  destruct (begin_op_loop _ _) as [[] w1 | h w1].
  - destruct Hrun as (k & l & Hk & [Hc Hf] & Hbefore & Hlog & Htr & _).
    split; [| split].
    + intros w' [= <-]. split.
      * unfold lh_n. rewrite Hlog. simpl. lia.
      * exists k, l. repeat split; try done.
        rewrite Htr. simpl. now rewrite <- app_assoc.
    + eauto.
    + intros Hnone. exfalso. apply (Hnone l); [| done].
      apply list_elem_of_lookup. eauto.
  - destruct h; try done. split; [| split].
    + intros w' [=].
    + intros (l & Hl & Ha). now destruct (Hrun l Hl).
    + eauto.
Qed.
End Admission.

(** ** Runs that do not lose power: which calls they make *)

Section Shape.
Context `{Params}.

Lemma bind_ok {A B} (m : M A) (k : A → M B) w a w1 :
  m w = Ok a w1 → bind m k w = k a w1.
Proof. unfold bind. now intros ->. Qed.

(** The home blocks of the logged block numbers, and the log slots. *)
Definition homes (w : world) : list addr := home_addr (logV w) <$> entries w.
Definition slots (w : world) : list addr :=
  slot_addr (logV w) <$> seq 0 (Z.to_nat (lh_n w)).

Lemma entries_lookup w (j : nat) b :
  (j < Z.to_nat (lh_n w))%nat → lh_block w !! j = Some b →
  entries w !! j = Some b.
Proof. intros Hj Hb. unfold entries. now rewrite lookup_take_lt. Qed.

Lemma length_entries w :
  (Z.to_nat (lh_n w) ≤ length (lh_block w))%nat →
  length (entries w) = Z.to_nat (lh_n w).
Proof. intros Hlen. unfold entries. rewrite length_take. lia. Qed.

Lemma take_entries w :
  (Z.to_nat (lh_n w) ≤ length (lh_block w))%nat →
  take (Z.to_nat (lh_n w)) (entries w) = entries w.
Proof. intros Hlen. apply take_ge. rewrite length_entries; [lia | done]. Qed.

(** What a run without power loss keeps and adds. *)
Record ran (w w' : world) (l : log.t) (ps us ws : list addr) : Prop := {
  ran_logV : logV w' = l;
  ran_power : power w' = None;
  ran_wakeups : wakeups w' = wakeups w;
  ran_wf : wf_store w → wf_store w';
  ran_pins : pins (trace w') = pins (trace w) ++ ps;
  ran_unpins : unpins (trace w') = unpins (trace w) ++ us;
  ran_writes : (writes (trace w')).*1 = (writes (trace w)).*1 ++ ws
}.

Lemma ran_trans w w1 w2 l1 l2 ps1 ps2 us1 us2 ws1 ws2 :
  ran w w1 l1 ps1 us1 ws1 → ran w1 w2 l2 ps2 us2 ws2 →
  ran w w2 l2 (ps1 ++ ps2) (us1 ++ us2) (ws1 ++ ws2).
Proof.
  intros [] []. split; try done; try congruence.
  - auto.
  - rewrite app_assoc. congruence.
  - rewrite app_assoc. congruence.
  - rewrite app_assoc. congruence.
Qed.

Lemma ran_set_logV w w' l ps us ws f :
  ran w w' l ps us ws → ran w (set_logV f w') (f l) ps us ws.
Proof. intros []. split; simpl; try done. congruence. Qed.

Lemma install_trans_shape recovering w :
  power w = None →
  (Z.to_nat (lh_n w) ≤ length (lh_block w))%nat →
  ∃ w', install_trans recovering w = Ok tt w' ∧
        ran w w' (logV w) [] (if decide (recovering = 0) then homes w else [])
          (homes w).
Proof.
  intros Hp Hlen.
  pose (I := fun (j : nat) w1 =>
    ran w w1 (logV w) []
      (if decide (recovering = 0) then take j (homes w) else [])
      (take j (homes w))).
  destruct (spec_returns (install_trans recovering) w
              (fun _ w' => I (Z.to_nat (lh_n w)) w')) as ([] & w' & E & HI).
  - apply (install_trans_rule recovering I); [done | | | done].
    + split; simpl; rewrite ?app_nil_r; try done.
      case_decide; now rewrite app_nil_r.
    + intros j dst w1 Hj Hdst Hl [Rl Rp Rw Rwf Rpi Ru Rwr]. cbv zeta. split.
      { intros Hne. congruence. }
      intros w2 B2 W2.
      assert (take (S j) (homes w) = take j (homes w) ++ [home_addr (logV w) dst]) as Htake.
      { apply take_S_r. unfold homes. rewrite list_lookup_fmap.
        now rewrite (entries_lookup w j dst). }
      split.
      * apply (bc_logV _ _ _ _ _ _ B2).
      * now apply (bc_power _ _ _ _ _ _ B2).
      * rewrite (bc_wakeups _ _ _ _ _ _ B2). exact Rw.
      * auto.
      * rewrite (bc_trace _ _ _ _ _ _ B2), pins_app, Rpi.
        unfold install_events. case_decide; simpl; now rewrite !app_nil_r.
      * rewrite (bc_trace _ _ _ _ _ _ B2), unpins_app, Ru.
        unfold install_events. case_decide; simpl.
        -- now rewrite Htake, app_assoc.
        -- now rewrite !app_nil_r.
      * rewrite (bc_trace _ _ _ _ _ _ B2), writes_app, fmap_app, Rwr.
        unfold install_events. rewrite Htake.
        case_decide; simpl; now rewrite app_assoc.
  - exists w'. split; [done |]. unfold I in HI.
    unfold homes in *. rewrite <- !fmap_take, take_entries in HI by done.
    exact HI.
Qed.

Lemma write_log_shape w :
  power w = None →
  (Z.to_nat (lh_n w) ≤ length (lh_block w))%nat →
  ∃ w', write_log w = Ok tt w' ∧ ran w w' (logV w) [] [] (slots w).
Proof.
  intros Hp Hlen.
  pose (I := fun (j : nat) w1 => ran w w1 (logV w) [] [] (take j (slots w))).
  destruct (spec_returns write_log w
              (fun _ w' => I (Z.to_nat (lh_n w)) w')) as ([] & w' & E & HI).
  - apply (write_log_rule I); [done | | | done].
    + split; try done. all: now rewrite ?app_nil_r.
    + intros j src w1 Hj Hsrc Hl [Rl Rp Rw Rwf Rpi Ru Rwr]. cbv zeta. split.
      { intros Hne. congruence. }
      intros w2 B2 W2.
      assert (take (S j) (slots w) = take j (slots w) ++ [slot_addr (logV w) j]) as Htake.
      { apply take_S_r. unfold slots. rewrite list_lookup_fmap.
        rewrite lookup_seq_lt by lia. done. }
      split.
      * apply (bc_logV _ _ _ _ _ _ B2).
      * now apply (bc_power _ _ _ _ _ _ B2).
      * rewrite (bc_wakeups _ _ _ _ _ _ B2). exact Rw.
      * auto.
      * rewrite (bc_trace _ _ _ _ _ _ B2), pins_app, Rpi. simpl. now rewrite !app_nil_r.
      * rewrite (bc_trace _ _ _ _ _ _ B2), unpins_app, Ru. simpl. now rewrite !app_nil_r.
      * rewrite (bc_trace _ _ _ _ _ _ B2), writes_app, fmap_app, Rwr.
        rewrite Htake. simpl. now rewrite app_assoc.
  - exists w'. split; [done |]. unfold I in HI.
    rewrite take_ge in HI; [done |].
    unfold slots. rewrite length_fmap, length_seq. lia.
Qed.

Lemma write_head_run w :
  power w = None →
  (Z.to_nat (lh_n w) ≤ length (lh_block w))%nat →
  let a := head_addr (logV w) in
  let hb := put_head (content w a) (log.lh (logV w)) in
  ∃ w', write_head w = Ok tt w' ∧
        becomes w w' (logV w) (<[a := hb]> (disk w))
          (fun x => if decide (x = a) then hb else content w x)
          [EBread a; EBwrite a hb; EBrelse a] ∧
        (wf_store w → wf_store w').
Proof.
  intros Hp Hlen a hb.
  destruct (spec_returns write_head w (fun _ w' =>
    becomes w w' (logV w) (<[a := hb]> (disk w))
      (fun x => if decide (x = a) then hb else content w x)
      [EBread a; EBwrite a hb; EBrelse a] ∧ (wf_store w → wf_store w')))
    as ([] & w' & E & HQ); [| eauto].
  apply write_head_spec; [done | congruence | auto].
Qed.

Lemma read_head_run w :
  power w = None →
  let a := head_addr (logV w) in
  let hb := content w a in
  (Z.to_nat (Block.get_int hb logheader.off_n) ≤ length (lh_block w))%nat →
  ∃ w', read_head w = Ok tt w' ∧
        becomes w w' (with_lh (get_head hb (lh_block w)) (logV w)) (disk w)
          (content w) [EBread a; EBrelse a] ∧
        (wf_store w → wf_store w').
Proof.
  intros Hp a hb Hlen.
  destruct (spec_returns read_head w (fun _ w' =>
    becomes w w' (with_lh (get_head hb (lh_block w)) (logV w)) (disk w)
      (content w) [EBread a; EBrelse a] ∧ (wf_store w → wf_store w')))
    as ([] & w' & E & HQ); [| eauto].
  apply read_head_spec; [done | congruence | auto].
Qed.

Lemma becomes_ran w w' l d c evs :
  power w = None → becomes w w' l d c evs → (wf_store w → wf_store w') →
  ran w w' l (pins evs) (unpins evs) ((writes evs).*1).
Proof.
  intros Hp [Hl Hw Hd Hc Ht Hpw] Hwf. split; try done; [auto | | |].
  - now rewrite Ht, pins_app.
  - now rewrite Ht, unpins_app.
  - now rewrite Ht, writes_app, fmap_app.
Qed.
End Shape.

Section Shape2.
Context `{Params}.

Lemma bind_modify {B} f (k : unit → M B) w : bind (modify f) k w = k tt (f w).
Proof. reflexivity. Qed.

Lemma bind_gets {A B} (f : world → A) (k : A → M B) w : bind (gets f) k w = k (f w) w.
Proof. reflexivity. Qed.

Lemma ran_ext w w' l ps us ws l' ps' us' ws' :
  ran w w' l ps us ws → l = l' → ps = ps' → us = us' → ws = ws' →
  ran w w' l' ps' us' ws'.
Proof. now intros ? <- <- <- <-. Qed.


Lemma commit_shape w :
  power w = None →
  0 < lh_n w →
  (Z.to_nat (lh_n w) ≤ length (lh_block w))%nat →
  ∃ w', commit w = Ok tt w' ∧
        ran w w' (with_n 0 (logV w)) [] (homes w)
          (slots w ++ [head_addr (logV w)] ++ homes w ++ [head_addr (logV w)]).
Proof.
  intros Hp Hn Hlen.
  destruct (write_log_shape w Hp Hlen) as (w1 & E1 & R1).
  pose proof (ran_logV _ _ _ _ _ _ R1) as L1.
  destruct (write_head_run w1) as (w2 & E2 & B2 & W2).
  { apply (ran_power _ _ _ _ _ _ R1). }
  { unfold lh_n, lh_block. now rewrite L1. }
  pose proof (becomes_ran _ _ _ _ _ _ (ran_power _ _ _ _ _ _ R1) B2 W2) as R2.
  pose proof (ran_trans _ _ _ _ _ _ _ _ _ _ _ R1 R2) as R12. clear R2.
  destruct (install_trans_shape 0 w2) as (w3 & E3 & R3).
  { apply (ran_power _ _ _ _ _ _ R12). }
  { unfold lh_n, lh_block. now rewrite (ran_logV _ _ _ _ _ _ R12), L1. }
  pose proof (ran_trans _ _ _ _ _ _ _ _ _ _ _ R12 R3) as R13. clear R3.
  pose proof (ran_set_logV _ _ _ _ _ _ (with_n 0) R13) as R13'.
  destruct (write_head_run (set_logV (with_n 0) w3)) as (w4 & E4 & B4 & W4).
  { apply (ran_power _ _ _ _ _ _ R13'). }
  { unfold lh_n. rewrite (ran_logV _ _ _ _ _ _ R13'). simpl. lia. }
  pose proof (becomes_ran _ _ _ _ _ _ (ran_power _ _ _ _ _ _ R13') B4 W4) as R4.
  pose proof (ran_trans _ _ _ _ _ _ _ _ _ _ _ R13' R4) as R.
  exists w4. split.
  - unfold commit. rewrite bind_gets, decide_True by lia.
    rewrite (bind_ok _ _ _ _ _ E1), (bind_ok _ _ _ _ _ E2), (bind_ok _ _ _ _ _ E3).
    now rewrite bind_modify.
  - assert (homes w2 = homes w) as Hh.
    { unfold homes, entries, lh_n, lh_block.
      now rewrite (ran_logV _ _ _ _ _ _ R12), L1. }
    assert (logV w3 = logV w) as L3.
    { now rewrite (ran_logV _ _ _ _ _ _ R13), (ran_logV _ _ _ _ _ _ R12). }
    eapply ran_ext; [exact R | simpl ..].
    + now rewrite L3.
    + done.
    + now rewrite Hh, app_nil_r.
    + rewrite Hh, L1, L3, <- !app_assoc. reflexivity.
Qed.

(** The header block a recovery leaves: the one it found, with [n = 0]. *)
Lemma recover_shape w :
  power w = None →
  let a := head_addr (logV w) in
  let hb := content w a in
  let h := get_head hb (lh_block w) in
  (Z.to_nat (Block.get_int hb logheader.off_n) ≤ length (lh_block w))%nat →
  ∃ w' X, recover_from_log w = Ok tt w' ∧
        ran w w' (with_n 0 (with_lh h (logV w))) [] []
          ((home_addr (logV w) <$> take (Z.to_nat (logheader.n h)) (logheader.block h))
           ++ [a]) ∧
        disk w' !! a = Some (Block.set_int X logheader.off_n 0) ∧
        content w' a = Block.set_int X logheader.off_n 0 ∧
        (wf_store w → length X = Z.to_nat BSIZE).
Proof.
  intros Hp a hb h Hlen.
  destruct (read_head_run w Hp Hlen) as (w1 & E1 & B1 & W1).
  pose proof (becomes_ran _ _ _ _ _ _ Hp B1 W1) as R1.
  pose proof (ran_logV _ _ _ _ _ _ R1) as L1. fold a hb h in L1.
  assert (length (logheader.block h) = length (lh_block w)) as Hlh.
  { unfold h, get_head. simpl. apply length_get_entries. }
  destruct (install_trans_shape 1 w1) as (w2 & E2 & R2).
  { apply (ran_power _ _ _ _ _ _ R1). }
  { replace (lh_n w1) with (logheader.n h) by (unfold lh_n; now rewrite L1).
    replace (lh_block w1) with (logheader.block h) by (unfold lh_block; now rewrite L1).
    rewrite Hlh. exact Hlen. }
  pose proof (ran_trans _ _ _ _ _ _ _ _ _ _ _ R1 R2) as R12. clear R2.
  pose proof (ran_set_logV _ _ _ _ _ _ (with_n 0) R12) as R12'.
  destruct (write_head_run (set_logV (with_n 0) w2)) as (w3 & E3 & B3 & W3).
  { apply (ran_power _ _ _ _ _ _ R12'). }
  { unfold lh_n. rewrite (ran_logV _ _ _ _ _ _ R12'). simpl. lia. }
  pose proof (becomes_ran _ _ _ _ _ _ (ran_power _ _ _ _ _ _ R12') B3 W3) as R3.
  pose proof (ran_trans _ _ _ _ _ _ _ _ _ _ _ R12' R3) as R.
  exists w3, (content w2 a). split; [| split; [| split; [| split]]].
  - unfold recover_from_log.
    rewrite (bind_ok _ _ _ _ _ E1), (bind_ok _ _ _ _ _ E2).
    now rewrite bind_modify.
  - assert (logV w2 = with_lh h (logV w)) as L2.
    { now rewrite (ran_logV _ _ _ _ _ _ R12). }
    eapply ran_ext; [exact R | simpl ..].
    + now rewrite L2.
    + done.
    + done.
    + rewrite L2. unfold homes, entries, lh_n, lh_block. rewrite L1.
      simpl. rewrite <- ?app_assoc. reflexivity.
  - rewrite (bc_disk _ _ _ _ _ _ B3).
    replace (head_addr (logV (set_logV (with_n 0) w2))) with a
      by (simpl; now rewrite (ran_logV _ _ _ _ _ _ R12), L1).
    now rewrite lookup_insert_eq.
  - rewrite (bc_content _ _ _ _ _ _ B3).
    replace (head_addr (logV (set_logV (with_n 0) w2))) with a
      by (simpl; now rewrite (ran_logV _ _ _ _ _ _ R12), L1).
    now rewrite decide_True by done.
  - intros Hwf. apply length_content, (ran_wf _ _ _ _ _ _ R12 Hwf).
Qed.
End Shape2.

(** ** Recovery twice, stale header entries, pins and unpins *)

Section RecoveryClaims.
Context `{Params}.



#[local] Instance home_addr_inj l : Inj (=) (=) (home_addr l).
Proof. intros x y [=]. done. Qed.


End RecoveryClaims.

(** ** Copying blocks between disjoint places *)

Section CopyLoop.
Context `{Params}.

Definition wf_disk (d : gmap addr bdata) : Prop :=
  map_Forall (fun _ b => length b = Z.to_nat BSIZE) d.

(** Home blocks apart from each other, from the log slots in use and from
    the header block. *)
Record layout (l : log.t) (hs : list Z) : Prop := {
  lay_nodup : NoDup hs;
  lay_home_slot : ∀ b (j : nat), b ∈ hs → (j < length hs)%nat →
                  home_addr l b ≠ slot_addr l j;
  lay_home_head : ∀ b, b ∈ hs → home_addr l b ≠ head_addr l;
  lay_slot_head : ∀ j : nat, (j < length hs)%nat → slot_addr l j ≠ head_addr l;
  lay_slot_inj : ∀ i j : nat, (i < length hs)%nat → (j < length hs)%nat →
                 slot_addr l i = slot_addr l j → i = j
}.

(** Sources never written, destinations all different. *)
Definition apart (src dst : nat → Z → addr) (es : list Z) : Prop :=
  (∀ i j b b', es !! i = Some b → es !! j = Some b' → src i b ≠ dst j b') ∧
  (∀ i j b b', es !! i = Some b → es !! j = Some b' → dst i b = dst j b' → i = j).

(** The copies made so far, of the first [j] entries. *)
Definition copies (w : world) (src dst : nat → Z → addr) (es : list Z) : list (addr * bdata) :=
  imap (fun i b => (dst i b, content w (src i b))) es.

Record copied (w : world) (src dst : nat → Z → addr) (es : list Z)
    (j : nat) (w1 : world) : Prop := {
  cp_wf : wf_store w1;
  cp_power : power w = None → power w1 = None;
  cp_wakeups : wakeups w1 = wakeups w;
  cp_writes : writes (trace w1) = writes (trace w) ++ take j (copies w src dst es);
  cp_done : ∀ i b, (i < j)%nat → es !! i = Some b →
            disk_read (disk w1) (dst i b) = content w (src i b) ∧
            content w1 (dst i b) = content w (src i b);
  cp_rest : ∀ a, (∀ i b, (i < j)%nat → es !! i = Some b → a ≠ dst i b) →
            disk_read (disk w1) a = disk_read (disk w) a ∧
            content w1 a = content w a
}.

Lemma copied_0 w src dst es : wf_store w → copied w src dst es 0 w.
Proof.
  intros Hwf. split; try done.
  - now rewrite app_nil_r.
  - intros; lia.
Qed.

Lemma copied_step w src dst es j w1 w2 b l d evs :
  apart src dst es →
  copied w src dst es j w1 →
  es !! j = Some b →
  d = Block.memmove (content w1 (dst j b)) (content w1 (src j b)) (Z.to_nat BSIZE) →
  becomes w1 w2 l (<[dst j b := d]> (disk w1))
    (fun a => if decide (a = dst j b) then d else content w1 a) evs →
  writes evs = [(dst j b, d)] →
  (wf_store w1 → wf_store w2) →
  copied w src dst es (S j) w2.
Proof.
  intros [Hsd Hinj] [Hwf Hp Hw Hwr Hdone Hrest] Hb Hd B Hevs W.
  assert (content w1 (src j b) = content w (src j b)) as Hsrc.
  { apply Hrest. intros i b' Hi Hb'. now apply (Hsd j i b b'). }
  assert (d = content w (src j b)) as ->.
  { rewrite Hd, memmove_whole; [done | |]; now apply length_content. }
  destruct B as [Bl Bw Bd Bc Bt Bp].
  split.
  - auto.
  - auto.
  - congruence.
  - rewrite Bt, writes_app, Hwr, Hevs, <- app_assoc. f_equal.
    symmetry. apply take_S_r. unfold copies. rewrite list_lookup_imap, Hb. done.
  - intros i b' Hi Hb'. rewrite Bd, Bc, disk_read_insert.
    destruct (decide (dst i b' = dst j b)) as [Heq | Hne].
    + assert (i = j) as -> by now apply (Hinj i j b' b).
      assert (b' = b) as -> by congruence. done.
    + apply Hdone; [| done].
      destruct (decide (i = j)) as [-> | ?]; [| lia].
      assert (b' = b) as -> by congruence. done.
  - intros a Ha. rewrite Bd, Bc, disk_read_insert.
    rewrite !decide_False by (apply (Ha j b); [lia | done]).
    apply Hrest. intros i b' Hi Hb'. apply Ha; [lia | done].
Qed.

(** The disk a loss of power leaves after [j] copies. *)
Record crashed (w : world) (src dst : nat → Z → addr) (es : list Z)
    (j : nat) (w'' : world) : Prop := {
  cr_wf : wf_disk (disk w'');
  cr_writes : writes (trace w'') = writes (trace w) ++ take j (copies w src dst es);
  cr_done : ∀ i b, (i < j)%nat → es !! i = Some b →
            disk_read (disk w'') (dst i b) = content w (src i b);
  cr_rest : ∀ a, (∀ i b, (i < j)%nat → es !! i = Some b → a ≠ dst i b) →
            disk_read (disk w'') a = disk_read (disk w) a
}.

Lemma copied_crash w src dst es j w1 w'' :
  copied w src dst es j w1 →
  disk w'' = disk w1 → writes (trace w'') = writes (trace w1) →
  crashed w src dst es j w''.
Proof.
  intros [Hwf Hp Hw Hwr Hdone Hrest] Hd Ht.
  split; rewrite ?Hd, ?Ht.
  - apply Hwf.
  - done.
  - intros i b Hi Hb. now apply Hdone.
  - intros a Ha. now apply Hrest.
Qed.

Lemma apart_write_log l es :
  layout l es →
  apart (fun _ b => home_addr l b) (fun i _ => slot_addr l i) es.
Proof.
  intros [Hnd Hhs Hhh Hsh Hsi]. split.
  - intros i j b b' Hi Hj. apply Hhs.
    + apply list_elem_of_lookup. eauto.
    + now apply lookup_lt_Some in Hj.
  - intros i j b b' Hi Hj. apply Hsi.
    + now apply lookup_lt_Some in Hi.
    + now apply lookup_lt_Some in Hj.
Qed.

Lemma apart_install l es :
  layout l es →
  apart (fun i _ => slot_addr l i) (fun _ b => home_addr l b) es.
Proof.
  intros [Hnd Hhs Hhh Hsh Hsi]. split.
  - intros i j b b' Hi Hj Heq. apply (Hhs b' i).
    + apply list_elem_of_lookup. eauto.
    + now apply lookup_lt_Some in Hi.
    + done.
  - intros i j b b' Hi Hj [=]. subst b'. now apply (NoDup_lookup es i j b).
Qed.

(** [write_log] under the layout: what it returns with, and where a loss of
    power can leave the disk. *)
Lemma write_log_spec w Q C :
  wf_store w →
  (Z.to_nat (lh_n w) ≤ length (lh_block w))%nat →
  layout (logV w) (entries w) →
  let src := fun (_ : nat) b => home_addr (logV w) b in
  let dst := fun (i : nat) (_ : Z) => slot_addr (logV w) i in
  (power w ≠ None → ∀ w'' j,
     (j < length (entries w))%nat →
     crashed w src dst (entries w) j w'' → C w'') →
  (∀ w', logV w' = logV w →
         copied w src dst (entries w) (length (entries w)) w' → Q tt w') →
  spec write_log w Q C.
Proof.
  intros Hwf Hlen Hlay src dst HC HQ.
  pose proof (length_entries w Hlen) as Hlen'.
  apply (write_log_rule (fun j w1 => copied w src dst (entries w) j w1)); [done | | |].
  - now apply copied_0.
  - intros j b w1 Hj Hb Hl Hcp. cbv zeta. split.
    + intros Hp w'' Hd Ht.
      apply (HC (fun E => Hp (cp_power _ _ _ _ _ _ Hcp E)) w'' j); [lia |].
      now apply (copied_crash _ _ _ _ _ w1).
    + intros w2 B2 W2.
      eapply (copied_step w src dst (entries w) j w1 w2 b);
        [now apply apart_write_log | exact Hcp | now apply entries_lookup
        | reflexivity | exact B2 | reflexivity | exact W2].
  - intros w' Hl Hcp. apply HQ; [done |]. now rewrite Hlen'.
Qed.

(** [install_trans] under the layout. *)
Lemma install_trans_spec recovering w Q C :
  wf_store w →
  (Z.to_nat (lh_n w) ≤ length (lh_block w))%nat →
  layout (logV w) (entries w) →
  let src := fun (i : nat) (_ : Z) => slot_addr (logV w) i in
  let dst := fun (_ : nat) b => home_addr (logV w) b in
  (power w ≠ None → ∀ w'' j,
     (j < length (entries w))%nat →
     crashed w src dst (entries w) j w'' → C w'') →
  (∀ w', logV w' = logV w →
         copied w src dst (entries w) (length (entries w)) w' → Q tt w') →
  spec (install_trans recovering) w Q C.
Proof.
  intros Hwf Hlen Hlay src dst HC HQ.
  pose proof (length_entries w Hlen) as Hlen'.
  apply (install_trans_rule recovering
           (fun j w1 => copied w src dst (entries w) j w1)); [done | | |].
  - now apply copied_0.
  - intros j b w1 Hj Hb Hl Hcp. cbv zeta. split.
    + intros Hp w'' Hd Ht.
      apply (HC (fun E => Hp (cp_power _ _ _ _ _ _ Hcp E)) w'' j); [lia |].
      now apply (copied_crash _ _ _ _ _ w1).
    + intros w2 B2 W2.
      eapply (copied_step w src dst (entries w) j w1 w2 b);
        [now apply apart_install | exact Hcp | now apply entries_lookup
        | reflexivity | exact B2 | | exact W2].
      unfold install_events. now case_decide.
  - intros w' Hl Hcp. apply HQ; [done |]. now rewrite Hlen'.
Qed.
End CopyLoop.

(** ** [commit] under the layout *)

Section CommitSpec.
Context `{Params}.

(** The writes of [write_log], and of [install_trans] after it. *)
Definition log_copies (w : world) : list (addr * bdata) :=
  copies w (fun _ b => home_addr (logV w) b) (fun i _ => slot_addr (logV w) i)
    (entries w).

Definition home_copies (w : world) : list (addr * bdata) :=
  imap (fun (_ : nat) b => (home_addr (logV w) b, content w (home_addr (logV w) b)))
    (entries w).

(** The header block [commit] writes at the commit point, and the one it
    writes last. *)
Definition commit_head (w : world) : bdata :=
  put_head (content w (head_addr (logV w))) (log.lh (logV w)).

Definition clear_head (w : world) : bdata :=
  put_head (commit_head w) (logheader.mk 0 (lh_block w)).

(** Power lost before the commit point, after [j] log slots were written. *)
Definition before_commit_point (w : world) (j : nat) (w'' : world) : Prop :=
  crashed w (fun _ b => home_addr (logV w) b) (fun i _ => slot_addr (logV w) i)
    (entries w) j w''.

(** Power lost after the commit point, after [j] home blocks were written. *)
Record after_commit_point (w : world) (j : nat) (w'' : world) : Prop := {
  acp_wf : wf_disk (disk w'');
  acp_head : disk_read (disk w'') (head_addr (logV w)) = commit_head w;
  acp_slots : ∀ i b, entries w !! i = Some b →
      disk_read (disk w'') (slot_addr (logV w) i) = content w (home_addr (logV w) b);
  acp_homes : ∀ i b, (i < j)%nat → entries w !! i = Some b →
      disk_read (disk w'') (home_addr (logV w) b) = content w (home_addr (logV w) b);
  acp_rest : ∀ a, a ≠ head_addr (logV w) →
      (∀ i : nat, (i < length (entries w))%nat → a ≠ slot_addr (logV w) i) →
      (∀ i b, (i < j)%nat → entries w !! i = Some b → a ≠ home_addr (logV w) b) →
      disk_read (disk w'') a = disk_read (disk w) a;
  acp_writes : writes (trace w'') =
      writes (trace w) ++ log_copies w ++ [(head_addr (logV w), commit_head w)]
      ++ take j (home_copies w)
}.

(** [commit] has returned. *)
Record finished (w w' : world) : Prop := {
  fin_logV : logV w' = with_n 0 (logV w);
  fin_power : power w = None → power w' = None;
  fin_wf : wf_store w';
  fin_head : disk_read (disk w') (head_addr (logV w)) = clear_head w;
  fin_slots : ∀ i b, entries w !! i = Some b →
      disk_read (disk w') (slot_addr (logV w) i) = content w (home_addr (logV w) b);
  fin_homes : ∀ i b, entries w !! i = Some b →
      disk_read (disk w') (home_addr (logV w) b) = content w (home_addr (logV w) b);
  fin_rest : ∀ a, a ≠ head_addr (logV w) →
      (∀ i : nat, (i < length (entries w))%nat → a ≠ slot_addr (logV w) i) →
      (∀ b, b ∈ entries w → a ≠ home_addr (logV w) b) →
      disk_read (disk w') a = disk_read (disk w) a;
  fin_writes : writes (trace w') =
      writes (trace w) ++ log_copies w ++ [(head_addr (logV w), commit_head w)]
      ++ home_copies w ++ [(head_addr (logV w), clear_head w)]
}.

Lemma commit_spec w Q C :
  wf_store w →
  0 < lh_n w →
  (Z.to_nat (lh_n w) ≤ length (lh_block w))%nat →
  layout (logV w) (entries w) →
  (power w ≠ None → ∀ w'' j, (j ≤ length (entries w))%nat →
     before_commit_point w j w'' → C w'') →
  (power w ≠ None → ∀ w'' j, (j ≤ length (entries w))%nat →
     after_commit_point w j w'' → C w'') →
  (∀ w', finished w w' → Q tt w') →
  spec commit w Q C.
Proof.
  intros Hwf Hn Hlen Hlay HC1 HC2 HQ.
  pose proof (length_entries w Hlen) as Hlen'.
  assert (∀ i : nat, (i < length (entries w))%nat → (head_addr (logV w)) ≠ slot_addr (logV w) i) as Hahs.
  { intros i Hi E. now apply (lay_slot_head _ _ Hlay i). }
  assert (∀ b, b ∈ (entries w) → (head_addr (logV w)) ≠ home_addr (logV w) b) as Hahh.
  { intros b Hb E. now apply (lay_home_head _ _ Hlay b). }
  unfold commit. sp_pure. rewrite decide_True by lia.
  (* write_log *)
  apply spec_bind, write_log_spec; try done.
  { intros Hp w'' j Hj Hcr. apply (HC1 Hp w'' j); [lia | exact Hcr]. }
  intros w1 L1 Cp1. cbv beta.
  pose proof (cp_wf _ _ _ _ _ _ Cp1) as Wf1.
  assert (content w1 (head_addr (logV w)) = content w (head_addr (logV w)) ∧ disk_read (disk w1) (head_addr (logV w)) = disk_read (disk w) (head_addr (logV w)))
    as [Hca1 Hda1].
  { destruct (cp_rest _ _ _ _ _ _ Cp1 (head_addr (logV w))) as [? ?]; [| done].
    intros i b Hi Hb. apply Hahs. exact Hi. }
  (* write_head: the commit point *)
  apply spec_bind, write_head_spec.
  { unfold lh_n, lh_block. now rewrite L1. }
  { intros Hp w'' Hd Ht.
    apply (HC1 (fun E => Hp (cp_power _ _ _ _ _ _ Cp1 E)) w'' (length (entries w))); [lia |].
    now apply (copied_crash _ _ _ _ _ w1). }
  rewrite L1. rewrite Hca1.
  change (put_head (content w (head_addr (logV w))) (log.lh (logV w))) with (commit_head w).
  intros w2 B2 W2. cbv beta.
  pose proof (W2 Wf1) as Wf2.
  pose proof (bc_logV _ _ _ _ _ _ B2) as L2.
  assert (entries w2 = (entries w)) as He2.
  { unfold entries, lh_n, lh_block. now rewrite L2. }
  (* what the disk and the buffers hold at the commit point *)
  assert (∀ i b, (entries w) !! i = Some b →
            disk_read (disk w2) (slot_addr (logV w) i) = content w (home_addr (logV w) b) ∧
            content w2 (slot_addr (logV w) i) = content w (home_addr (logV w) b)) as Hslots2.
  { intros i b Hb. pose proof (lookup_lt_Some _ _ _ Hb) as Hi.
    rewrite (bc_disk _ _ _ _ _ _ B2), (bc_content _ _ _ _ _ _ B2), disk_read_insert.
    rewrite !decide_False by (intros E; now apply (Hahs i)).
    now apply (cp_done _ _ _ _ _ _ Cp1 i b). }
  assert (∀ b, b ∈ (entries w) → content w2 (home_addr (logV w) b) = content w (home_addr (logV w) b) ∧
            disk_read (disk w2) (home_addr (logV w) b) = disk_read (disk w) (home_addr (logV w) b))
    as Hhomes2.
  { intros b Hb.
    rewrite (bc_disk _ _ _ _ _ _ B2), (bc_content _ _ _ _ _ _ B2), disk_read_insert.
    rewrite !decide_False by (intros E; now apply (Hahh b)).
    destruct (cp_rest _ _ _ _ _ _ Cp1 (home_addr (logV w) b)) as [? ?]; [| done].
    intros i b' Hi Hb'. now apply (lay_home_slot _ _ Hlay). }
  assert (writes (trace w2) = writes (trace w) ++ log_copies w ++ [((head_addr (logV w)), commit_head w)])
    as Hwr2.
  { rewrite (bc_trace _ _ _ _ _ _ B2), writes_app, (cp_writes _ _ _ _ _ _ Cp1).
    rewrite take_ge by (unfold copies; now rewrite length_imap).
    simpl. now rewrite <- app_assoc. }
  assert (copies w2 (fun i _ => slot_addr (logV w2) i)
            (fun _ b => home_addr (logV w2) b) (entries w2) = home_copies w) as Hcopies.
  { unfold copies, home_copies. rewrite He2, L2.
    apply list_eq. intros i. rewrite !list_lookup_imap.
    destruct ((entries w) !! i) as [b |] eqn:Hb; [| done]. simpl.
    now rewrite (proj2 (Hslots2 i b Hb)). }
  assert (∀ w'' j, crashed w2 (fun i _ => slot_addr (logV w2) i)
            (fun _ b => home_addr (logV w2) b) (entries w2) j w'' →
            after_commit_point w j w'') as Hacp.
  { intros w'' j [Cwf Cwr Cdone Crest]. rewrite He2, L2, Hcopies in *.
    split.
    - exact Cwf.
    - rewrite Crest by (intros i b Hi Hb; apply Hahh, list_elem_of_lookup; eauto).
      rewrite (bc_disk _ _ _ _ _ _ B2), disk_read_insert. now rewrite decide_True.
    - intros i b Hb. rewrite Crest.
      + now apply Hslots2.
      + intros i' b' Hi' Hb' E. apply (lay_home_slot _ _ Hlay b' i); [| | done].
        * apply list_elem_of_lookup. eauto.
        * now apply lookup_lt_Some in Hb.
    - intros i b Hi Hb. rewrite (Cdone i b Hi Hb). now apply Hslots2.
    - intros x Hxa Hxs Hxh. rewrite (Crest x Hxh).
      rewrite (bc_disk _ _ _ _ _ _ B2), disk_read_insert, decide_False by done.
      apply (cp_rest _ _ _ _ _ _ Cp1). intros i b Hi Hb. now apply Hxs.
    - rewrite Cwr, Hwr2, <- !app_assoc. done. }
  (* install_trans *)
  apply spec_bind, install_trans_spec; try done.
  { unfold lh_n, lh_block. now rewrite L2. }
  { now rewrite He2, L2. }
  { intros Hp w'' j Hj Hcr. rewrite He2 in Hj.
    apply (HC2 (fun E => Hp (bc_power _ _ _ _ _ _ B2 (cp_power _ _ _ _ _ _ Cp1 E))) w'' j);
      [lia | now apply Hacp]. }
  intros w3 L3 Cp3. cbv beta.
  pose proof (cp_wf _ _ _ _ _ _ Cp3) as Wf3.
  (* lh.n = 0 and the second write_head *)
  apply spec_bind, spec_modify. cbv beta.
  set (w3' := set_logV (with_n 0) w3).
  assert (logV w3' = with_n 0 (logV w)) as L3'.
  { unfold w3'. simpl. now rewrite L3, L2. }
  assert (content w3 (head_addr (logV w)) = commit_head w ∧ disk_read (disk w3) (head_addr (logV w)) = commit_head w)
    as [Hca3 Hda3].
  { destruct (cp_rest _ _ _ _ _ _ Cp3 (head_addr (logV w))) as [Hd Hc].
    - rewrite He2, L2. intros i b Hi Hb. apply Hahh, list_elem_of_lookup. eauto.
    - rewrite Hd, Hc, (bc_disk _ _ _ _ _ _ B2), (bc_content _ _ _ _ _ _ B2).
      rewrite disk_read_insert. now rewrite !decide_True. }
  apply write_head_spec.
  { unfold lh_n. rewrite L3'. simpl. lia. }
  { intros Hp w'' Hd Ht.
    apply (HC2 (fun E => Hp (cp_power _ _ _ _ _ _ Cp3
              (bc_power _ _ _ _ _ _ B2 (cp_power _ _ _ _ _ _ Cp1 E)))) w'' (length (entries w)));
      [lia |].
    apply Hacp.
    replace (length (entries w)) with (length (entries w2)) by now rewrite He2.
    now apply (copied_crash _ _ _ _ _ w3). }
  rewrite L3'.
  change (head_addr (with_n 0 (logV w))) with (head_addr (logV w)).
  change (content w3' (head_addr (logV w))) with (content w3 (head_addr (logV w))). rewrite Hca3.
  change (put_head (commit_head w) (log.lh (with_n 0 (logV w)))) with (clear_head w).
  intros w4 B4 W4. apply HQ.
  assert (length (entries w2) = length (entries w)) as Hl2 by now rewrite He2.
  split.
  - apply (bc_logV _ _ _ _ _ _ B4).
  - intros E. apply (bc_power _ _ _ _ _ _ B4). simpl.
    now apply (cp_power _ _ _ _ _ _ Cp3), (bc_power _ _ _ _ _ _ B2),
      (cp_power _ _ _ _ _ _ Cp1).
  - now apply W4.
  - rewrite (bc_disk _ _ _ _ _ _ B4), disk_read_insert. now rewrite decide_True.
  - intros i b Hb. pose proof (lookup_lt_Some _ _ _ Hb) as Hi.
    rewrite (bc_disk _ _ _ _ _ _ B4), disk_read_insert.
    rewrite decide_False by (intros E; now apply (Hahs i)).
    change (disk w3') with (disk w3).
    destruct (cp_rest _ _ _ _ _ _ Cp3 (slot_addr (logV w) i)) as [-> _].
    + rewrite He2, L2. intros i' b' Hi' Hb' E.
      apply (lay_home_slot _ _ Hlay b' i); [| done | done].
      apply list_elem_of_lookup. eauto.
    + now apply Hslots2.
  - intros i b Hb.
    rewrite (bc_disk _ _ _ _ _ _ B4), disk_read_insert.
    rewrite decide_False
      by (intros E; apply (Hahh b); [apply list_elem_of_lookup; eauto | done]).
    change (disk w3') with (disk w3).
    pose proof (lookup_lt_Some _ _ _ Hb) as Hi.
    destruct (cp_done _ _ _ _ _ _ Cp3 i b) as [Hd _].
    { rewrite Hl2. exact Hi. }
    { now rewrite He2. }
    rewrite L2 in Hd. rewrite Hd. now apply Hslots2.
  - intros x Hxa Hxs Hxh.
    rewrite (bc_disk _ _ _ _ _ _ B4), disk_read_insert, decide_False by done.
    change (disk w3') with (disk w3).
    destruct (cp_rest _ _ _ _ _ _ Cp3 x) as [-> _].
    + rewrite He2, L2. intros i b Hi Hb. apply Hxh, list_elem_of_lookup. eauto.
    + rewrite (bc_disk _ _ _ _ _ _ B2), disk_read_insert, decide_False by done.
      apply (cp_rest _ _ _ _ _ _ Cp1). intros i b Hi Hb. now apply Hxs.
  - rewrite (bc_trace _ _ _ _ _ _ B4), writes_app.
    change (trace w3') with (trace w3).
    rewrite (cp_writes _ _ _ _ _ _ Cp3), Hcopies, Hwr2.
    rewrite take_ge by (unfold home_copies; rewrite length_imap; lia).
    simpl. now rewrite <- !app_assoc.
Qed.
End CommitSpec.

(** ** The log region *)

Section Region.
Context `{Params}.

(** Block number [b] lies in the log region [start .. start + size). *)
Definition in_log_region (l : log.t) (b : Z) : Prop :=
  log.start l <= b < log.start l + log.size l.

(** The log region is made of valid block numbers, and holds [n] entries
    besides its header. *)
Definition region_ok (l : log.t) (n : Z) : Prop :=
  0 <= log.start l ∧ log.start l + log.size l <= Int.max_int + 1 ∧
  n < log.size l.

Lemma slot_addr_exact l n (j : nat) :
  region_ok l n → Z.of_nat j < n →
  slot_addr l j = (log.dev l, log.start l + Z.of_nat j + 1).
Proof.
  intros (Hs & Hm & Hn) Hj. unfold slot_addr.
  rewrite (wrap_id (log.start l + Z.of_nat j))
    by (unfold Int.in_range, Int.min_int, Int.max_int in *; lia).
  rewrite wrap_id by (unfold Int.in_range, Int.min_int, Int.max_int in *; lia).
  done.
Qed.

Lemma layout_region l hs :
  region_ok l (Z.of_nat (length hs)) →
  NoDup hs →
  Forall (fun b => ¬ in_log_region l b) hs →
  layout l hs.
Proof.
  intros Hreg Hnd Hout. rewrite Forall_forall in Hout.
  pose proof Hreg as (Hs & Hm & Hn).
  split.
  - exact Hnd.
  - intros b j Hb Hj. rewrite (slot_addr_exact l _ j Hreg) by lia.
    intros [= E]. apply (Hout b Hb). unfold in_log_region. lia.
  - intros b Hb [= E]. apply (Hout b Hb). unfold in_log_region. lia.
  - intros j Hj. rewrite (slot_addr_exact l _ j Hreg) by lia.
    intros [= E]. lia.
  - intros i j Hi Hj.
    rewrite (slot_addr_exact l _ i Hreg), (slot_addr_exact l _ j Hreg) by lia.
    intros [= E]. lia.
Qed.

Lemma layout_ext l l' hs :
  log.dev l' = log.dev l → log.start l' = log.start l →
  layout l hs → layout l' hs.
Proof.
  intros Hd Hs [Hnd Hhs Hhh Hsh Hsi].
  assert (∀ b, home_addr l' b = home_addr l b) as Eh
    by (intros; unfold home_addr; now rewrite Hd).
  assert (∀ i, slot_addr l' i = slot_addr l i) as Es
    by (intros; unfold slot_addr; now rewrite Hd, Hs).
  assert (head_addr l' = head_addr l) as Ea
    by (unfold head_addr; now rewrite Hd, Hs).
  split; intros *; rewrite ?Eh, ?Es, ?Ea; auto.
Qed.

Lemma region_start_range l n :
  region_ok l n → 0 <= n → Int.in_range (log.start l).
Proof.
  intros (Hs & Hm & Hn) H0.
  unfold Int.in_range, Int.min_int, Int.max_int in *. lia.
Qed.

(** C4.  When [commit] runs with [lh.n > 0] its disk writes are, in this
    order: for each [i] in [0..lh.n), log slot [start + i + 1] with the
    cached contents of home block [lh.block[i]]; the header block with
    [n = lh.n], the commit point; each home block [lh.block[i]] with the
    contents of its log slot; the header block again, with [n = 0], and
    [lh.n] is 0 when it returns.  So every log-data write precedes the
    commit-point header write, which precedes every installation write,
    which precede the header-clear write. *)
Theorem commit_sequence w :
  power w = None →
  wf_store w →
  4 <= BSIZE →
  0 < lh_n w →
  (Z.to_nat (lh_n w) ≤ length (lh_block w))%nat →
  region_ok (logV w) (lh_n w) →
  NoDup (entries w) →
  Forall (fun b => ¬ in_log_region (logV w) b) (entries w) →
  let dev := log.dev (logV w) in
  let start := log.start (logV w) in
  ∃ w', commit w = Ok tt w' ∧
        lh_n w' = 0 ∧
        writes (trace w') =
          writes (trace w)
          ++ imap (fun i b => ((dev, start + Z.of_nat i + 1), content w (dev, b)))
               (entries w)
          ++ [((dev, start), commit_head w)]
          ++ imap (fun _ b => ((dev, b), content w (dev, b))) (entries w)
          ++ [((dev, start), clear_head w)] ∧
        Block.get_int (commit_head w) logheader.off_n = lh_n w ∧
        Block.get_int (clear_head w) logheader.off_n = 0.
Proof.
  intros Hp Hwf HB Hn Hlen Hreg Hnd Hout dev start.
  pose proof (length_entries w Hlen) as Hlen'.
  assert (layout (logV w) (entries w)) as Hlay.
  { apply layout_region; [| done | done]. rewrite Hlen'.
    now replace (Z.of_nat (Z.to_nat (lh_n w))) with (lh_n w) by lia. }
  destruct (spec_returns commit w (fun _ w' => finished w w')) as ([] & w' & E & F).
  { apply commit_spec; try done; intros Hp'; congruence. }
  exists w'. split; [done |].
  assert (length (content w (head_addr (logV w))) = Z.to_nat BSIZE) as Hlc
    by now apply length_content.
  split; [| split; [| split]].
  - unfold lh_n. now rewrite (fin_logV _ _ F).
  - rewrite (fin_writes _ _ F). do 2 f_equal.
    apply list_eq. intros i. unfold log_copies, copies.
    rewrite !list_lookup_imap.
    destruct (entries w !! i) as [b |] eqn:Hb; [| done]. simpl.
    pose proof (lookup_lt_Some _ _ _ Hb) as Hi.
    rewrite (slot_addr_exact _ _ i Hreg) by lia. done.
  - unfold commit_head. rewrite put_head_n by lia. apply wrap_id.
    destruct Hreg as (? & ? & ?).
    unfold Int.in_range, Int.min_int, Int.max_int in *. lia.
  - unfold clear_head. rewrite put_head_n.
    + done.
    + unfold commit_head. rewrite length_put_head. lia.
Qed.
End Region.

(** ** Recovery run twice *)

Section RecoveryTwice.
Context `{Params}.

End RecoveryTwice.

(** ** Recovery at boot *)

Section Boot.
Context `{Params}.

Lemma content_boot d p x : content (set_power p (boot d)) x = disk_read d x.
Proof. unfold content. simpl. now rewrite lookup_empty. Qed.

Lemma wf_store_boot d p : wf_disk d → wf_store (set_power p (boot d)).
Proof. intros Hd. split; simpl; [exact Hd | apply map_Forall_empty]. Qed.

(** [logV] once [initlog] has filled it in, from a superblock whose
    [logstart] and [nlog] fit an [int]. *)
Definition log_at (dev : Z) (sb : superblock) : log.t :=
  log.mk (logstart sb) (nlog sb) 0 0 dev (log.lh log_zero).

(** The disk holds a header with [length hs] entries, the block numbers
    [hs]. *)
Record header_holds (dev : Z) (sb : superblock) (d : gmap addr bdata)
    (hs : list Z) : Prop := {
  hh_count : Block.get_int (disk_read d (head_addr (log_at dev sb))) logheader.off_n
             <= LOGSIZE;
  hh_length : length hs
              = Z.to_nat (Block.get_int (disk_read d (head_addr (log_at dev sb)))
                            logheader.off_n);
  hh_entries : ∀ i b, hs !! i = Some b →
      Block.get_int (disk_read d (head_addr (log_at dev sb))) (logheader.off_block i) = b
}.

(** What [initlog] has done to the disk when it returns. *)
Record recovered (dev : Z) (sb : superblock) (d : gmap addr bdata)
    (hs : list Z) (w' : world) : Prop := {
  rec_wf : wf_disk (disk w');
  rec_head : Block.get_int (disk_read (disk w') (head_addr (log_at dev sb)))
               logheader.off_n = 0;
  rec_homes : ∀ i b, hs !! i = Some b →
      disk_read (disk w') (home_addr (log_at dev sb) b)
      = disk_read d (slot_addr (log_at dev sb) i);
  rec_rest : ∀ x, x ≠ head_addr (log_at dev sb) →
      (∀ b, b ∈ hs → x ≠ home_addr (log_at dev sb) b) →
      disk_read (disk w') x = disk_read d x
}.

(** Where a loss of power during [initlog] can leave the disk. *)
Record interrupted (dev : Z) (sb : superblock) (d : gmap addr bdata)
    (hs : list Z) (w'' : world) : Prop := {
  int_wf : wf_disk (disk w'');
  int_rest : ∀ x, (∀ b, b ∈ hs → x ≠ home_addr (log_at dev sb) b) →
      disk_read (disk w'') x = disk_read d x
}.

Lemma initlog_spec dev sb d p hs Q C :
  logheader.sizeof < BSIZE → 0 <= LOGSIZE →
  Int.in_range (logstart sb) →
  wf_disk d →
  header_holds dev sb d hs →
  layout (log_at dev sb) hs →
  (p ≠ None → ∀ w'', interrupted dev sb d hs w'' → C w'') →
  (∀ w', recovered dev sb d hs w' → Q tt w') →
  spec (initlog dev sb) (set_power p (boot d)) Q C.
Proof.
  intros Hfit HL Hstart Hwfd [Hcount Hlength Hentries] Hlay0 HC HQ.
  (* [logV] as [initlog] fills it in: [log_at], but for [size] *)
  set (l := log.mk (logstart sb) (Int.wrap (nlog sb)) 0 0 dev (log.lh log_zero)).
  assert (layout l hs) as Hlay by (apply (layout_ext (log_at dev sb)); done).
  change (head_addr (log_at dev sb)) with (head_addr l) in *. clear Hlay0.
  set (a := head_addr l) in *.
  set (hb := disk_read d a) in *.
  set (w0 := set_power p (boot d)).
  unfold initlog. apply spec_bind. rewrite decide_False by lia.
  apply spec_ret. apply spec_bind. unfold initlock.
  apply spec_emit. intros w1 B1 W1. apply spec_bind, spec_modify. cbv beta.
  match goal with |- spec _ ?w _ _ => set (wa := w) end.
  assert (logV wa = l) as La.
  { unfold wa. simpl. rewrite (bc_logV _ _ _ _ _ _ B1). simpl.
    now rewrite (wrap_id _ Hstart). }
  assert (∀ x, content wa x = disk_read d x) as Hca.
  { intros x. change (content wa x) with (content w1 x).
    rewrite (bc_content _ _ _ _ _ _ B1). apply content_boot. }
  assert (disk wa = d) as Hda by apply (bc_disk _ _ _ _ _ _ B1).
  assert (wf_store wa) as Wfa.
  { destruct (W1 (wf_store_boot d p Hwfd)) as [? ?]. split; done. }
  assert (power wa ≠ None → p ≠ None) as Hpa.
  { intros Hne E. apply Hne. now apply (bc_power _ _ _ _ _ _ B1). }
  assert (lh_block wa = replicate (Z.to_nat LOGSIZE) 0) as Hblk.
  { unfold lh_block. now rewrite La. }
  unfold recover_from_log.
  (* read_head *)
  apply spec_bind, read_head_spec.
  { rewrite La, Hca, Hblk, length_replicate. fold a hb. lia. }
  { intros Hp w'' Hd Ht. apply (HC (Hpa Hp)). split.
    - now rewrite Hd, Hda.
    - intros x _. now rewrite Hd, Hda. }
  rewrite La, Hca. fold a hb.
  intros wb Bb Wb. cbv beta.
  pose proof (bc_logV _ _ _ _ _ _ Bb) as Lb.
  assert (entries wb = hs) as Heb.
  { unfold entries, lh_n, lh_block. rewrite Lb. simpl.
    apply list_eq. intros i.
    destruct (decide (i < Z.to_nat (Block.get_int hb logheader.off_n))%nat) as [Hi | Hi].
    - rewrite lookup_take_lt by done.
      rewrite lookup_get_entries_in; [| lia | rewrite Hblk, length_replicate; lia].
      destruct (lookup_lt_is_Some_2 hs i) as [b Hb]; [lia |].
      now rewrite Hb, (Hentries i b Hb).
    - rewrite lookup_take_ge by lia. symmetry. apply lookup_ge_None. lia. }
  assert (log.dev (logV wb) = log.dev l ∧ log.start (logV wb) = log.start l)
    as [Hdevb Hstartb] by now rewrite Lb.
  assert (∀ b, home_addr (logV wb) b = home_addr l b) as Ehb
    by (intros; unfold home_addr; now rewrite Hdevb).
  assert (∀ i, slot_addr (logV wb) i = slot_addr l i) as Esb
    by (intros; unfold slot_addr; now rewrite Hdevb, Hstartb).
  assert (head_addr (logV wb) = a) as Eab
    by (unfold a, head_addr; now rewrite Hdevb, Hstartb).
  assert (∀ x, content wb x = disk_read d x) as Hcb.
  { intros x. now rewrite (bc_content _ _ _ _ _ _ Bb). }
  assert (disk wb = d) as Hdb by now rewrite (bc_disk _ _ _ _ _ _ Bb).
  assert (power wb ≠ None → p ≠ None) as Hpb.
  { intros Hne. apply Hpa. intros E. now apply Hne, (bc_power _ _ _ _ _ _ Bb). }
  assert (∀ j w'', crashed wb (fun i _ => slot_addr (logV wb) i)
            (fun _ b => home_addr (logV wb) b) (entries wb) j w'' →
          interrupted dev sb d hs w'') as Hint.
  { intros j w'' [Cwf Cwr Cdone Crest]. rewrite Heb in *. split; [done |].
    intros x Hx. rewrite Crest, Hdb; [done |].
    intros i b Hi Hb. rewrite Ehb. apply Hx, list_elem_of_lookup. eauto. }
  (* install_trans *)
  apply spec_bind, install_trans_spec.
  { now apply Wb. }
  { replace (lh_n wb) with (Block.get_int hb logheader.off_n)
      by (unfold lh_n; now rewrite Lb).
    replace (lh_block wb)
      with (get_entries hb 0 (Z.to_nat (Block.get_int hb logheader.off_n)) (lh_block wa))
      by (unfold lh_block at 2; now rewrite Lb).
    rewrite length_get_entries, Hblk, length_replicate. lia. }
  { rewrite Heb. apply (layout_ext l); done. }
  { intros Hp w'' j Hj Hcr. apply (HC (Hpb Hp)). now apply (Hint j). }
  intros wc Lc Cpc. cbv beta.
  apply spec_bind, spec_modify. cbv beta.
  set (wc' := set_logV (with_n 0) wc).
  (* write_head *)
  apply write_head_spec.
  { unfold wc', lh_n. simpl. lia. }
  { intros Hp w'' Hd Ht. apply HC.
    - apply Hpb. intros E. now apply Hp, (cp_power _ _ _ _ _ _ Cpc).
    - apply (Hint (length (entries wb))). now apply (copied_crash _ _ _ _ _ wc). }
  replace (head_addr (logV wc')) with a
    by (unfold wc'; simpl; now rewrite Lc, Lb).
  intros wd Bd Wd. apply HQ.
  pose proof (Wd (cp_wf _ _ _ _ _ _ Cpc)) as Wfd.
  assert (∀ b, b ∈ hs → home_addr l b ≠ a) as Hha
    by (intros b Hb; now apply (lay_home_head _ _ Hlay)).
  split; fold l a.
  - apply Wfd.
  - rewrite (bc_disk _ _ _ _ _ _ Bd), disk_read_insert, decide_True by done.
    rewrite put_head_n; [done |].
    rewrite (length_content wc') by apply (cp_wf _ _ _ _ _ _ Cpc).
    unfold logheader.sizeof in Hfit. lia.
  - intros i b Hb.
    rewrite (bc_disk _ _ _ _ _ _ Bd), disk_read_insert.
    rewrite decide_False by (apply Hha, list_elem_of_lookup; eauto).
    change (disk wc') with (disk wc).
    destruct (cp_done _ _ _ _ _ _ Cpc i b) as [Hd _].
    { rewrite Heb. now apply lookup_lt_Some in Hb. }
    { now rewrite Heb. }
    change (home_addr (log_at dev sb) b) with (home_addr l b).
    change (slot_addr (log_at dev sb) i) with (slot_addr l i).
    rewrite Ehb, Esb in Hd. now rewrite Hd, Hcb.
  - intros x Hxa Hxh.
    rewrite (bc_disk _ _ _ _ _ _ Bd), disk_read_insert, decide_False by done.
    change (disk wc') with (disk wc).
    destruct (cp_rest _ _ _ _ _ _ Cpc x) as [Hd _].
    + rewrite Heb. intros i b Hi Hb. rewrite Ehb. apply Hxh, list_elem_of_lookup. eauto.
    + now rewrite Hd, Hdb.
Qed.

Lemma initlog_returns dev sb d hs :
  logheader.sizeof < BSIZE → 0 <= LOGSIZE →
  Int.in_range (logstart sb) →
  wf_disk d →
  header_holds dev sb d hs →
  layout (log_at dev sb) hs →
  ∃ w', initlog dev sb (boot d) = Ok tt w' ∧ recovered dev sb d hs w'.
Proof.
  intros Hfit HL Hstart Hwfd Hh Hlay.
  destruct (spec_returns (initlog dev sb) (boot d)
              (fun _ w' => recovered dev sb d hs w')) as ([] & w' & E & R).
  - apply (initlog_spec dev sb d None hs); done.
  - eauto.
Qed.
End Boot.

(** ** Crash safety *)

Section CrashSafety.
Context `{Params}.

(** A transaction about to commit: the invariants of the log state, logged
    block numbers that are valid, distinct and outside the log region, and an
    on-disk header that says "no transaction". *)
Record txn_ready (w : world) : Prop := {
  tr_wf : wf_store w;
  tr_fit : logheader.sizeof < BSIZE;
  tr_array : length (lh_block w) = Z.to_nat LOGSIZE;
  tr_n : 0 < lh_n w <= LOGSIZE;
  tr_region : region_ok (logV w) (lh_n w);
  tr_nodup : NoDup (entries w);
  tr_valid : Forall (fun b => Int.in_range b ∧ ¬ in_log_region (logV w) b) (entries w);
  tr_clean : Block.get_int (disk_read (disk w) (head_addr (logV w))) logheader.off_n = 0
}.

(** A disk whose log holds a committed transaction of the blocks [hs], or
    none when [hs] is empty. *)
Record log_committed (dev : Z) (sb : superblock) (d : gmap addr bdata)
    (hs : list Z) : Prop := {
  lc_wf : wf_disk d;
  lc_header : header_holds dev sb d hs;
  lc_region : region_ok (log_at dev sb) (Z.of_nat (length hs));
  lc_nodup : NoDup hs;
  lc_valid : Forall (fun b => ¬ in_log_region (log_at dev sb) b) hs
}.

(** The superblock [logV] was filled from. *)
Definition sb_of (l : log.t) : superblock :=
  {| logstart := log.start l; nlog := log.size l |}.

(** The home blocks after recovery, by where [commit] stopped: before the
    header write of the commit point, with only log slots written, they are
    all as before the transaction; with that header write made, they all
    hold the committed contents. *)
Definition all_or_nothing (w w1 w2 : world) : Prop :=
  (∃ j, writes (trace w1) = writes (trace w) ++ take j (log_copies w) ∧
        ∀ b, b ∈ entries w →
          disk_read (disk w2) (home_addr (logV w) b)
          = disk_read (disk w) (home_addr (logV w) b)) ∨
  (∃ rest, writes (trace w1) =
             writes (trace w) ++ log_copies w
             ++ (head_addr (logV w), commit_head w) :: rest ∧
           ∀ b, b ∈ entries w →
             disk_read (disk w2) (home_addr (logV w) b)
             = content w (home_addr (logV w) b)).

Lemma header_holds_nil dev sb d :
  0 <= LOGSIZE →
  Block.get_int (disk_read d (head_addr (log_at dev sb))) logheader.off_n = 0 →
  header_holds dev sb d [].
Proof. intros HL Hn. split; rewrite ?Hn; try done. Qed.

Lemma layout_nil l : layout l [].
Proof.
  split.
  - apply NoDup_nil_2.
  - intros b j Hb. now apply not_elem_of_nil in Hb.
  - intros b Hb. now apply not_elem_of_nil in Hb.
  - intros j Hj. simpl in Hj. lia.
  - intros i j Hi. simpl in Hi. lia.
Qed.

Lemma commit_head_holds w :
  txn_ready w →
  header_holds (log.dev (logV w)) (sb_of (logV w))
    (<[head_addr (logV w) := commit_head w]> (disk w)) (entries w).
Proof.
  intros [Hwf Hfit Harr Hn Hreg Hnd Hval Hclean].
  assert (Z.to_nat (lh_n w) ≤ length (lh_block w))%nat as Hlen by lia.
  pose proof (length_entries w Hlen) as Hlen'.
  assert (length (content w (head_addr (logV w))) = Z.to_nat BSIZE) as Hlc
    by now apply length_content.
  assert (Int.in_range (lh_n w)) as Hnr.
  { destruct Hreg as (? & ? & ?).
    unfold Int.in_range, Int.min_int, Int.max_int in *. lia. }
  change (head_addr (log_at (log.dev (logV w)) (sb_of (logV w))))
    with (head_addr (logV w)).
  unfold logheader.sizeof in Hfit.
  split; change (head_addr (log_at (log.dev (logV w)) (sb_of (logV w))))
           with (head_addr (logV w));
    rewrite disk_read_insert, decide_True by done.
  - unfold commit_head. rewrite put_head_n by lia. fold (lh_n w).
    rewrite wrap_id; [lia | done].
  - unfold commit_head. rewrite put_head_n by lia. fold (lh_n w).
    rewrite wrap_id; [lia | done].
  - intros i b Hb. pose proof (lookup_lt_Some _ _ _ Hb) as Hi.
    unfold commit_head. rewrite put_head_block.
    + unfold entries in Hb. apply lookup_take_Some in Hb as [Hb _].
      fold (lh_block w). rewrite Hb. simpl. apply wrap_id.
      rewrite Forall_forall in Hval. apply Hval.
      apply list_elem_of_lookup. exists i. apply entries_lookup; [lia | done].
    + fold (lh_n w). lia.
    + fold (lh_n w). rewrite Hlc. unfold logheader.off_block. lia.
Qed.

Lemma header_holds_ext dev sb d d' hs :
  disk_read d' (head_addr (log_at dev sb)) = disk_read d (head_addr (log_at dev sb)) →
  header_holds dev sb d hs → header_holds dev sb d' hs.
Proof. intros E [? ? ?]. split; now rewrite E. Qed.

Lemma txn_layout w : txn_ready w → layout (logV w) (entries w).
Proof.
  intros [Hwf Hfit Harr Hn Hreg Hnd Hval Hclean].
  apply layout_region; [| done |].
  - rewrite length_entries by lia.
    now replace (Z.of_nat (Z.to_nat (lh_n w))) with (lh_n w) by lia.
  - eapply Forall_impl; [exact Hval |]. now intros b [_ ?].
Qed.

(** Booting on a disk whose header says "no transaction". *)
Lemma recover_absent w d :
  txn_ready w → wf_disk d →
  Block.get_int (disk_read d (head_addr (logV w))) logheader.off_n = 0 →
  ∃ w2, initlog (log.dev (logV w)) (sb_of (logV w)) (boot d) = Ok tt w2 ∧
        ∀ x, x ≠ head_addr (logV w) → disk_read (disk w2) x = disk_read d x.
Proof.
  intros Htr Hwfd Hz.
  destruct (initlog_returns (log.dev (logV w)) (sb_of (logV w)) d [])
    as (w2 & E & R).
  - apply (tr_fit _ Htr).
  - pose proof (tr_n _ Htr). lia.
  - apply (region_start_range _ _ (tr_region _ Htr)). pose proof (tr_n _ Htr). lia.
  - done.
  - apply header_holds_nil; [pose proof (tr_n _ Htr); lia | exact Hz].
  - apply layout_nil.
  - exists w2. split; [done |]. intros x Hx.
    apply (rec_rest _ _ _ _ _ R); [exact Hx |].
    intros b Hb. now apply not_elem_of_nil in Hb.
Qed.

(** Booting on a disk that holds the header of the commit point. *)
Lemma recover_present w d :
  txn_ready w → wf_disk d →
  disk_read d (head_addr (logV w)) = commit_head w →
  ∃ w2, initlog (log.dev (logV w)) (sb_of (logV w)) (boot d) = Ok tt w2 ∧
        ∀ i b, entries w !! i = Some b →
          disk_read (disk w2) (home_addr (logV w) b)
          = disk_read d (slot_addr (logV w) i).
Proof.
  intros Htr Hwfd Hh.
  destruct (initlog_returns (log.dev (logV w)) (sb_of (logV w)) d (entries w))
    as (w2 & E & R).
  - apply (tr_fit _ Htr).
  - pose proof (tr_n _ Htr). lia.
  - apply (region_start_range _ _ (tr_region _ Htr)). pose proof (tr_n _ Htr). lia.
  - done.
  - eapply header_holds_ext; [| apply (commit_head_holds w Htr)].
    change (head_addr (log_at (log.dev (logV w)) (sb_of (logV w))))
      with (head_addr (logV w)).
    rewrite Hh, disk_read_insert. now rewrite decide_True.
  - apply (layout_ext (logV w)); [done | done | now apply txn_layout].
  - exists w2. split; [done |]. intros i b Hb.
    apply (rec_homes _ _ _ _ _ R i b Hb).
Qed.

Lemma length_log_copies w : length (log_copies w) = length (entries w).
Proof. unfold log_copies, copies. apply length_imap. Qed.

(** C1.  A crash at any I/O point of [commit], or of recovery, followed by
    [initlog], leaves every home block of the transaction with either its
    contents from before the transaction or its committed contents, never a
    mix.  If power is lost before the header write of the commit point, all
    are as before; if after it, all are installed.  And from a disk whose
    log holds a committed transaction, a recovery interrupted at any I/O
    point and run again installs every logged block from its log slot. *)
Theorem crash_atomicity w p dev sb d hs p2 :
  txn_ready w →
  logheader.sizeof < BSIZE → 0 <= LOGSIZE →
  log_committed dev sb d hs →
  (∃ w1, (commit (set_power p w) = Ok tt w1 ∨
          commit (set_power p w) = Halt PowerLoss w1) ∧
     ∃ w2, initlog (log.dev (logV w)) (sb_of (logV w)) (boot (disk w1)) = Ok tt w2 ∧
           all_or_nothing w w1 w2) ∧
  (∃ w1, (initlog dev sb (set_power p2 (boot d)) = Ok tt w1 ∨
          initlog dev sb (set_power p2 (boot d)) = Halt PowerLoss w1) ∧
     ∃ w2, initlog dev sb (boot (disk w1)) = Ok tt w2 ∧
           ∀ i b, hs !! i = Some b →
             disk_read (disk w2) (home_addr (log_at dev sb) b)
             = disk_read d (slot_addr (log_at dev sb) i)).
Proof.
  intros Htr Hfit HL [Hwfd Hhold Hreg Hnd Hval].
  split.
  - (* a crash in commit *)
    pose proof (txn_layout w Htr) as Hlay.
    pose proof (tr_n _ Htr) as Hn. pose proof (tr_array _ Htr) as Harr.
    assert (Z.to_nat (lh_n w) ≤ length (lh_block w))%nat as Hlen by lia.
    pose (R := fun w1 => ∃ w2,
      initlog (log.dev (logV w)) (sb_of (logV w)) (boot (disk w1)) = Ok tt w2 ∧
      all_or_nothing w w1 w2).
    assert (spec commit (set_power p w) (fun _ w1 => R w1) R) as Hspec.
    { apply commit_spec.
      - apply (tr_wf _ Htr).
      - change (lh_n (set_power p w)) with (lh_n w). lia.
      - exact Hlen.
      - exact Hlay.
      - (* before the commit point *)
        intros _ w'' j Hj [Cwf Cwr Cdone Crest].
        destruct (recover_absent w (disk w'') Htr Cwf) as (w2 & E & Hrest).
        { rewrite Crest; [apply (tr_clean _ Htr) |].
          intros i b Hi Hb. apply not_eq_sym, (lay_slot_head _ _ Hlay).
          now apply lookup_lt_Some in Hb. }
        exists w2. split; [done |]. left. exists j. split; [exact Cwr |].
        intros b Hb. rewrite Hrest by now apply (lay_home_head _ _ Hlay).
        apply Crest. intros i b' Hi Hb'. apply (lay_home_slot _ _ Hlay); [done |].
        now apply lookup_lt_Some in Hb'.
      - (* after the commit point *)
        intros _ w'' j Hj [Awf Ahead Aslots Ahomes Arest Awr].
        destruct (recover_present w (disk w'') Htr Awf Ahead) as (w2 & E & Hhomes).
        exists w2. split; [done |]. right. eexists. split; [exact Awr |].
        intros b (i & Hi)%list_elem_of_lookup_1.
        rewrite (Hhomes i b Hi). now apply Aslots.
      - (* commit has returned *)
        intros w' [Fl Fp Fwf Fhead Fslots Fhomes Frest Fwr].
        destruct (recover_absent w (disk w') Htr (proj1 Fwf)) as (w2 & E & Hrest).
        { change (head_addr (logV (set_power p w))) with (head_addr (logV w)) in Fhead.
          rewrite Fhead. unfold clear_head. rewrite put_head_n; [done |].
          unfold commit_head. rewrite length_put_head.
          rewrite (length_content (set_power p w)) by apply (tr_wf _ Htr).
          pose proof (tr_fit _ Htr) as Hf. unfold logheader.sizeof in Hf. lia. }
        exists w2. split; [done |]. right. eexists. split; [exact Fwr |].
        intros b (i & Hi)%list_elem_of_lookup_1.
        rewrite Hrest
          by (apply (lay_home_head _ _ Hlay); now apply list_elem_of_lookup_2 in Hi).
        now apply (Fhomes i). }
    destruct (spec_run _ _ _ _ Hspec) as [([] & w1 & E & HR) | (w1 & E & HR)];
      exists w1; (split; [tauto | exact HR]).
  - (* a crash in recovery *)
    assert (layout (log_at dev sb) hs) as Hlay by now apply layout_region.
    assert (Int.in_range (logstart sb)) as Hstart
      by (apply (region_start_range (log_at dev sb) _ Hreg); lia).
    pose (R := fun w1 => ∃ w2,
      initlog dev sb (boot (disk w1)) = Ok tt w2 ∧
      ∀ i b, hs !! i = Some b →
        disk_read (disk w2) (home_addr (log_at dev sb) b)
        = disk_read d (slot_addr (log_at dev sb) i)).
    assert (spec (initlog dev sb) (set_power p2 (boot d)) (fun _ w1 => R w1) R) as Hspec.
    { apply (initlog_spec dev sb d p2 hs); try done.
      - (* interrupted: the header and the slots are as they were *)
        intros _ w'' [Iwf Irest].
        destruct (initlog_returns dev sb (disk w'') hs) as (w2 & E & Rec); try done.
        { apply (header_holds_ext _ _ d); [| done].
          apply Irest. intros b Hb. now apply not_eq_sym, (lay_home_head _ _ Hlay). }
        exists w2. split; [done |]. intros i b Hb.
        rewrite (rec_homes _ _ _ _ _ Rec i b Hb). apply Irest.
        intros b' Hb'. apply not_eq_sym, (lay_home_slot _ _ Hlay); [done |].
        now apply lookup_lt_Some in Hb.
      - (* recovered: a second recovery finds an empty log *)
        intros w' [Rwf Rhead Rhomes Rrest].
        destruct (initlog_returns dev sb (disk w') []) as (w2 & E & Rec); try done.
        { now apply header_holds_nil. }
        { apply layout_nil. }
        exists w2. split; [done |]. intros i b Hb.
        rewrite (rec_rest _ _ _ _ _ Rec).
        + now apply Rhomes.
        + apply (lay_home_head _ _ Hlay), list_elem_of_lookup. eauto.
        + intros b' Hb'. now apply not_elem_of_nil in Hb'. }
    destruct (spec_run _ _ _ _ Hspec) as [([] & w1 & E & HR) | (w1 & E & HR)];
      exists w1; (split; [tauto | exact HR]).
Qed.
End CrashSafety.

(** * The theorems at work: xv6's constants and a small transaction *)

Section Examples.
#[local] Existing Instance xv6_params.

(** The log of the spec's scenarios: device 1, log at block 2, 31 blocks,
    one system call in flight. *)
Definition ex_log (n : Z) (blk : list Z) : log.t :=
  log.mk 2 31 1 0 1 (logheader.mk n blk).

Definition ex_block : bdata := <[0%nat := 170]> zero_block.

(** Nothing logged yet; and blocks 100 and 101 logged, block 100 modified in
    its buffer. *)
Definition ex_idle : world :=
  mkWorld (ex_log 0 (replicate 30 0)) ∅ ∅ None [] [].

Definition ex_txn : world :=
  mkWorld (ex_log 2 (100 :: 101 :: replicate 28 0)) ∅
    {[ (1, 100) := ex_block ]} None [] [].

Definition ex_bufs : list addr := [(1, 100); (1, 100); (1, 101)].

Definition ex_logged : world :=
  match log_write_all ex_bufs ex_idle with
  | Ok _ w => w
  | Halt _ w => w
  end.

(** A disk left by a crash just after a commit point: the header lists
    block 100, slot 1 holds its new contents, block 100 itself is old. *)
Definition ex_disk : gmap addr bdata :=
  <[(1, 2) := Block.set_int (Block.set_int zero_block 0 1) 4 100]>
    (<[(1, 3) := ex_block]> ∅).

Definition ex_sb : superblock := {| logstart := 2; nlog := 31 |}.

Lemma ex_idle_wf : wf_store ex_idle.
Proof. split; apply map_Forall_empty. Qed.

Lemma ex_txn_wf : wf_store ex_txn.
Proof.
  split; [apply map_Forall_empty |].
  apply map_Forall_singleton. reflexivity.
Qed.

Lemma ex_txn_ready : txn_ready ex_txn.
Proof.
  split.
  - apply ex_txn_wf.
  - reflexivity.
  - reflexivity.
  - change (lh_n ex_txn) with 2. change LOGSIZE with 30. lia.
  - unfold region_ok, Int.max_int, lh_n. simpl. lia.
  - change (entries ex_txn) with [100; 101].
    apply (bool_decide_unpack _). reflexivity.
  - change (entries ex_txn) with [100; 101].
    repeat constructor; unfold Int.in_range, Int.min_int, Int.max_int, in_log_region;
      simpl; lia.
  - reflexivity.
Qed.

Lemma ex_disk_committed : log_committed 1 ex_sb ex_disk [100].
Proof.
  split.
  - apply map_Forall_insert_2; [reflexivity |].
    apply map_Forall_insert_2; [reflexivity |]. apply map_Forall_empty.
  - split.
    + vm_compute. discriminate.
    + reflexivity.
    + intros [| i] b Hb; [| now destruct i].
      injection Hb as <-. reflexivity.
  - unfold region_ok, Int.max_int. simpl. lia.
  - apply (bool_decide_unpack _). reflexivity.
  - repeat constructor. unfold in_log_region. simpl. lia.
Qed.

Lemma crash_atomicity_witness :
  (∃ w1, (commit (set_power (Some 7%nat) ex_txn) = Ok tt w1 ∨
          commit (set_power (Some 7%nat) ex_txn) = Halt PowerLoss w1) ∧
     ∃ w2, initlog 1 ex_sb (boot (disk w1)) = Ok tt w2 ∧
           all_or_nothing ex_txn w1 w2) ∧
  (∃ w1, (initlog 1 ex_sb (set_power (Some 3%nat) (boot ex_disk)) = Ok tt w1 ∨
          initlog 1 ex_sb (set_power (Some 3%nat) (boot ex_disk)) = Halt PowerLoss w1) ∧
     ∃ w2, initlog 1 ex_sb (boot (disk w1)) = Ok tt w2 ∧
           ∀ i b, [100] !! i = Some b →
             disk_read (disk w2) (home_addr (log_at 1 ex_sb) b)
             = disk_read ex_disk (slot_addr (log_at 1 ex_sb) i)).
Proof.
  apply (crash_atomicity ex_txn (Some 7%nat) 1 ex_sb ex_disk [100] (Some 3%nat)).
  - exact ex_txn_ready.
  - reflexivity.
  - change LOGSIZE with 30. lia.
  - exact ex_disk_committed.
Defined.

Lemma begin_op_reservation_witness :
  ∃ w', begin_op ex_idle = Ok tt w'.
Proof.
  apply (begin_op_reservation ex_idle).
  - repeat constructor; unfold Int.in_range, Int.min_int, Int.max_int; simpl; lia.
  - exists (logV ex_idle). split.
    + apply list_elem_of_here.
    + split; simpl; [reflexivity | lia].
Defined.

Lemma ex_logged_run : log_write_all ex_bufs ex_idle = Ok tt ex_logged.
Proof. vm_compute. reflexivity. Qed.

Lemma log_write_absorption_witness :
  entries ex_logged = [100; 101] ∧ NoDup (entries ex_logged) ∧
  Z.of_nat (length (entries ex_logged)) = lh_n ex_logged.
Proof.
  destruct (log_write_absorption ex_bufs ex_idle ex_logged)
    as (Hnd & Hc & Hfit).
  - unfold Int.in_range, Int.min_int, Int.max_int. simpl. lia.
  - reflexivity.
  - unfold Int.max_int. change LOGSIZE with 30. lia.
  - change (lh_n ex_idle) with 0. change LOGSIZE with 30. lia.
  - apply NoDup_nil_2.
  - exact ex_logged_run.
  - destruct Hfit as (He & _).
    + apply Forall_nil_2.
    + repeat constructor; unfold Int.max_int; simpl; lia.
    + split; [exact He | split; assumption].
Defined.

Lemma commit_sequence_witness :
  ∃ w', commit ex_txn = Ok tt w' ∧ lh_n w' = 0 ∧
        (writes (trace w')).*1 = [(1, 3); (1, 4); (1, 2); (1, 100); (1, 101); (1, 2)].
Proof.
  destruct (commit_sequence ex_txn) as (w' & E & Hn & Hw & _).
  - reflexivity.
  - exact ex_txn_wf.
  - change BSIZE with 1024. lia.
  - change (lh_n ex_txn) with 2. lia.
  - vm_compute. lia.
  - apply (tr_region _ ex_txn_ready).
  - apply (tr_nodup _ ex_txn_ready).
  - eapply Forall_impl; [apply (tr_valid _ ex_txn_ready) |]. now intros b [_ ?].
  - exists w'. split; [exact E |]. split; [exact Hn |]. now rewrite Hw.
Defined.



Lemma log_write_panic_iff_witness :
  ∃ w', log_write (1, 100) ex_idle = Ok tt w'.
Proof.
  apply (log_write_panic_iff (1, 100) ex_idle).
  - unfold Int.in_range, Int.min_int, Int.max_int. simpl. lia.
  - reflexivity.
  - change LOGSIZE with 30. lia.
  - change (lh_n ex_idle) with 0. change LOGSIZE with 30. simpl. lia.
Defined.

(** Two system calls in flight: the first to end wakes the sleepers and
    leaves the commit to the other. *)
Definition ex_two : world :=
  mkWorld (log.mk 2 31 2 0 1 (logheader.mk 0 (replicate 30 0))) ∅ ∅ None [] [].

Lemma end_op_behaviour_witness :
  end_op ex_two
  = Ok tt (add_events [EWakeup; ERelease]
             (set_logV (with_outstanding (log.outstanding (logV ex_two) - 1))
                (add_events [EAcquire] ex_two))).
Proof.
  apply (proj1 (proj2 (end_op_behaviour ex_two
                         ltac:(unfold Int.in_range, Int.min_int, Int.max_int; simpl; lia)))).
  - reflexivity.
  - discriminate.
Defined.

Lemma commit_nothing_logged_witness : commit ex_idle = Ok tt ex_idle.
Proof. apply commit_nothing_logged. reflexivity. Defined.


End Examples.


(** * More about the code *)

(** ** Where [panic] is called *)

Section Panics.
Context `{Params}.

(** [m] ends in no [panic], whatever the state it is run in.  The machine
    has no storage errors, so this says that the code of [m] reaches no
    [panic] call of its own. *)
Definition panic_free {A} (m : M A) : Prop :=
  ∀ w msg w', m w ≠ Halt (Panic msg) w'.

Lemma panic_free_bind {A B} (m : M A) (k : A → M B) :
  panic_free m → (∀ a, panic_free (k a)) → panic_free (bind m k).
Proof.
  intros Hm Hk w msg w'. unfold bind.
  destruct (m w) as [a w1 | h w1] eqn:E.
  - apply Hk.
  - intros [= -> ->]. now apply (Hm w msg w').
Qed.

Lemma panic_free_ret {A} (a : A) : panic_free (ret a).
Proof. intros w msg w'. done. Qed.

Lemma panic_free_gets {A} (f : world → A) : panic_free (gets f).
Proof. intros w msg w'. done. Qed.

Lemma panic_free_modify f : panic_free (modify f).
Proof. intros w msg w'. done. Qed.

Lemma panic_free_io_point : panic_free io_point.
Proof. intros w msg w'. unfold io_point. now destruct (power w) as [[| k] |]. Qed.

Lemma panic_free_load_block i : panic_free (load_block i).
Proof. intros w msg w'. unfold load_block. now destruct (lh_block w !! i). Qed.

Lemma panic_free_store_block i v : panic_free (store_block i v).
Proof. intros w msg w'. unfold store_block. now case_decide. Qed.

Lemma panic_free_sleep : panic_free sleep.
Proof.
  apply panic_free_bind; [apply panic_free_modify |].
  intros [] w msg w'. now destruct (wakeups w).
Qed.

Lemma panic_free_for_loop body i todo :
  (∀ j, panic_free (body j)) → panic_free (for_loop i todo body).
Proof.
  intros Hbody. revert i. induction todo as [| todo IH]; intros i; simpl.
  - apply panic_free_ret.
  - apply panic_free_bind; [apply Hbody | intros _; apply IH].
Qed.

Ltac no_panic :=
  repeat first
    [ apply panic_free_ret | apply panic_free_gets | apply panic_free_modify
    | apply panic_free_io_point | apply panic_free_load_block
    | apply panic_free_store_block | apply panic_free_sleep
    | apply panic_free_for_loop; intros ?
    | apply panic_free_bind; [| intros ?]
    | case_decide ].

Lemma panic_free_bread dev blk : panic_free (bread dev blk).
Proof. unfold bread, emit. no_panic. Qed.

Lemma panic_free_bwrite b : panic_free (bwrite b).
Proof. unfold bwrite, emit. no_panic. Qed.

Lemma panic_free_read_head : panic_free read_head.
Proof.
  unfold read_head, for_upto, buf_data, brelse, emit.
  no_panic; apply panic_free_bread.
Qed.

Lemma panic_free_write_head : panic_free write_head.
Proof.
  unfold write_head, for_upto, buf_data, buf_store, brelse, emit.
  no_panic; first [apply panic_free_bread | apply panic_free_bwrite].
Qed.

Lemma panic_free_install_trans recovering : panic_free (install_trans recovering).
Proof.
  unfold install_trans, for_upto, buf_data, buf_store, brelse, bunpin, emit.
  no_panic; first [apply panic_free_bread | apply panic_free_bwrite].
Qed.

Lemma panic_free_write_log : panic_free write_log.
Proof.
  unfold write_log, for_upto, buf_data, buf_store, brelse, emit.
  no_panic; first [apply panic_free_bread | apply panic_free_bwrite].
Qed.

Lemma panic_free_recover_from_log : panic_free recover_from_log.
Proof.
  unfold recover_from_log. no_panic;
    first [apply panic_free_read_head | apply panic_free_install_trans
          | apply panic_free_write_head].
Qed.

Lemma panic_free_commit : panic_free commit.
Proof.
  unfold commit. no_panic;
    first [apply panic_free_write_log | apply panic_free_install_trans
          | apply panic_free_write_head].
Qed.

Lemma panic_free_begin_op_loop passes : panic_free (begin_op_loop passes).
Proof.
  induction passes as [| passes IH]; simpl.
  - intros w msg w'. done.
  - unfold release, emit. no_panic; exact IH.
Qed.

(** The messages of the four [panic] calls of [log.c]. *)
Definition log_panics : list string :=
  ["initlog: too big logheader"; "too big a transaction";
   "log_write outside of trans"; "logV.committing"].

(** A run that ends in one of the [panic] calls of [log.c], as its message
    tells.  A panic raised inside the buffer cache (a storage error) or
    inside the lock and scheduler primitives is not one of them; the
    machine has none of those anyway. *)
Definition own_panic {A} (m : M A) (w : world) (msg : string) (w' : world) : Prop :=
  msg ∈ log_panics ∧ m w = Halt (Panic msg) w'.

(** X1.  The [panic] calls of [log.c] on the way through [initlog]: a run
    of [initlog] ends in one exactly when the header does not fit a block,
    [sizeof(struct logheader) >= BSIZE]; it is then the call of [initlog]
    itself, made before any other call and with the machine as it was
    found.  The recovery that [initlog] goes on with otherwise,
    [recover_from_log] with [read_head], [install_trans] and [write_head],
    reaches none. *)
Theorem initlog_panic_iff dev sb w :
  ((∃ msg w', own_panic (initlog dev sb) w msg w') ↔
   BSIZE <= logheader.sizeof) ∧
  (∀ msg w', own_panic (initlog dev sb) w msg w' →
     msg = "initlog: too big logheader" ∧ w' = w) ∧
  (∀ msg w', ¬ own_panic recover_from_log w msg w').
Proof.
  assert (BSIZE <= logheader.sizeof →
          initlog dev sb w = Halt (Panic "initlog: too big logheader") w) as Hpanic.
  { intros Hbig. unfold initlog. run. now rewrite decide_True. }
  assert (∀ msg w', initlog dev sb w = Halt (Panic msg) w' →
                    BSIZE <= logheader.sizeof) as Honly.
  { intros msg w' E.
    destruct (decide (BSIZE <= logheader.sizeof)) as [Hbig | Hfit]; [done |].
    exfalso. revert E. unfold initlog. rewrite decide_False by done.
    apply panic_free_bind; [apply panic_free_ret |]. intros _.
    unfold initlock, emit. no_panic; apply panic_free_recover_from_log. }
  split; [split |]; [| | split].
  - intros (msg & w' & _ & E). now apply (Honly msg w').
  - intros Hbig. exists "initlog: too big logheader", w. split; [| now apply Hpanic].
    apply list_elem_of_here.
  - intros msg w' [_ E]. rewrite (Hpanic (Honly _ _ E)) in E. now injection E as <- <-.
  - intros msg w' [_ E]. now apply panic_free_recover_from_log in E.
Qed.

(** X2.  The [panic] calls of [log.c] on the way through [begin_op],
    [commit] and [end_op]: [begin_op] reaches none; [commit], with
    [write_log], [write_head] and [install_trans], reaches none; a run of
    [end_op] ends in one exactly when it finds [committing] set, and it is
    then the call of [end_op] itself, made after the decrement of
    [outstanding], under the lock and before any commit. *)
Theorem end_op_panic_iff w :
  (∀ msg w', ¬ own_panic begin_op w msg w') ∧
  (∀ msg w', ¬ own_panic commit w msg w') ∧
  ((∃ msg w', own_panic end_op w msg w') ↔ log.committing (logV w) ≠ 0) ∧
  (∀ msg w', own_panic end_op w msg w' →
     msg = "logV.committing" ∧
     w' = set_logV (with_outstanding (Int.wrap (log.outstanding (logV w) - 1)))
            (add_events [EAcquire] w)).
Proof.
  assert (log.committing (logV w) ≠ 0 →
          end_op w = Halt (Panic "logV.committing")
            (set_logV (with_outstanding (Int.wrap (log.outstanding (logV w) - 1)))
               (add_events [EAcquire] w))) as Hpanic.
  { intros Hc. unfold end_op. run. now rewrite decide_True. }
  assert (∀ msg w', end_op w = Halt (Panic msg) w' →
                    log.committing (logV w) ≠ 0) as Honly.
  { intros msg w' E.
    destruct (decide (log.committing (logV w) ≠ 0)) as [Hc | Hc]; [done |].
    exfalso. revert E. unfold end_op.
    unfold acquire at 1, emit at 1. rewrite !bind_modify, bind_gets.
    cbn [logV set_logV set_trace with_outstanding log.committing].
    rewrite decide_False by done.
    apply panic_free_bind; [apply panic_free_ret |]. intros _.
    unfold acquire, release, wakeup, emit. no_panic; apply panic_free_commit. }
  split; [| split; [| split; [split |]]].
  - intros msg w' [_ E]. revert E. unfold begin_op, acquire, emit.
    apply panic_free_bind; [apply panic_free_modify |]. intros _.
    apply panic_free_bind; [apply panic_free_gets |]. intros ws.
    apply panic_free_begin_op_loop.
  - intros msg w' [_ E]. now apply panic_free_commit in E.
  - intros (msg & w' & _ & E). now apply (Honly msg w').
  - intros Hc. exists "logV.committing". eexists. split; [| now apply Hpanic].
    unfold log_panics. do 3 apply list_elem_of_further. apply list_elem_of_here.
  - intros msg w' [_ E]. rewrite (Hpanic (Honly _ _ E)) in E. now injection E as <- <-.
Qed.
End Panics.


(** ** [initlog] and the header it reads *)

Section InitLog.
Context `{Params}.

Lemma bread_run dev blk w :
  power w = None →
  bread dev blk w
  = Ok (dev, blk)
      (add_events [EBread (dev, blk)]
         (set_cache (insert (dev, blk) (content w (dev, blk))) w)).
Proof.
  intros Hp. unfold bread, io_point, bind at 1. rewrite Hp. reflexivity.
Qed.

Lemma content_bread dev blk w a :
  content (add_events [EBread (dev, blk)]
             (set_cache (insert (dev, blk) (content w (dev, blk))) w)) a
  = content w a.
Proof.
  unfold content at 1. simpl.
  destruct (decide (a = (dev, blk))) as [-> | Hne].
  - now rewrite lookup_insert_eq.
  - now rewrite lookup_insert_ne.
Qed.

Lemma initlog_run dev sb w :
  power w = None →
  wf_store w →
  logheader.sizeof < BSIZE →
  0 <= LOGSIZE →
  (Z.to_nat (Block.get_int (content w (dev, Int.wrap (logstart sb))) logheader.off_n)
   ≤ length (lh_block w))%nat →
  ∃ w', initlog dev sb w = Ok tt w' ∧
        logV w' = log.mk (Int.wrap (logstart sb)) (Int.wrap (nlog sb))
                    (log.outstanding (logV w)) (log.committing (logV w)) dev
                    (logheader.mk 0 (lh_block w')) ∧
        length (lh_block w') = length (lh_block w) ∧
        power w' = None ∧ wf_store w' ∧
        Block.get_int (disk_read (disk w') (dev, Int.wrap (logstart sb)))
          logheader.off_n = 0.
Proof.
  intros Hp Hwf Hfit HL Hcount.
  set (wa := set_logV (fun l =>
               log.mk (Int.wrap (logstart sb)) (Int.wrap (nlog sb))
                      (log.outstanding l) (log.committing l) dev (log.lh l))
               (add_events [EInitlock] w)).
  assert (initlog dev sb w = recover_from_log wa) as ->.
  { unfold initlog. rewrite decide_False by lia. reflexivity. }
  destruct (recover_shape wa) as (w' & X & E & R & Hd & _ & HX); [done | done |].
  exists w'. split; [exact E |].
  pose proof (ran_logV _ _ _ _ _ _ R) as L.
  split; [unfold lh_block; rewrite L; reflexivity |].
  split; [unfold lh_block at 1; rewrite L; simpl; apply length_get_entries |].
  split; [apply (ran_power _ _ _ _ _ _ R) |].
  split; [now apply (ran_wf _ _ _ _ _ _ R) |].
  change (head_addr (logV wa)) with (dev, Int.wrap (logstart sb)) in Hd.
  unfold disk_read. rewrite Hd. simpl.
  apply get_set_int_eq. rewrite HX by done.
  unfold logheader.off_n, logheader.sizeof in *. lia.
Qed.


Lemma for_loop_app body a : ∀ i b w,
  for_loop i (a + b) body w
  = (for_loop i a body ;;; for_loop (i + a) b body) w.
Proof.
  induction a as [| a IH]; intros i b w; simpl.
  - unfold bind, ret. now rewrite Nat.add_0_r.
  - unfold bind in *. destruct (body i w) as [[] w1 | h w1]; [| done].
    rewrite IH. now replace (i + S a)%nat with (S i + a)%nat by lia.
Qed.

(** The loads [logV.lh.block[i] = lh->block[i]] that stay inside the
    array. *)
Lemma read_head_loop buf todo : ∀ i w,
  (i + todo ≤ length (lh_block w))%nat →
  for_loop i todo (fun i =>
    hb <- buf_data buf ;;
    store_block i (Block.get_int hb (logheader.off_block i))) w
  = Ok tt (set_logV (with_block (get_entries (content w buf) i todo (lh_block w))) w).
Proof.
  induction todo as [| todo IH]; intros i w Hlen; simpl.
  - now destruct w as [[? ? ? ? ? []] ? ? ? ? ?].
  - unfold bind at 1 2, buf_data, gets, store_block. rewrite decide_True by lia.
    rewrite IH; [reflexivity |].
    unfold lh_block at 1. simpl. rewrite length_insert. lia.
Qed.

(** A run that reaches an access to [lh.block] outside its bounds.  C leaves
    the behaviour from there undefined, and the run of the model ends at
    that access: [w'] is the state the access is made in. *)
Definition overruns {A} (m : M A) (w w' : world) : Prop :=
  m w = Halt OutOfBounds w'.

Lemma read_head_overrun w :
  power w = None →
  let hb := content w (head_addr (logV w)) in
  let n := Block.get_int hb logheader.off_n in
  (length (lh_block w) < Z.to_nat n)%nat →
  ∃ w', read_head w = Halt OutOfBounds w' ∧
        lh_n w' = n ∧
        lh_block w' = get_entries hb 0 (length (lh_block w)) (lh_block w).
Proof.
  intros Hp hb n Hover. subst hb.
  set (a := head_addr (logV w)) in *.
  set (w1 := set_logV (with_n n)
               (add_events [EBread a]
                  (set_cache (insert a (content w a)) w))).
  set (body := fun i : nat =>
                 hb <- buf_data a ;;
                 store_block i (Block.get_int hb (logheader.off_block i))).
  assert (content w1 a = content w a) as Hc1 by apply content_bread.
  pose proof (read_head_loop a (length (lh_block w)) 0 w1) as E.
  fold body in E. rewrite Hc1 in E.
  change (lh_block w1) with (lh_block w) in E.
  specialize (E ltac:(lia)).
  set (w2 := set_logV (with_block
                (get_entries (content w a) 0 (length (lh_block w)) (lh_block w))) w1) in *.
  assert (for_loop 0 (Z.to_nat n) body w1 = Halt OutOfBounds w2) as Hloop.
  { replace (Z.to_nat n)
      with (length (lh_block w) + S (Z.to_nat n - S (length (lh_block w))))%nat by lia.
    rewrite for_loop_app, (bind_ok _ _ _ _ _ E). simpl.
    unfold bind at 1, body at 1, bind at 1, buf_data, gets, store_block.
    rewrite decide_False; [done |].
    change (lh_block w2)
      with (get_entries (content w a) 0 (length (lh_block w)) (lh_block w)).
    rewrite length_get_entries. lia. }
  exists w2. split; [| split].
  - unfold read_head. rewrite !bind_gets.
    change (log.dev (logV w), log.start (logV w)) with a.
    rewrite (bind_ok _ _ _ _ _ (bread_run _ _ w Hp)).
    unfold buf_data at 1. rewrite bind_gets, content_bread.
    rewrite bind_modify, bind_gets.
    transitivity ((for_loop 0 (Z.to_nat n) body ;;; brelse a) w1); [reflexivity |].
    unfold bind. now rewrite Hloop.
  - reflexivity.
  - reflexivity.
Qed.

(** X4.  [read_head] takes the count from the header block as it is.  With
    power on, its copy loop indexes [lh.block] past its end exactly when
    that count is larger than the number of elements of the array; when it
    gets there the count is already in [lh.n] and every element of
    [lh.block] has been overwritten from the header block.  With a count
    that fits, [read_head] stays inside the array and returns, the count in
    [lh.n]. *)
Theorem read_head_count_unchecked w :
  power w = None →
  let hb := content w (head_addr (logV w)) in
  let n := Block.get_int hb logheader.off_n in
  ((∃ w', overruns read_head w w') ↔ (length (lh_block w) < Z.to_nat n)%nat) ∧
  (∀ w', overruns read_head w w' →
     lh_n w' = n ∧
     ∀ i : nat, (i < length (lh_block w))%nat →
       lh_block w' !! i = Some (Block.get_int hb (logheader.off_block i))) ∧
  ((Z.to_nat n ≤ length (lh_block w))%nat →
   ∃ w', read_head w = Ok tt w' ∧ lh_n w' = n).
Proof.
  intros Hp hb n. subst hb.
  destruct (decide (Z.to_nat n ≤ length (lh_block w))%nat) as [Hfit | Hover].
  - destruct (read_head_run w Hp Hfit) as (w' & E & B & _).
    assert (lh_n w' = n) as Hn
      by (unfold lh_n; now rewrite (bc_logV _ _ _ _ _ _ B)).
    unfold overruns. rewrite E.
    split; [split; [now intros (? & ?) | lia] |].
    split; [done | eauto].
  - destruct (read_head_overrun w Hp) as (w' & E & Hn & Hblk); [lia |].
    unfold overruns. rewrite E.
    split; [split; [lia | eauto] |].
    split; [| lia].
    intros ? [= <-]. split; [exact Hn |].
    intros i Hi. rewrite Hblk. apply lookup_get_entries_in; lia.
Qed.
End InitLog.


(** ** The header through [write_head] and [read_head] *)

Section HeaderRoundTrip.
Context `{Params}.

(** X5.  What [write_head] writes, [read_head] reads back: after
    [write_head], the cached and the on-disk header block are the same, and
    a [read_head] that finds this block, in whatever state the in-memory
    header is by then (the same machine later, or a machine rebooted on that
    disk), loads the count [lh.n] and the first [lh.n] entries of
    [lh.block] that [write_head] was given. *)
Theorem write_read_head_roundtrip w :
  power w = None →
  wf_store w →
  Int.in_range (lh_n w) →
  Forall Int.in_range (entries w) →
  (Z.to_nat (lh_n w) ≤ length (lh_block w))%nat →
  (logheader.off_block (Z.to_nat (lh_n w)) ≤ Z.to_nat BSIZE)%nat →
  let a := head_addr (logV w) in
  ∃ w1, write_head w = Ok tt w1 ∧
        content w1 a = disk_read (disk w1) a ∧
        ∀ w2, power w2 = None →
              head_addr (logV w2) = a →
              content w2 a = disk_read (disk w1) a →
              (Z.to_nat (lh_n w) ≤ length (lh_block w2))%nat →
              ∃ w3, read_head w2 = Ok tt w3 ∧
                    lh_n w3 = lh_n w ∧ entries w3 = entries w.
Proof.
  intros Hp Hwf Hn Hes Hlen Hoff a.
  destruct (write_head_run w Hp Hlen) as (w1 & E1 & B1 & W1). fold a in B1.
  set (hb := put_head (content w a) (log.lh (logV w))) in *.
  assert (length (content w a) = Z.to_nat BSIZE) as Hlc by now apply length_content.
  assert (disk_read (disk w1) a = hb) as Hd1.
  { rewrite (bc_disk _ _ _ _ _ _ B1), disk_read_insert. now rewrite decide_True. }
  assert (Block.get_int hb logheader.off_n = lh_n w) as Hcount.
  { unfold hb. rewrite put_head_n by (unfold logheader.off_block in Hoff; lia).
    now apply wrap_id. }
  exists w1. split; [exact E1 |]. split.
  { rewrite (bc_content _ _ _ _ _ _ B1), Hd1. now rewrite decide_True. }
  intros w2 Hp2 Ha2 Hc2 Hlen2. rewrite Hd1 in Hc2.
  destruct (read_head_run w2 Hp2) as (w3 & E3 & B3 & W3).
  { rewrite Ha2, Hc2, Hcount. exact Hlen2. }
  rewrite Ha2, Hc2 in B3.
  exists w3. split; [exact E3 |].
  pose proof (bc_logV _ _ _ _ _ _ B3) as L3.
  assert (lh_n w3 = lh_n w) as Hn3.
  { unfold lh_n at 1. rewrite L3. simpl. exact Hcount. }
  split; [exact Hn3 |].
  unfold entries. rewrite Hn3. unfold lh_block at 1. rewrite L3. simpl. rewrite Hcount.
  apply list_eq. intros i.
  destruct (decide (i < Z.to_nat (lh_n w))%nat) as [Hi | Hi].
  - rewrite !lookup_take_lt by done.
    rewrite lookup_get_entries_in by lia.
    destruct (lookup_lt_is_Some_2 (lh_block w) i) as [b Hb]; [lia |].
    rewrite Hb. f_equal. unfold hb.
    rewrite put_head_block; [| done | now rewrite Hlc].
    fold (lh_block w). rewrite Hb. simpl. apply wrap_id.
    rewrite Forall_forall in Hes. apply Hes.
    apply list_elem_of_lookup. exists i. now apply entries_lookup.
  - now rewrite !lookup_take_ge by lia.
Qed.
End HeaderRoundTrip.

(** ** What [commit], [install_trans] and [initlog] leave on disk *)

Section OnDisk.
Context `{Params}.

(** X6.  When [commit] returns, every logged block is on disk, at its home,
    with the contents its buffer had when [commit] was called; the log slots
    hold the same contents; the header block on disk holds the count 0 and
    [lh.n] is 0; and no other block of the disk has changed. *)
Theorem commit_installs w :
  power w = None →
  wf_store w →
  4 <= BSIZE →
  0 < lh_n w →
  (Z.to_nat (lh_n w) ≤ length (lh_block w))%nat →
  region_ok (logV w) (lh_n w) →
  NoDup (entries w) →
  Forall (fun b => ¬ in_log_region (logV w) b) (entries w) →
  let dev := log.dev (logV w) in
  let start := log.start (logV w) in
  ∃ w', commit w = Ok tt w' ∧
        logV w' = with_n 0 (logV w) ∧
        (∀ b, b ∈ entries w →
           disk_read (disk w') (dev, b) = content w (dev, b)) ∧
        (∀ (i : nat) b, entries w !! i = Some b →
           disk_read (disk w') (dev, start + Z.of_nat i + 1) = content w (dev, b)) ∧
        Block.get_int (disk_read (disk w') (dev, start)) logheader.off_n = 0 ∧
        (∀ x, x ≠ (dev, start) →
           (∀ i, 0 <= i < lh_n w → x ≠ (dev, start + i + 1)) →
           (∀ b, b ∈ entries w → x ≠ (dev, b)) →
           disk_read (disk w') x = disk_read (disk w) x).
Proof.
  intros Hp Hwf HB Hn Hlen Hreg Hnd Hout dev start.
  pose proof (length_entries w Hlen) as Hlen'.
  assert (layout (logV w) (entries w)) as Hlay.
  { apply layout_region; [| done | done]. rewrite Hlen'.
    now replace (Z.of_nat (Z.to_nat (lh_n w))) with (lh_n w) by lia. }
  destruct (spec_returns commit w (fun _ w' => finished w w')) as ([] & w' & E & F).
  { apply commit_spec; try done; intros Hp'; congruence. }
  exists w'. split; [exact E |]. split; [apply (fin_logV _ _ F) |].
  split; [| split; [| split]].
  - intros b (i & Hi)%list_elem_of_lookup_1. apply (fin_homes _ _ F i b Hi).
  - intros i b Hi. pose proof (lookup_lt_Some _ _ _ Hi) as Hlt.
    change (content w (dev, b)) with (content w (home_addr (logV w) b)).
    rewrite <- (fin_slots _ _ F i b Hi).
    rewrite (slot_addr_exact _ _ i Hreg) by lia. done.
  - change (dev, start) with (head_addr (logV w)).
    rewrite (fin_head _ _ F). unfold clear_head. rewrite put_head_n; [done |].
    unfold commit_head. rewrite length_put_head, length_content by done. lia.
  - intros x Hxa Hxs Hxh. apply (fin_rest _ _ F).
    + exact Hxa.
    + intros i Hi. rewrite (slot_addr_exact _ _ i Hreg) by lia.
      apply Hxs. lia.
    + exact Hxh.
Qed.

(** X7.  Installing is idempotent: a second [install_trans], with either
    value of [recovering], writes to every home block the bytes the first
    one wrote, so the disk after it is, block for block, the disk after the
    first. *)
Theorem install_trans_idempotent r1 r2 w :
  power w = None →
  wf_store w →
  (Z.to_nat (lh_n w) ≤ length (lh_block w))%nat →
  region_ok (logV w) (lh_n w) →
  NoDup (entries w) →
  Forall (fun b => ¬ in_log_region (logV w) b) (entries w) →
  ∃ w1 w2, install_trans r1 w = Ok tt w1 ∧
           install_trans r2 w1 = Ok tt w2 ∧
           (∀ (i : nat) b, entries w !! i = Some b →
              disk_read (disk w1) (log.dev (logV w), b)
              = content w (log.dev (logV w), log.start (logV w) + Z.of_nat i + 1)) ∧
           ∀ x, disk_read (disk w2) x = disk_read (disk w1) x.
Proof.
  intros Hp Hwf Hlen Hreg Hnd Hout.
  pose proof (length_entries w Hlen) as Hlen'.
  assert (layout (logV w) (entries w)) as Hlay.
  { destruct (decide (0 <= lh_n w)).
    - apply layout_region; [| done | done]. rewrite Hlen'.
      now replace (Z.of_nat (Z.to_nat (lh_n w))) with (lh_n w) by lia.
    - rewrite (nil_length_inv (entries w)) by lia. apply layout_nil. }
  set (src := fun (i : nat) (_ : Z) => slot_addr (logV w) i).
  set (dst := fun (_ : nat) b => home_addr (logV w) b).
  destruct (spec_returns (install_trans r1) w (fun _ w1 =>
              logV w1 = logV w ∧
              copied w src dst (entries w) (length (entries w)) w1))
    as ([] & w1 & E1 & L1 & C1).
  { apply install_trans_spec; try done; intros Hp'; congruence. }
  assert (entries w1 = entries w) as He1.
  { unfold entries, lh_n, lh_block. now rewrite L1. }
  destruct (spec_returns (install_trans r2) w1 (fun _ w2 =>
              copied w1 src dst (entries w) (length (entries w)) w2))
    as ([] & w2 & E2 & C2).
  { apply install_trans_spec.
    - apply (cp_wf _ _ _ _ _ _ C1).
    - unfold lh_n, lh_block. now rewrite L1.
    - now rewrite He1, L1.
    - intros Hp'. exfalso. apply Hp', (cp_power _ _ _ _ _ _ C1), Hp.
    - rewrite He1, L1. tauto. }
  assert (∀ (i : nat) b, entries w !! i = Some b →
            content w1 (src i b) = content w (src i b)) as Hsrc.
  { intros i b Hi. apply (cp_rest _ _ _ _ _ _ C1).
    intros j b' Hj Hb' Heq.
    apply (lay_home_slot _ _ Hlay b' i); [| now apply lookup_lt_Some in Hi | done].
    apply list_elem_of_lookup. eauto. }
  exists w1, w2. split; [exact E1 |]. split; [exact E2 |]. split.
  - intros i b Hi. pose proof (lookup_lt_Some _ _ _ Hi) as Hlt.
    destruct (cp_done _ _ _ _ _ _ C1 i b Hlt Hi) as [Hd _].
    unfold dst, src, home_addr in Hd. rewrite Hd.
    rewrite (slot_addr_exact _ _ i Hreg) by lia. done.
  - intros x.
    destruct (decide (x ∈ home_addr (logV w) <$> entries w)) as [Hin | Hnot].
    + apply list_elem_of_fmap in Hin as (b & -> & (i & Hi)%list_elem_of_lookup_1).
      change (home_addr (logV w) b) with (dst i b).
      pose proof (lookup_lt_Some _ _ _ Hi) as Hlt.
      rewrite (proj1 (cp_done _ _ _ _ _ _ C2 i b Hlt Hi)).
      rewrite (proj1 (cp_done _ _ _ _ _ _ C1 i b Hlt Hi)).
      now apply Hsrc.
    + apply (cp_rest _ _ _ _ _ _ C2). intros i b Hi Hb ->. apply Hnot.
      apply list_elem_of_fmap. exists b. split; [done |].
      apply list_elem_of_lookup. eauto.
Qed.

(** X8.  [initlog] on a booted machine whose disk holds a committed
    transaction of the blocks [hs] (none, when the header count is 0 or
    negative) returns with every block of [hs] installed at its home from
    its log slot, the header count on disk cleared, and every other block of
    the disk as it was. *)
Theorem initlog_installs_log dev sb d hs :
  logheader.sizeof < BSIZE →
  0 <= LOGSIZE →
  log_committed dev sb d hs →
  ∃ w', initlog dev sb (boot d) = Ok tt w' ∧
        lh_n w' = 0 ∧
        Block.get_int (disk_read (disk w') (dev, logstart sb)) logheader.off_n = 0 ∧
        (∀ (i : nat) b, hs !! i = Some b →
           disk_read (disk w') (dev, b)
           = disk_read d (dev, logstart sb + Z.of_nat i + 1)) ∧
        (∀ x, x ≠ (dev, logstart sb) → (∀ b, b ∈ hs → x ≠ (dev, b)) →
           disk_read (disk w') x = disk_read d x).
Proof.
  intros Hfit HL [Hwfd Hhold Hreg Hnd Hval].
  assert (layout (log_at dev sb) hs) as Hlay by now apply layout_region.
  assert (Int.in_range (logstart sb)) as Hstart
    by (apply (region_start_range (log_at dev sb) _ Hreg); lia).
  destruct (initlog_returns dev sb d hs) as (w' & E & R); try done.
  exists w'. split; [exact E |]. split; [| split; [| split]].
  - destruct (initlog_run dev sb (boot d) eq_refl (wf_store_boot d None Hwfd) Hfit HL)
      as (w'' & E' & L & _).
    + rewrite (wrap_id _ Hstart).
      change (boot d) with (set_power None (boot d)).
      rewrite (content_boot d None).
      change (lh_block (set_power None (boot d))) with (replicate (Z.to_nat LOGSIZE) 0).
      rewrite length_replicate.
      pose proof (hh_count _ _ _ _ Hhold) as Hc.
      change (head_addr (log_at dev sb)) with (dev, logstart sb) in Hc. lia.
    + rewrite E in E'. injection E' as <-. unfold lh_n. now rewrite L.
  - apply (rec_head _ _ _ _ _ R).
  - intros i b Hi. pose proof (lookup_lt_Some _ _ _ Hi) as Hlt.
    change (dev, b) with (home_addr (log_at dev sb) b).
    rewrite (rec_homes _ _ _ _ _ R i b Hi).
    rewrite (slot_addr_exact _ _ i Hreg) by lia. done.
  - intros x Hxa Hxh. apply (rec_rest _ _ _ _ _ R); done.
Qed.
End OnDisk.


(** ** The [recovering] flag of [install_trans] *)

Section Recovering.
Context `{Params}.

Definition is_unpin (e : event) : bool :=
  match e with EBunpin _ => true | _ => false end.

(** A trace without its [bunpin] calls. *)
Definition without_unpins (t : list event) : list event :=
  List.filter (fun e => negb (is_unpin e)) t.

(** Two machines that differ at most in the [bunpin] calls made so far. *)
Record same_but_unpins (w1 w2 : world) : Prop := {
  sbu_logV : logV w1 = logV w2;
  sbu_disk : disk w1 = disk w2;
  sbu_cache : cache w1 = cache w2;
  sbu_power : power w1 = power w2;
  sbu_wakeups : wakeups w1 = wakeups w2;
  sbu_trace : without_unpins (trace w1) = without_unpins (trace w2)
}.

(** Two runs that end the same way, in such machines. *)
Definition same_outcome {A} (r1 r2 : result A) : Prop :=
  match r1, r2 with
  | Ok a1 w1, Ok a2 w2 => a1 = a2 ∧ same_but_unpins w1 w2
  | Halt h1 w1, Halt h2 w2 => h1 = h2 ∧ same_but_unpins w1 w2
  | _, _ => False
  end.

Definition alike {A} (m1 m2 : M A) : Prop :=
  ∀ w1 w2, same_but_unpins w1 w2 → same_outcome (m1 w1) (m2 w2).

Lemma same_but_unpins_refl w : same_but_unpins w w.
Proof. now split. Qed.

Lemma alike_bind {A B} (m1 m2 : M A) (k1 k2 : A → M B) :
  alike m1 m2 → (∀ a, alike (k1 a) (k2 a)) → alike (bind m1 k1) (bind m2 k2).
Proof.
  intros Hm Hk w1 w2 Hw. unfold bind. specialize (Hm w1 w2 Hw).
  destruct (m1 w1) as [a1 w1' | h1 w1'], (m2 w2) as [a2 w2' | h2 w2']; try done.
  destruct Hm as [-> Hw']. now apply Hk.
Qed.

Lemma alike_ret {A} (a : A) : alike (ret a) (ret a).
Proof. intros w1 w2 Hw. now split. Qed.

Lemma alike_gets {A} (f : world → A) :
  (∀ w1 w2, same_but_unpins w1 w2 → f w1 = f w2) → alike (gets f) (gets f).
Proof. intros Hf w1 w2 Hw. split; [now apply Hf | done]. Qed.

Lemma alike_modify f :
  (∀ w1 w2, same_but_unpins w1 w2 → same_but_unpins (f w1) (f w2)) →
  alike (modify f) (modify f).
Proof. intros Hf w1 w2 Hw. split; [done | now apply Hf]. Qed.

Lemma alike_emit e : alike (emit e) (emit e).
Proof.
  apply alike_modify. intros w1 w2 [Hl Hd Hc Hp Hk Ht]. split; simpl; try done.
  unfold without_unpins in *. now rewrite !List.filter_app, Ht.
Qed.

Lemma alike_io_point : alike io_point io_point.
Proof.
  intros w1 w2 Hw. unfold io_point. rewrite (sbu_power _ _ Hw).
  destruct (power w2) as [[| k] |]; simpl; (split; [done |]).
  - done.
  - destruct Hw. now split.
  - done.
Qed.

Lemma content_alike w1 w2 a : same_but_unpins w1 w2 → content w1 a = content w2 a.
Proof. intros [Hl Hd Hc Hp Hk Ht]. unfold content. now rewrite Hc, Hd. Qed.

Lemma alike_cache_insert a (f : world → bdata) :
  (∀ w1 w2, same_but_unpins w1 w2 → f w1 = f w2) →
  ∀ w1 w2, same_but_unpins w1 w2 →
    same_but_unpins (set_cache (insert a (f w1)) w1) (set_cache (insert a (f w2)) w2).
Proof.
  intros Hf w1 w2 Hw. pose proof (Hf _ _ Hw) as Hv.
  destruct Hw as [Hl Hd Hc Hp Hk Ht]. split; simpl; try done. now rewrite Hc, Hv.
Qed.

Lemma alike_bread dev blk : alike (bread dev blk) (bread dev blk).
Proof.
  unfold bread.
  apply alike_bind; [apply alike_io_point |]. intros _.
  apply alike_bind; [apply alike_gets; intros; now apply content_alike |]. intros cur.
  apply alike_bind.
  { apply alike_modify. intros w1 w2 Hw.
    now apply (alike_cache_insert (dev, blk) (fun _ => cur)). }
  intros _. apply alike_bind; [apply alike_emit | intros _; apply alike_ret].
Qed.

Lemma alike_bwrite b : alike (bwrite b) (bwrite b).
Proof.
  unfold bwrite.
  apply alike_bind; [apply alike_io_point |]. intros _.
  apply alike_bind; [apply alike_gets; intros; now apply content_alike |]. intros cur.
  apply alike_bind; [| intros _; apply alike_emit].
  apply alike_modify. intros w1 w2 [Hl Hd Hc Hp Hk Ht]. split; simpl; try done.
  now rewrite Hd.
Qed.

Lemma alike_load_block i : alike (load_block i) (load_block i).
Proof.
  intros w1 w2 Hw. unfold load_block, lh_block. rewrite (sbu_logV _ _ Hw).
  now destruct (logheader.block (log.lh (logV w2)) !! i).
Qed.

Lemma alike_for_loop body1 body2 todo : ∀ i,
  (∀ j, alike (body1 j) (body2 j)) →
  alike (for_loop i todo body1) (for_loop i todo body2).
Proof.
  induction todo as [| todo IH]; intros i Hbody; simpl.
  - apply alike_ret.
  - apply alike_bind; [apply Hbody | intros _; now apply IH].
Qed.

(** The one place where the flag is read. *)
Lemma alike_unpin r1 r2 b :
  alike (if decide (r1 = 0) then bunpin b else ret tt)
        (if decide (r2 = 0) then bunpin b else ret tt).
Proof.
  assert (∀ w1 w2, same_but_unpins w1 w2 →
            same_but_unpins (set_trace (fun t => t ++ [EBunpin b]) w1) w2) as Hl.
  { intros w1 w2 [Hl Hd Hc Hp Hk Ht]. split; simpl; try done.
    unfold without_unpins in *. rewrite List.filter_app, Ht. simpl. apply app_nil_r. }
  assert (∀ w1 w2, same_but_unpins w1 w2 →
            same_but_unpins w1 (set_trace (fun t => t ++ [EBunpin b]) w2)) as Hr.
  { intros w1 w2 [Hl' Hd Hc Hp Hk Ht]. split; simpl; try done.
    unfold without_unpins in *. rewrite List.filter_app, <- Ht. simpl.
    symmetry. apply app_nil_r. }
  destruct (decide (r1 = 0)), (decide (r2 = 0)).
  - apply alike_emit.
  - intros w1 w2 Hw. split; [done | now apply Hl].
  - intros w1 w2 Hw. split; [done | now apply Hr].
  - apply alike_ret.
Qed.

(** X9.  The [recovering] flag of [install_trans] decides whether [bunpin]
    is called and nothing else: run from the same state with any two values
    of the flag, [install_trans] ends the same way (it returns, or loses
    power at the same call), with the same [logV], disk and buffers, and
    with the same calls in the same order once the [bunpin] calls are left
    out. *)
Theorem install_trans_recovering_flag r1 r2 w :
  same_outcome (install_trans r1 w) (install_trans r2 w).
Proof.
  assert (alike (install_trans r1) (install_trans r2)) as Halike.
  { unfold install_trans, for_upto.
    apply alike_bind.
    { apply alike_gets. intros w1 w2 Hw. unfold lh_n. now rewrite (sbu_logV _ _ Hw). }
    intros n. apply alike_for_loop. intros tail.
    apply alike_bind.
    { apply alike_gets. intros w1 w2 Hw. now rewrite (sbu_logV _ _ Hw). }
    intros dev. apply alike_bind.
    { apply alike_gets. intros w1 w2 Hw. now rewrite (sbu_logV _ _ Hw). }
    intros start. apply alike_bind; [apply alike_bread |]. intros lbuf.
    apply alike_bind; [apply alike_load_block |]. intros dst.
    apply alike_bind; [apply alike_bread |]. intros dbuf.
    unfold buf_data, buf_store.
    apply alike_bind; [apply alike_gets; intros; now apply content_alike |]. intros from.
    apply alike_bind; [apply alike_gets; intros; now apply content_alike |]. intros to.
    apply alike_bind.
    { apply alike_modify. intros w1 w2 Hw.
      now apply (alike_cache_insert dbuf (fun _ => Block.memmove to from (Z.to_nat BSIZE))). }
    intros _. apply alike_bind; [apply alike_bwrite |]. intros _.
    apply alike_bind; [apply alike_unpin |]. intros _.
    unfold brelse. apply alike_bind; [apply alike_emit | intros _; apply alike_emit]. }
  apply Halike, same_but_unpins_refl.
Qed.
End Recovering.

(** ** [begin_op] and [end_op] together *)

Section Pairing.
Context `{Params}.

Lemma begin_op_admitted w :
  no_overflow (logV w) → admits (logV w) →
  begin_op w
  = Ok tt (add_events [ERelease]
             (set_logV (with_outstanding (log.outstanding (logV w) + 1))
                (add_events [EAcquire] w))).
Proof.
  intros Hno [Hc Hfit]. unfold begin_op. run. cbn [begin_op_loop]. run.
  rewrite decide_False by (intros E; now apply E).
  rewrite (reserved_exact _ Hno). rewrite decide_False by lia.
  run. now rewrite (wrap_id _ (proj1 Hno)).
Qed.

Lemma begin_op_blocked w :
  wakeups w = [] → no_overflow (logV w) → ¬ admits (logV w) →
  ∃ w', begin_op w = Halt Blocked w'.
Proof.
  intros Hws Hno Hna. unfold begin_op. run. rewrite Hws. cbn [begin_op_loop length]. run.
  destruct (decide (log.committing (logV w) ≠ 0)) as [Hc | Hc].
  { unfold sleep. run. rewrite Hws. eauto. }
  rewrite (reserved_exact _ Hno).
  destruct (decide (_ > LOGSIZE)) as [Hr | Hr].
  { unfold sleep. run. rewrite Hws. eauto. }
  exfalso. apply Hna. split; [| lia].
  destruct (decide (log.committing (logV w) = 0)); tauto.
Qed.

Lemma end_op_run w :
  Int.in_range (log.outstanding (logV w) - 1) →
  log.committing (logV w) = 0 →
  let w1 := set_logV (with_outstanding (log.outstanding (logV w) - 1))
              (add_events [EAcquire] w) in
  (log.outstanding (logV w) - 1 ≠ 0 →
   end_op w = Ok tt (add_events [EWakeup; ERelease] w1)) ∧
  (log.outstanding (logV w) - 1 = 0 →
   ∀ w3, commit (add_events [ERelease] (set_logV (with_committing 1) w1)) = Ok tt w3 →
         end_op w = Ok tt (add_events [EAcquire; EWakeup; ERelease]
                             (set_logV (with_committing 0) w3))) ∧
  (log.outstanding (logV w) - 1 = 0 →
   ∀ h w3, commit (add_events [ERelease] (set_logV (with_committing 1) w1)) = Halt h w3 →
           end_op w = Halt h w3).
Proof.
  intros Ho Hc w1. subst w1.
  assert (log.outstanding (logV w) - 1 = 0 →
          end_op w
          = (commit ;;; acquire ;;; modify (set_logV (with_committing 0)) ;;;
             wakeup ;;; release)
              (add_events [ERelease]
                 (set_logV (with_committing 1)
                    (set_logV (with_outstanding (log.outstanding (logV w) - 1))
                       (add_events [EAcquire] w))))) as Hcommit.
  { intros He. unfold end_op. run.
    rewrite decide_False by (intros E; now apply E). run.
    rewrite decide_True by (simpl; now rewrite (wrap_id _ Ho)). run.
    rewrite decide_True by done.
    replace (set_trace (fun t => t ++ [ERelease])
               (set_logV (with_committing 1)
                  (set_logV (fun l => with_outstanding (Int.wrap (log.outstanding l - 1)) l)
                     (set_trace (fun t => t ++ [EAcquire]) w))))
      with (add_events [ERelease]
              (set_logV (with_committing 1)
                 (set_logV (with_outstanding (log.outstanding (logV w) - 1))
                    (add_events [EAcquire] w)))).
    2: { unfold add_events, set_trace, set_logV. simpl. now rewrite (wrap_id _ Ho). }
    reflexivity. }
  split; [| split].
  - intros Hne. unfold end_op. run.
    rewrite decide_False by (intros E; now apply E). run.
    rewrite decide_False by (simpl; now rewrite (wrap_id _ Ho)). run.
    rewrite decide_False by (intros E; now apply E).
    unfold add_events, set_trace, set_logV. simpl.
    now rewrite (wrap_id _ Ho), <- !app_assoc.
  - intros He w3 E3. rewrite (Hcommit He), (bind_ok _ _ _ _ _ E3).
    run. unfold add_events, set_trace, set_logV. simpl. now rewrite <- !app_assoc.
  - intros He h w3 E3. rewrite (Hcommit He). unfold bind at 1. now rewrite E3.
Qed.

Lemma outstanding_back l o1 o2 :
  o2 = log.outstanding l → with_outstanding o2 (with_outstanding o1 l) = l.
Proof. intros ->. now destruct l. Qed.

Lemma committing_back l c1 c2 :
  c2 = log.committing l → with_committing c2 (with_committing c1 l) = l.
Proof. intros ->. now destruct l. Qed.

(** X10.  A [begin_op] that is let in at once, followed by [end_op] with no
    [log_write] in between, leaves [logV], the disk and the buffers as they
    were: [outstanding] goes up and down again, and when the pair is the
    only system call in flight the commit it triggers finds nothing to
    write. *)
Theorem begin_end_op_roundtrip w :
  Int.in_range (log.outstanding (logV w)) →
  no_overflow (logV w) →
  admits (logV w) →
  (log.outstanding (logV w) = 0 → lh_n w <= 0) →
  ∃ w1 w2, begin_op w = Ok tt w1 ∧ end_op w1 = Ok tt w2 ∧
           log.outstanding (logV w1) = log.outstanding (logV w) + 1 ∧
           logV w2 = logV w ∧ disk w2 = disk w ∧ cache w2 = cache w ∧
           writes (trace w2) = writes (trace w).
Proof.
  intros Hor Hno Hadm Hidle.
  pose proof (begin_op_admitted w Hno Hadm) as E1.
  set (w1 := add_events [ERelease]
               (set_logV (with_outstanding (log.outstanding (logV w) + 1))
                  (add_events [EAcquire] w))) in *.
  assert (log.outstanding (logV w1) - 1 = log.outstanding (logV w)) as Ho1
    by (simpl; lia).
  assert (Int.in_range (log.outstanding (logV w1) - 1)) as Hr1.
  { now rewrite Ho1. }
  destruct (end_op_run w1 Hr1 (proj1 Hadm)) as (Hne & He & _).
  exists w1.
  destruct (decide (log.outstanding (logV w) = 0)) as [Hz | Hnz].
  - eexists. split; [exact E1 |]. split.
    + apply He; [lia |]. apply commit_idle. now apply Hidle.
    + split; [reflexivity |]. simpl. rewrite Hz.
      split; [| split; [done | split; [done |]]].
      * rewrite outstanding_back by lia. apply committing_back.
        symmetry. apply Hadm.
      * rewrite !writes_app. simpl. now rewrite !app_nil_r.
  - eexists. split; [exact E1 |]. split.
    + apply Hne. lia.
    + split; [reflexivity |]. simpl.
      split; [| split; [done | split; [done |]]].
      * apply outstanding_back. lia.
      * rewrite !writes_app. simpl. now rewrite !app_nil_r.
Qed.

(** [k] system calls entering one after the other. *)
Fixpoint begin_ops (k : nat) : M unit :=
  match k with
  | O => ret tt
  | S k' => begin_op ;;; begin_ops k'
  end.

Lemma begin_ops_run k : ∀ w,
  log.committing (logV w) = 0 →
  0 <= log.outstanding (logV w) → 0 <= lh_n w → 0 < MAXOPBLOCKS →
  lh_n w + (log.outstanding (logV w) + Z.of_nat k) * MAXOPBLOCKS <= Int.max_int →
  lh_n w + (log.outstanding (logV w) + Z.of_nat k) * MAXOPBLOCKS <= LOGSIZE →
  ∃ w', begin_ops k w = Ok tt w' ∧
        logV w' = with_outstanding (log.outstanding (logV w) + Z.of_nat k) (logV w) ∧
        wakeups w' = wakeups w ∧ disk w' = disk w ∧ cache w' = cache w ∧
        power w' = power w ∧ writes (trace w') = writes (trace w).
Proof.
  induction k as [| k IH]; intros w Hc Ho Hn HM Hmax Hfit.
  - exists w. split; [done |]. split; [| done].
    rewrite Z.add_0_r. now destruct (logV w).
  - assert (no_overflow (logV w)) as Hno.
    { unfold no_overflow, Int.in_range, Int.min_int, Int.max_int, lh_n in *. nia. }
    assert (admits (logV w)) as Hadm.
    { split; [done |]. unfold lh_n in *. nia. }
    pose proof (begin_op_admitted w Hno Hadm) as E1.
    set (w1 := add_events [ERelease]
                 (set_logV (with_outstanding (log.outstanding (logV w) + 1))
                    (add_events [EAcquire] w))) in *.
    destruct (IH w1) as (w' & E & L & Hw & Hd & Hca & Hpw & Hwr); simpl; try done; try lia.
    { change (lh_n w1) with (lh_n w).
      replace (log.outstanding (logV w) + 1 + Z.of_nat k)
        with (log.outstanding (logV w) + Z.of_nat (S k)) by lia. exact Hmax. }
    { change (lh_n w1) with (lh_n w).
      replace (log.outstanding (logV w) + 1 + Z.of_nat k)
        with (log.outstanding (logV w) + Z.of_nat (S k)) by lia. exact Hfit. }
    exists w'. split.
    + simpl. now rewrite (bind_ok _ _ _ _ _ E1).
    + split.
      { rewrite L. simpl. unfold with_outstanding. simpl. f_equal. lia. }
      split; [done |]. split; [done |]. split; [done |]. split; [done |].
      rewrite Hwr. simpl. rewrite !writes_app. simpl. now rewrite !app_nil_r.
Qed.

(** X11.  How many system calls the log lets in: with no commit running and
    nobody ending, [k] successive calls of [begin_op] all return, each
    adding one to [outstanding], as long as
    [lh.n + (outstanding + k) × MAXOPBLOCKS ≤ LOGSIZE]; the first call for
    which the sum exceeds [LOGSIZE] goes to sleep. *)
Theorem begin_op_capacity k w :
  wakeups w = [] →
  log.committing (logV w) = 0 →
  0 <= log.outstanding (logV w) → 0 <= lh_n w → 0 < MAXOPBLOCKS →
  lh_n w + (log.outstanding (logV w) + Z.of_nat k + 1) * MAXOPBLOCKS <= Int.max_int →
  lh_n w + (log.outstanding (logV w) + Z.of_nat k) * MAXOPBLOCKS <= LOGSIZE →
  ∃ w', begin_ops k w = Ok tt w' ∧
        log.outstanding (logV w') = log.outstanding (logV w) + Z.of_nat k ∧
        (lh_n w + (log.outstanding (logV w) + Z.of_nat k + 1) * MAXOPBLOCKS <= LOGSIZE →
         ∃ w'', begin_op w' = Ok tt w'') ∧
        (lh_n w + (log.outstanding (logV w) + Z.of_nat k + 1) * MAXOPBLOCKS > LOGSIZE →
         ∃ w'', begin_op w' = Halt Blocked w'').
Proof.
  intros Hws Hc Ho Hn HM Hmax Hfit.
  destruct (begin_ops_run k w Hc Ho Hn HM ltac:(lia) Hfit) as (w' & E & L & Hw & _).
  exists w'. split; [exact E |]. split; [now rewrite L |].
  assert (no_overflow (logV w')) as Hno.
  { rewrite L. unfold no_overflow, Int.in_range, Int.min_int, Int.max_int, lh_n in *.
    simpl. nia. }
  split.
  - intros Hnext. eexists. apply begin_op_admitted; [exact Hno |].
    rewrite L. split; simpl; [done |]. unfold lh_n in *. lia.
  - intros Hnext. apply begin_op_blocked; [congruence | exact Hno |].
    rewrite L. intros [_ Hf]. simpl in Hf. unfold lh_n in *. lia.
Qed.
End Pairing.


(** ** The lock *)

Section Lock.
Context `{Params}.

(** Modelled from the spec: the rules of the kernel's locks (section 5),
    [spinlock.c] and [proc.c] not being among the sources.  [lock_step]
    gives what a call does to [logV.lock], given whether the lock is held,
    or [None] when the rules forbid the call there: [acquire] of a lock
    already held, [release] of one that is not, [sleep] without the lock it
    is to give up, and a [bread] or [bwrite], which wait for the disk, with
    the lock held. *)
Definition lock_step (held : bool) (e : event) : option bool :=
  match e, held with
  | EAcquire, false => Some true
  | EAcquire, true => None
  | ERelease, true => Some false
  | ERelease, false => None
  | ESleep, true => Some true
  | ESleep, false => None
  | EBread _, true => None
  | EBwrite _ _, true => None
  | _, _ => Some held
  end.

(** The lock after the calls of a trace, made from a state where it is
    free. *)
Definition lock_after (t : list event) : option bool :=
  foldl (fun st e => st ≫= fun held => lock_step held e) (Some false) t.

(** Run with the lock in state [h], [m] respects the rules, and has the
    lock in state [h'] when it returns. *)
Definition keeps_lock {A} (h h' : bool) (m : M A) : Prop :=
  ∀ w, lock_after (trace w) = Some h →
       match m w with
       | Ok _ w' => lock_after (trace w') = Some h'
       | Halt _ w' => is_Some (lock_after (trace w'))
       end.

Lemma lock_after_snoc t e :
  lock_after (t ++ [e]) = lock_after t ≫= fun held => lock_step held e.
Proof. unfold lock_after. now rewrite foldl_app. Qed.

Lemma keeps_lock_bind {A B} h h1 h2 (m : M A) (k : A → M B) :
  keeps_lock h h1 m → (∀ a, keeps_lock h1 h2 (k a)) → keeps_lock h h2 (bind m k).
Proof.
  intros Hm Hk w Hw. unfold bind. specialize (Hm w Hw).
  destruct (m w) as [a w1 | hh w1]; [now apply Hk | done].
Qed.

Lemma keeps_lock_ret {A} h (a : A) : keeps_lock h h (ret a).
Proof. intros w Hw. done. Qed.

Lemma keeps_lock_gets {A} h (f : world → A) : keeps_lock h h (gets f).
Proof. intros w Hw. done. Qed.

Lemma keeps_lock_stop {A} h h' hh : keeps_lock h h' (stop hh : M A).
Proof. intros w Hw. simpl. now rewrite Hw. Qed.

Lemma keeps_lock_modify h f :
  (∀ w, trace (f w) = trace w) → keeps_lock h h (modify f).
Proof. intros Hf w Hw. simpl. now rewrite Hf. Qed.

Lemma keeps_lock_emit h h' e : lock_step h e = Some h' → keeps_lock h h' (emit e).
Proof. intros He w Hw. simpl. now rewrite lock_after_snoc, Hw. Qed.

Lemma keeps_lock_io_point h : keeps_lock h h io_point.
Proof.
  intros w Hw. unfold io_point.
  destruct (power w) as [[| k] |]; simpl; rewrite Hw; done.
Qed.

Lemma keeps_lock_load_block h i : keeps_lock h h (load_block i).
Proof.
  intros w Hw. unfold load_block.
  destruct (lh_block w !! i); simpl; rewrite Hw; done.
Qed.

Lemma keeps_lock_store_block h i v : keeps_lock h h (store_block i v).
Proof.
  intros w Hw. unfold store_block. case_decide; simpl; rewrite Hw; done.
Qed.

Lemma keeps_lock_for_loop h body todo : ∀ i,
  (∀ j, keeps_lock h h (body j)) → keeps_lock h h (for_loop i todo body).
Proof.
  induction todo as [| todo IH]; intros i Hbody; simpl.
  - apply keeps_lock_ret.
  - eapply keeps_lock_bind; [apply Hbody | intros _; now apply IH].
Qed.

Lemma keeps_lock_sleep : keeps_lock true true sleep.
Proof.
  unfold sleep. eapply keeps_lock_bind; [now apply keeps_lock_emit |].
  intros _ w Hw. destruct (wakeups w); simpl; rewrite Hw; done.
Qed.

Ltac lock_steps :=
  repeat first
    [ apply keeps_lock_ret | apply keeps_lock_gets | apply keeps_lock_io_point
    | apply keeps_lock_load_block | apply keeps_lock_store_block
    | apply keeps_lock_sleep | apply keeps_lock_stop
    | apply keeps_lock_modify; reflexivity
    | apply keeps_lock_emit; reflexivity
    | apply keeps_lock_for_loop; intros ?
    | eapply keeps_lock_bind; [| intros ?]
    | case_decide ].

Lemma keeps_lock_bread dev blk : keeps_lock false false (bread dev blk).
Proof. unfold bread. lock_steps. Qed.

Lemma keeps_lock_bwrite b : keeps_lock false false (bwrite b).
Proof. unfold bwrite. lock_steps. Qed.

Lemma keeps_lock_write_head : keeps_lock false false write_head.
Proof.
  unfold write_head, for_upto, buf_data, buf_store, brelse.
  eapply keeps_lock_bind; [apply keeps_lock_gets |]. intros dev.
  eapply keeps_lock_bind; [apply keeps_lock_gets |]. intros start.
  eapply keeps_lock_bind; [apply keeps_lock_bread |]. intros buf.
  eapply keeps_lock_bind; [apply keeps_lock_gets |]. intros hb.
  eapply keeps_lock_bind; [apply keeps_lock_gets |]. intros n.
  eapply keeps_lock_bind; [apply keeps_lock_modify; reflexivity |]. intros _.
  eapply keeps_lock_bind.
  { apply keeps_lock_for_loop. intros i. lock_steps. }
  intros _. eapply keeps_lock_bind; [apply keeps_lock_bwrite |]. intros _.
  now apply keeps_lock_emit.
Qed.

Lemma keeps_lock_read_head : keeps_lock false false read_head.
Proof.
  unfold read_head, for_upto, buf_data, brelse.
  eapply keeps_lock_bind; [apply keeps_lock_gets |]. intros dev.
  eapply keeps_lock_bind; [apply keeps_lock_gets |]. intros start.
  eapply keeps_lock_bind; [apply keeps_lock_bread |]. intros buf.
  eapply keeps_lock_bind; [apply keeps_lock_gets |]. intros hb.
  eapply keeps_lock_bind; [apply keeps_lock_modify; reflexivity |]. intros _.
  eapply keeps_lock_bind; [apply keeps_lock_gets |]. intros n.
  eapply keeps_lock_bind.
  { apply keeps_lock_for_loop. intros i. lock_steps. }
  intros _. now apply keeps_lock_emit.
Qed.

Lemma keeps_lock_install_trans recovering :
  keeps_lock false false (install_trans recovering).
Proof.
  unfold install_trans, for_upto, buf_data, buf_store, brelse, bunpin.
  eapply keeps_lock_bind; [apply keeps_lock_gets |]. intros n.
  apply keeps_lock_for_loop. intros tail.
  eapply keeps_lock_bind; [apply keeps_lock_gets |]. intros dev.
  eapply keeps_lock_bind; [apply keeps_lock_gets |]. intros start.
  eapply keeps_lock_bind; [apply keeps_lock_bread |]. intros lbuf.
  eapply keeps_lock_bind; [apply keeps_lock_load_block |]. intros dst.
  eapply keeps_lock_bind; [apply keeps_lock_bread |]. intros dbuf.
  eapply keeps_lock_bind; [apply keeps_lock_gets |]. intros from.
  eapply keeps_lock_bind; [apply keeps_lock_gets |]. intros to.
  eapply keeps_lock_bind; [apply keeps_lock_modify; reflexivity |]. intros _.
  eapply keeps_lock_bind; [apply keeps_lock_bwrite |]. intros _.
  eapply keeps_lock_bind.
  { case_decide; [now apply keeps_lock_emit | apply keeps_lock_ret]. }
  intros _. eapply keeps_lock_bind; [now apply keeps_lock_emit |]. intros _.
  now apply keeps_lock_emit.
Qed.

Lemma keeps_lock_write_log : keeps_lock false false write_log.
Proof.
  unfold write_log, for_upto, buf_data, buf_store, brelse.
  eapply keeps_lock_bind; [apply keeps_lock_gets |]. intros n.
  apply keeps_lock_for_loop. intros tail.
  eapply keeps_lock_bind; [apply keeps_lock_gets |]. intros dev.
  eapply keeps_lock_bind; [apply keeps_lock_gets |]. intros start.
  eapply keeps_lock_bind; [apply keeps_lock_bread |]. intros lbuf.
  eapply keeps_lock_bind; [apply keeps_lock_load_block |]. intros dst.
  eapply keeps_lock_bind; [apply keeps_lock_bread |]. intros dbuf.
  eapply keeps_lock_bind; [apply keeps_lock_gets |]. intros from.
  eapply keeps_lock_bind; [apply keeps_lock_gets |]. intros to.
  eapply keeps_lock_bind; [apply keeps_lock_modify; reflexivity |]. intros _.
  eapply keeps_lock_bind; [apply keeps_lock_bwrite |]. intros _.
  eapply keeps_lock_bind; [now apply keeps_lock_emit |]. intros _.
  now apply keeps_lock_emit.
Qed.

Lemma keeps_lock_recover_from_log : keeps_lock false false recover_from_log.
Proof.
  unfold recover_from_log.
  eapply keeps_lock_bind; [apply keeps_lock_read_head |]. intros _.
  eapply keeps_lock_bind; [apply keeps_lock_install_trans |]. intros _.
  eapply keeps_lock_bind; [apply keeps_lock_modify; reflexivity |]. intros _.
  apply keeps_lock_write_head.
Qed.

Lemma keeps_lock_commit : keeps_lock false false commit.
Proof.
  unfold commit.
  eapply keeps_lock_bind; [apply keeps_lock_gets |]. intros n.
  case_decide; [| apply keeps_lock_ret].
  eapply keeps_lock_bind; [apply keeps_lock_write_log |]. intros _.
  eapply keeps_lock_bind; [apply keeps_lock_write_head |]. intros _.
  eapply keeps_lock_bind; [apply keeps_lock_install_trans |]. intros _.
  eapply keeps_lock_bind; [apply keeps_lock_modify; reflexivity |]. intros _.
  apply keeps_lock_write_head.
Qed.

Lemma keeps_lock_begin_op_loop passes : keeps_lock true false (begin_op_loop passes).
Proof.
  induction passes as [| passes IH]; simpl.
  - apply keeps_lock_stop.
  - eapply keeps_lock_bind; [apply keeps_lock_gets |]. intros l.
    unfold release.
    repeat case_decide.
    + eapply keeps_lock_bind; [apply keeps_lock_sleep | intros _; exact IH].
    + eapply keeps_lock_bind; [apply keeps_lock_sleep | intros _; exact IH].
    + eapply keeps_lock_bind; [apply keeps_lock_modify; reflexivity |]. intros _.
      now apply keeps_lock_emit.
Qed.

(** X12.  The calls of [log.c] respect the rules of [logV.lock].  Entered
    with the lock free, [initlog], [begin_op], [end_op], [log_write] and
    [commit] never acquire it twice, never release it when it is not held,
    sleep only while holding it, and make every disk read and write with
    the lock released ([commit] runs without it); each of them has released
    the lock when it returns. *)
Theorem lock_discipline dev sb b :
  keeps_lock false false (initlog dev sb) ∧
  keeps_lock false false begin_op ∧
  keeps_lock false false end_op ∧
  keeps_lock false false (log_write b) ∧
  keeps_lock false false commit.
Proof.
  split; [| split; [| split; [| split]]].
  - unfold initlog, initlock.
    eapply keeps_lock_bind.
    { case_decide; [apply keeps_lock_stop | apply keeps_lock_ret]. }
    intros _. eapply keeps_lock_bind; [now apply keeps_lock_emit |]. intros _.
    eapply keeps_lock_bind; [apply keeps_lock_modify; reflexivity |]. intros _.
    apply keeps_lock_recover_from_log.
  - unfold begin_op, acquire.
    eapply keeps_lock_bind; [now apply (keeps_lock_emit false true) |]. intros _.
    eapply keeps_lock_bind; [apply keeps_lock_gets |]. intros ws.
    apply keeps_lock_begin_op_loop.
  - unfold end_op, acquire, release, wakeup.
    eapply keeps_lock_bind; [now apply (keeps_lock_emit false true) |]. intros _.
    eapply keeps_lock_bind; [apply keeps_lock_modify; reflexivity |]. intros _.
    eapply keeps_lock_bind; [apply keeps_lock_gets |]. intros c.
    eapply keeps_lock_bind.
    { case_decide; [apply keeps_lock_stop | apply keeps_lock_ret]. }
    intros _. eapply keeps_lock_bind; [apply keeps_lock_gets |]. intros o.
    eapply (keeps_lock_bind true true).
    { case_decide.
      - eapply keeps_lock_bind; [apply keeps_lock_modify; reflexivity |]. intros _.
        apply keeps_lock_ret.
      - eapply keeps_lock_bind; [now apply (keeps_lock_emit true true) |]. intros _.
        apply keeps_lock_ret. }
    intros do_commit.
    eapply keeps_lock_bind; [now apply (keeps_lock_emit true false) |]. intros _.
    case_decide; [| apply keeps_lock_ret].
    eapply keeps_lock_bind; [apply keeps_lock_commit |]. intros _.
    eapply keeps_lock_bind; [now apply (keeps_lock_emit false true) |]. intros _.
    eapply keeps_lock_bind; [apply keeps_lock_modify; reflexivity |]. intros _.
    eapply keeps_lock_bind; [now apply (keeps_lock_emit true true) |]. intros _.
    now apply (keeps_lock_emit true false).
  - unfold log_write, acquire, release, bpin.
    eapply keeps_lock_bind; [now apply (keeps_lock_emit false true) |]. intros _.
    eapply keeps_lock_bind; [apply keeps_lock_gets |]. intros n.
    eapply keeps_lock_bind; [apply keeps_lock_gets |]. intros sz.
    eapply keeps_lock_bind.
    { case_decide; [apply keeps_lock_stop | apply keeps_lock_ret]. }
    intros _. eapply keeps_lock_bind; [apply keeps_lock_gets |]. intros o.
    eapply keeps_lock_bind.
    { case_decide; [apply keeps_lock_stop | apply keeps_lock_ret]. }
    intros _. eapply keeps_lock_bind; [apply keeps_lock_gets |]. intros blk.
    destruct (absorb_scan blk (blockno b) 0 (Z.to_nat n)) as [i |];
      [| apply keeps_lock_stop].
    eapply keeps_lock_bind; [apply keeps_lock_store_block |]. intros _.
    eapply (keeps_lock_bind true true).
    { case_decide; [| apply keeps_lock_ret].
      eapply keeps_lock_bind; [now apply (keeps_lock_emit true true) |]. intros _.
      apply keeps_lock_modify. reflexivity. }
    intros _. now apply (keeps_lock_emit true false).
  - apply keeps_lock_commit.
Qed.
End Lock.


(** ** Sequences of calls *)

Section Calls.
Context `{Params}.

(** The calls the file system makes into the log. *)
Inductive call : Type :=
  | BeginOp
  | EndOp
  | LogWrite (b : addr).

Definition do_call (c : call) : M unit :=
  match c with
  | BeginOp => begin_op
  | EndOp => end_op
  | LogWrite b => log_write b
  end.

Definition do_calls (cs : list call) : M unit :=
  foldr (fun c k => do_call c ;;; k) (ret tt) cs.

(** What holds of [logV] between calls. *)
Record log_inv (w : world) : Prop := {
  inv_n : 0 <= lh_n w <= LOGSIZE;
  inv_size : lh_n w = 0 ∨ lh_n w <= log.size (logV w) - 1;
  inv_array : length (lh_block w) = Z.to_nat LOGSIZE;
  inv_nodup : NoDup (entries w);
  inv_committing : log.committing (logV w) = 0;
  inv_empty : log.outstanding (logV w) <= 0 → lh_n w = 0
}.

Lemma log_write_at_frame b k w :
  wakeups (log_write_at b k w) = wakeups w ∧
  power (log_write_at b k w) = power w.
Proof. unfold log_write_at. now case_decide. Qed.

Lemma do_call_inv c w w' bound :
  power w = None → wakeups w = [] →
  Int.in_range (log.size (logV w) - 1) →
  0 < LOGSIZE <= Int.max_int → 0 < MAXOPBLOCKS →
  - bound <= log.outstanding (logV w) <= bound →
  (bound + 2) * MAXOPBLOCKS + LOGSIZE <= Int.max_int →
  log_inv w →
  do_call c w = Ok tt w' →
  power w' = None ∧ wakeups w' = [] ∧
  log.size (logV w') = log.size (logV w) ∧
  - (bound + 1) <= log.outstanding (logV w') <= bound + 1 ∧
  log_inv w'.
Proof.
  intros Hp Hws Hsz HL HM Ho Hb [In Is Ia Ind Ic Ie] Hrun.
  assert (no_overflow (logV w)) as Hno.
  { unfold no_overflow, Int.in_range, Int.min_int, Int.max_int, lh_n in *. nia. }
  destruct c as [| | b]; simpl in Hrun.
  - (* begin_op *)
    destruct (decide (admits (logV w))) as [Hadm | Hna].
    2: { destruct (begin_op_blocked w Hws Hno Hna) as (w'' & E). congruence. }
    rewrite (begin_op_admitted w Hno Hadm) in Hrun. injection Hrun as <-.
    simpl. split; [done |]. split; [done |]. split; [done |]. split; [lia |].
    split; try done. simpl. intros Hle. apply Ie. lia.
  - (* end_op *)
    assert (Int.in_range (log.outstanding (logV w) - 1)) as Hr.
    { unfold Int.in_range, Int.min_int, Int.max_int in *. nia. }
    destruct (end_op_run w Hr Ic) as (Hne & He & _).
    destruct (decide (log.outstanding (logV w) - 1 = 0)) as [Hz | Hnz].
    + set (w2 := add_events [ERelease]
                   (set_logV (with_committing 1)
                      (set_logV (with_outstanding (log.outstanding (logV w) - 1))
                         (add_events [EAcquire] w)))) in *.
      assert (∃ w3, commit w2 = Ok tt w3 ∧ power w3 = None ∧ wakeups w3 = [] ∧
                    logV w3 = with_n 0 (logV w2)) as (w3 & E3 & Hp3 & Hw3 & L3).
      { destruct (decide (lh_n w = 0)) as [Hn0 | Hn0].
        - exists w2. split; [apply commit_idle; change (lh_n w2) with (lh_n w); lia |].
          split; [done |]. split; [done |].
          unfold with_n, with_lh. simpl. unfold lh_n in Hn0. rewrite <- Hn0.
          now destruct (logV w) as [? ? ? ? ? []].
        - destruct (commit_shape w2) as (w3 & E3 & R3).
          + done.
          + change (lh_n w2) with (lh_n w). lia.
          + change (lh_n w2) with (lh_n w). change (lh_block w2) with (lh_block w). lia.
          + exists w3. split; [done |]. split; [apply (ran_power _ _ _ _ _ _ R3) |].
            split; [now rewrite (ran_wakeups _ _ _ _ _ _ R3) |].
            apply (ran_logV _ _ _ _ _ _ R3). }
      rewrite (He Hz w3 E3) in Hrun. injection Hrun as <-.
      match goal with |- context [log_inv ?x] => set (wf := x) end.
      assert (logV wf = with_committing 0 (with_n 0 (logV w2))) as Lf
        by (unfold wf; simpl; now rewrite L3).
      split; [done |]. split; [done |].
      split; [now rewrite Lf |]. split; [rewrite Lf; simpl; lia |].
      split; unfold entries, lh_n, lh_block; rewrite Lf; simpl;
        first [done | lia | now left | apply NoDup_nil_2].
    + rewrite (Hne Hnz) in Hrun. injection Hrun as <-.
      simpl. split; [done |]. split; [done |]. split; [done |]. split; [lia |].
      split; try done. simpl. intros Hle. apply Ie. lia.
  - (* log_write *)
    destruct (log_write_ok b w w' Hsz Ia HL ltac:(lia) Hrun)
      as (Hnp & He & Hn' & _ & F).
    destruct (log_write_run b w Hsz ltac:(lia) ltac:(lia) Hnp) as (k & _ & _ & _ & E).
    rewrite E in Hrun. injection Hrun as Hw'.
    destruct (log_write_at_frame b k w) as [Hwk Hpw]. rewrite Hw' in Hwk, Hpw.
    unfold log_write_panics in Hnp.
    assert (length (entries w) = Z.to_nat (lh_n w)) as Hlen
      by (apply length_entries; lia).
    assert (Z.of_nat (length (entries w')) <= lh_n w + 1) as Hgrow.
    { rewrite He. unfold absorb. case_decide; rewrite ?length_app; simpl; lia. }
    split; [congruence |]. split; [congruence |].
    split; [apply (lwf_size _ _ F) |].
    split; [rewrite (lwf_outstanding _ _ F); lia |].
    split.
    + lia.
    + right. rewrite (lwf_size _ _ F). lia.
    + now rewrite (lwf_length _ _ F).
    + rewrite He. now apply NoDup_absorb.
    + now rewrite (lwf_committing _ _ F).
    + rewrite (lwf_outstanding _ _ F). lia.
Qed.

Lemma do_calls_inv cs : ∀ w w' bound,
  power w = None → wakeups w = [] →
  Int.in_range (log.size (logV w) - 1) →
  0 < LOGSIZE <= Int.max_int → 0 < MAXOPBLOCKS →
  - bound <= log.outstanding (logV w) <= bound →
  (bound + Z.of_nat (length cs) + 1) * MAXOPBLOCKS + LOGSIZE <= Int.max_int →
  log_inv w →
  do_calls cs w = Ok tt w' →
  log_inv w'.
Proof.
  induction cs as [| c cs IH]; intros w w' bound Hp Hws Hsz HL HM Ho Hb Hinv Hrun.
  - now injection Hrun as <-.
  - simpl in Hrun. unfold bind in Hrun.
    destruct (do_call c w) as [[] w1 | h w1] eqn:E1; [| done].
    simpl length in Hb.
    destruct (do_call_inv c w w1 bound Hp Hws Hsz HL HM Ho ltac:(nia) Hinv E1)
      as (Hp1 & Hw1 & Hs1 & Ho1 & Hinv1).
    apply (IH w1 w' (bound + 1)); first [done | now rewrite Hs1 | lia | nia].
Qed.

(** X13.  The invariants [log.c] keeps.  Whatever sequence of [begin_op],
    [end_op] and [log_write] calls one thread makes, with nobody else in
    the log, if the calls all return then afterwards, as before:
    [0 ≤ lh.n ≤ LOGSIZE]; [lh.n] is 0 or at most [size − 1]; the logged
    block numbers are pairwise distinct; [committing] is clear; and the log
    is empty whenever no system call is in flight ([outstanding ≤ 0]
    implies [lh.n = 0]): what was logged has been committed by the [end_op]
    that brought [outstanding] to 0. *)
Theorem calls_keep_invariants cs w w' :
  power w = None → wakeups w = [] →
  Int.in_range (log.size (logV w) - 1) →
  0 < LOGSIZE <= Int.max_int → 0 < MAXOPBLOCKS →
  (Z.abs (log.outstanding (logV w)) + Z.of_nat (length cs) + 1) * MAXOPBLOCKS
  + LOGSIZE <= Int.max_int →
  log_inv w →
  do_calls cs w = Ok tt w' →
  log_inv w'.
Proof.
  intros Hp Hws Hsz HL HM Hb Hinv Hrun.
  apply (do_calls_inv cs w w' (Z.abs (log.outstanding (logV w)))); try done. lia.
Qed.
End Calls.


(** ** A system call, from [begin_op] to [end_op] *)

Section SystemCall.
Context `{Params}.

(** One logged update, as the comment above [log_write] gives its use:
    [bp = bread(...)], modify [bp->data[]], [log_write(bp)], [brelse(bp)];
    [d] is what the caller leaves in the buffer. *)
Definition logged_update (dev blk : Z) (d : bdata) : M unit :=
  bp <- bread dev blk ;;
  buf_store bp d ;;;
  log_write bp ;;;
  brelse bp.

Definition logged_updates (dev : Z) (ups : list (Z * bdata)) : M unit :=
  foldr (fun u k => logged_update dev u.1 u.2 ;;; k) (ret tt) ups.

(** A system call: its updates between [begin_op] and [end_op]. *)
Definition system_call (dev : Z) (ups : list (Z * bdata)) : M unit :=
  begin_op ;;; logged_updates dev ups ;;; end_op.

(** The contents last written to each block. *)
Definition written_onto (m : gmap Z bdata) (ups : list (Z * bdata)) : gmap Z bdata :=
  foldl (fun m u => <[u.1 := u.2]> m) m ups.

Definition written (ups : list (Z * bdata)) : gmap Z bdata := written_onto ∅ ups.

Lemma written_onto_keys ups : ∀ m b,
  is_Some (written_onto m ups !! b) → is_Some (m !! b) ∨ b ∈ ups.*1.
Proof.
  induction ups as [| [blk d] ups IH]; intros m b Hb; simpl in *; [now left |].
  destruct (IH _ _ Hb) as [Hm | Hin].
  - destruct (decide (b = blk)) as [-> | Hne].
    + right. apply list_elem_of_here.
    + left. now rewrite lookup_insert_ne in Hm.
  - right. now apply list_elem_of_further.
Qed.

Lemma content_ext w1 w2 a :
  cache w1 = cache w2 → disk w1 = disk w2 → content w1 a = content w2 a.
Proof. intros Hc Hd. unfold content. now rewrite Hc, Hd. Qed.

(** The state of a system call that has made some of its updates: [m] holds
    what it has written so far, in at most [k] updates. *)
Record updating (w0 w : world) (m : gmap Z bdata) (k : Z) : Prop := {
  up_wf : wf_store w;
  up_start : log.start (logV w) = log.start (logV w0);
  up_size : log.size (logV w) = log.size (logV w0);
  up_dev : log.dev (logV w) = log.dev (logV w0);
  up_outstanding : log.outstanding (logV w) = log.outstanding (logV w0);
  up_committing : log.committing (logV w) = log.committing (logV w0);
  up_array : length (lh_block w) = Z.to_nat LOGSIZE;
  up_n : 0 <= lh_n w <= k;
  up_nodup : NoDup (entries w);
  up_entries : ∀ b, b ∈ entries w ↔ is_Some (m !! b);
  up_content : ∀ b d, m !! b = Some d → content w (log.dev (logV w0), b) = d;
  up_disk : disk w = disk w0;
  up_writes : writes (trace w) = writes (trace w0)
}.

(** The machine once an I/O call has been let through. *)
Definition after_io (w : world) : world :=
  set_power (match power w with Some (S k) => Some k | p => p end) w.

Lemma bread_cases dev blk w :
  (power w = Some O ∧ bread dev blk w = Halt PowerLoss w) ∨
  (power w ≠ Some O ∧
   bread dev blk w
   = Ok (dev, blk)
       (add_events [EBread (dev, blk)]
          (set_cache (insert (dev, blk) (content w (dev, blk))) (after_io w)))).
Proof.
  unfold bread, io_point, bind at 1, after_io.
  destruct w as [l d c [[| k] |] ws t]; simpl; [left | right | right]; done.
Qed.

Lemma bind_halt {A B} (m : M A) (k : A → M B) w h w1 :
  m w = Halt h w1 → bind m k w = Halt h w1.
Proof. unfold bind. now intros ->. Qed.

Lemma logged_update_step w0 w m k blk d :
  updating w0 w m k →
  Int.in_range (log.size (logV w0) - 1) →
  0 < LOGSIZE <= Int.max_int →
  k < LOGSIZE → k < log.size (logV w0) - 1 →
  1 <= log.outstanding (logV w0) →
  length d = Z.to_nat BSIZE →
  match logged_update (log.dev (logV w0)) blk d w with
  | Ok _ w' => updating w0 w' (<[blk := d]> m) (k + 1) ∧
               (power w = None → power w' = None)
  | Halt PowerLoss w' => power w ≠ None ∧ disk w' = disk w0
  | Halt _ _ => False
  end.
Proof.
  intros [Hwf Hst Hsz Hdev Hout Hcom Harr Hn Hnd Hent Hcont Hdisk Hwrites]
    Hr HL Hk1 Hk2 Ho Hd.
  set (dev := log.dev (logV w0)) in *.
  destruct (bread_cases dev blk w) as [[Hp0 Eb] | [Hp0 Eb]].
  { unfold logged_update. rewrite (bind_halt _ _ _ _ _ Eb).
    split; [congruence | done]. }
  set (wa := add_events [EBread (dev, blk)]
               (set_cache (insert (dev, blk) (content w (dev, blk))) (after_io w))) in *.
  set (wb := set_cache (insert (dev, blk) d) wa).
  assert (¬ log_write_panics wb) as Hnp.
  { unfold log_write_panics. change (lh_n wb) with (lh_n w).
    change (logV wb) with (logV w). rewrite Hsz, Hout. lia. }
  assert (Int.in_range (log.size (logV wb) - 1)) as Hrb
    by (change (logV wb) with (logV w); now rewrite Hsz).
  destruct (log_write_run (dev, blk) wb Hrb) as (j & _ & _ & _ & Ec); try done.
  { change (lh_block wb) with (lh_block w). lia. }
  { lia. }
  set (wc := log_write_at (dev, blk) j wb) in *.
  destruct (log_write_ok (dev, blk) wb wc Hrb) as (_ & He & Hn' & _ & F); try done.
  { change (lh_n wb) with (lh_n w). lia. }
  change (entries wb) with (entries w) in He. simpl in He.
  assert (∀ x, content wc x = if decide (x = (dev, blk)) then d else content w x) as Hcc.
  { intros x.
    rewrite (content_ext wc wb) by (apply (lwf_cache _ _ F) || apply (lwf_disk _ _ F)).
    unfold content at 1. simpl. case_decide as Hx.
    - subst x. now rewrite lookup_insert_eq.
    - rewrite lookup_insert_ne by done.
      destruct (decide (x = (dev, blk))) as [-> | Hx']; [done |].
      rewrite lookup_insert_ne by done. reflexivity. }
  assert (logged_update dev blk d w = Ok tt (add_events [EBrelse (dev, blk)] wc)) as ->.
  { unfold logged_update. rewrite (bind_ok _ _ _ _ _ Eb).
    unfold buf_store. rewrite bind_modify. fold wb.
    now rewrite (bind_ok _ _ _ _ _ Ec). }
  assert (Z.of_nat (length (entries wc)) <= lh_n w + 1) as Hgrow.
  { rewrite He. unfold absorb.
    assert (length (entries w) = Z.to_nat (lh_n w)) by (apply length_entries; lia).
    case_decide; rewrite ?length_app; simpl; lia. }
  assert (power wc = power (after_io w)) as Hpc by apply (lwf_power _ _ F).
  assert (writes (trace wc) = writes (trace w0)) as Hwc.
  { rewrite (lwf_writes _ _ F). simpl. rewrite writes_app. simpl.
    now rewrite app_nil_r. }
  clearbody wc.
  split; [| intros Hp; change (power wc = None); rewrite Hpc; unfold after_io; simpl;
            now rewrite Hp].
  split.
  - change (wf_store wc). split.
    + rewrite (lwf_disk _ _ F). apply Hwf.
    + rewrite (lwf_cache _ _ F). simpl.
      apply map_Forall_insert_2; [done |].
      apply map_Forall_insert_2; [now apply length_content | apply Hwf].
  - change (log.start (logV wc) = log.start (logV w0)). now rewrite (lwf_start _ _ F).
  - change (log.size (logV wc) = log.size (logV w0)). now rewrite (lwf_size _ _ F).
  - change (log.dev (logV wc) = log.dev (logV w0)). now rewrite (lwf_dev _ _ F).
  - change (log.outstanding (logV wc) = log.outstanding (logV w0)).
    now rewrite (lwf_outstanding _ _ F).
  - change (log.committing (logV wc) = log.committing (logV w0)).
    now rewrite (lwf_committing _ _ F).
  - change (length (lh_block wc) = Z.to_nat LOGSIZE). now rewrite (lwf_length _ _ F).
  - change (lh_n (add_events [EBrelse (dev, blk)] wc)) with (lh_n wc). lia.
  - change (entries (add_events [EBrelse (dev, blk)] wc)) with (entries wc).
    rewrite He. now apply NoDup_absorb.
  - intros b.
    change (entries (add_events [EBrelse (dev, blk)] wc)) with (entries wc).
    rewrite He. unfold absorb.
    destruct (decide (b = blk)) as [-> | Hne].
    + rewrite lookup_insert_eq. split; [eauto |]. intros _.
      case_decide; [done |]. apply elem_of_app. right. apply list_elem_of_here.
    + rewrite lookup_insert_ne by done. rewrite <- Hent.
      case_decide; [done |]. rewrite elem_of_app, list_elem_of_singleton. tauto.
  - intros b d' Hb.
    change (content wc (dev, b) = d').
    rewrite Hcc. destruct (decide (b = blk)) as [-> | Hne].
    + rewrite lookup_insert_eq in Hb. injection Hb as <-. now rewrite decide_True.
    + rewrite lookup_insert_ne in Hb by done.
      rewrite decide_False by congruence. now apply Hcont.
  - change (disk wc = disk w0). now rewrite (lwf_disk _ _ F).
  - simpl. rewrite writes_app. simpl. now rewrite app_nil_r.
Qed.

Lemma logged_updates_run w0 ups : ∀ w m k,
  updating w0 w m k →
  Int.in_range (log.size (logV w0) - 1) →
  0 < LOGSIZE <= Int.max_int →
  k + Z.of_nat (length ups) <= LOGSIZE →
  k + Z.of_nat (length ups) <= log.size (logV w0) - 1 →
  1 <= log.outstanding (logV w0) →
  Forall (fun u => length u.2 = Z.to_nat BSIZE) ups →
  match logged_updates (log.dev (logV w0)) ups w with
  | Ok _ w' => updating w0 w' (written_onto m ups) (k + Z.of_nat (length ups)) ∧
               (power w = None → power w' = None)
  | Halt PowerLoss w' => power w ≠ None ∧ disk w' = disk w0
  | Halt _ _ => False
  end.
Proof.
  induction ups as [| [blk d] ups IH]; intros w m k Hup Hr HL Hk1 Hk2 Ho Hlen.
  - simpl. now rewrite Z.add_0_r.
  - apply Forall_cons in Hlen as [Hd Hlen]. simpl length in *.
    pose proof (logged_update_step w0 w m k blk d Hup Hr HL
                  ltac:(lia) ltac:(lia) Ho Hd) as Hstep.
    simpl. unfold bind at 1.
    destruct (logged_update (log.dev (logV w0)) blk d w) as [[] w1 | h w1]; [| exact Hstep].
    destruct Hstep as [Hup1 Hp1].
    pose proof (IH w1 (<[blk := d]> m) (k + 1) Hup1 Hr HL
                  ltac:(lia) ltac:(lia) Ho Hlen) as Hrest.
    destruct (logged_updates (log.dev (logV w0)) ups w1) as [[] w' | [] w']; try done.
    + destruct Hrest as [Hup' Hp']. split; [| auto].
      now replace (k + Z.of_nat (S (length ups)))
        with (k + 1 + Z.of_nat (length ups)) by lia.
    + destruct Hrest as [Hne Hdisk]. split; [| done].
      intros Hp. now apply Hne, Hp1.
Qed.

(** A log at rest: no call in flight, no commit running, nothing logged;
    the log region is made of valid block numbers. *)
Record idle (w : world) : Prop := {
  idle_power : power w = None;
  idle_wf : wf_store w;
  idle_committing : log.committing (logV w) = 0;
  idle_outstanding : log.outstanding (logV w) = 0;
  idle_n : lh_n w = 0;
  idle_array : length (lh_block w) = Z.to_nat LOGSIZE;
  idle_start : 0 <= log.start (logV w);
  idle_region : log.start (logV w) + log.size (logV w) <= Int.max_int + 1
}.

(** What a system call may write: at most [LOGSIZE] blocks, fewer than
    the log region has, each outside the log region and [BSIZE] bytes
    long. *)
Definition loggable (w : world) (ups : list (Z * bdata)) : Prop :=
  Z.of_nat (length ups) <= LOGSIZE ∧
  Z.of_nat (length ups) < log.size (logV w) ∧
  Forall (fun u => ¬ in_log_region (logV w) u.1 ∧ length u.2 = Z.to_nat BSIZE) ups.

(** The [end_op] of the last call out: it commits what the calls have
    written. *)
Lemma last_end_op w0 w2 m k :
  updating w0 w2 m k →
  power w2 = None →
  log.outstanding (logV w0) = 1 →
  log.committing (logV w0) = 0 →
  0 <= log.start (logV w0) →
  log.start (logV w0) + log.size (logV w0) <= Int.max_int + 1 →
  k <= LOGSIZE →
  k < log.size (logV w0) →
  (∀ b, is_Some (m !! b) → ¬ in_log_region (logV w0) b) →
  let dev := log.dev (logV w0) in
  ∃ w', end_op w2 = Ok tt w' ∧
        idle w' ∧
        log.start (logV w') = log.start (logV w0) ∧
        log.size (logV w') = log.size (logV w0) ∧
        log.dev (logV w') = dev ∧
        (∀ blk d, m !! blk = Some d → disk_read (disk w') (dev, blk) = d) ∧
        (∀ x, x.1 ≠ dev ∨ (¬ in_log_region (logV w0) x.2 ∧ m !! x.2 = None) →
           disk_read (disk w') x = disk_read (disk w0) x).
Proof.
  intros [Hwf2 Hst2 Hsz2 Hdev2 Hout2 Hcom2 Harr2 Hn2 Hnd2 Hent2 Hcont2 Hdisk2 _]
    Hp2 Ho Hc Hs0 Hs1 HkL Hk Hout dev.
  destruct (end_op_run w2) as (_ & Hend & _).
  { rewrite Hout2, Ho. unfold Int.in_range, Int.min_int, Int.max_int. lia. }
  { now rewrite Hcom2. }
  set (w2' := add_events [ERelease]
                (set_logV (with_committing 1)
                   (set_logV (with_outstanding (log.outstanding (logV w2) - 1))
                      (add_events [EAcquire] w2)))) in *.
  assert (∀ b, b ∈ entries w2 → ¬ in_log_region (logV w0) b) as Hhomes.
  { intros b Hb. apply Hout. now apply Hent2. }
  assert (∃ w3, commit w2' = Ok tt w3 ∧ logV w3 = with_n 0 (logV w2') ∧
            power w3 = None ∧ wf_store w3 ∧
            (∀ b, b ∈ entries w2 →
               disk_read (disk w3) (dev, b) = content w2 (dev, b)) ∧
            (∀ x, x.1 ≠ dev ∨ (¬ in_log_region (logV w0) x.2 ∧ x.2 ∉ entries w2) →
               disk_read (disk w3) x = disk_read (disk w2) x))
    as (w3 & E3 & L3 & Hp3 & Hwf3 & Hhome3 & Hrest3).
  { destruct (decide (lh_n w2 = 0)) as [Hz | Hnz].
    - exists w2'. split; [apply commit_idle; change (lh_n w2') with (lh_n w2); lia |].
      split.
      { unfold with_n, with_lh. simpl. unfold lh_n in Hz. rewrite <- Hz.
        now destruct (logV w2) as [? ? ? ? ? []]. }
      split; [done |]. split; [done |]. split; [| done].
      intros b Hb. unfold entries in Hb. rewrite Hz in Hb. now apply not_elem_of_nil in Hb.
    - assert (region_ok (logV w2') (lh_n w2')) as Hreg.
      { unfold region_ok. change (lh_n w2') with (lh_n w2). simpl.
        rewrite Hst2, Hsz2. lia. }
      assert (layout (logV w2') (entries w2')) as Hlay.
      { apply layout_region.
        - change (entries w2') with (entries w2).
          rewrite length_entries by lia.
          change (lh_n w2') with (lh_n w2) in Hreg.
          now replace (Z.of_nat (Z.to_nat (lh_n w2))) with (lh_n w2) by lia.
        - exact Hnd2.
        - apply Forall_forall. intros b Hb. specialize (Hhomes b Hb).
          unfold in_log_region in *. simpl. now rewrite Hst2, Hsz2. }
      destruct (spec_returns commit w2' (fun _ w3 => finished w2' w3))
        as ([] & w3 & E3 & F).
      { apply commit_spec; try done; try (intros Hp'; now exfalso);
          change (lh_n w2') with (lh_n w2); change (lh_block w2') with (lh_block w2); lia. }
      exists w3. split; [exact E3 |]. split; [apply (fin_logV _ _ F) |].
      split; [now apply (fin_power _ _ F) |]. split; [apply (fin_wf _ _ F) |].
      assert (home_addr (logV w2') = fun b => (dev, b)) as Hha
        by (unfold home_addr; simpl; now rewrite Hdev2).
      split.
      + intros b (i & Hi)%list_elem_of_lookup_1.
        pose proof (fin_homes _ _ F i b Hi) as Hh. now rewrite Hha in Hh.
      + intros [dev' b'] Hx. simpl in Hx.
        apply (fin_rest _ _ F).
        * unfold head_addr. simpl. rewrite Hdev2, Hst2. intros [= -> ->].
          destruct Hx as [? | [Hx _]]; [done |]. apply Hx.
          unfold in_log_region. change (lh_n w2') with (lh_n w2) in Hreg.
          destruct Hreg as (_ & _ & Hlt). simpl in Hlt. rewrite Hsz2 in Hlt. lia.
        * intros i Hi. change (entries w2') with (entries w2) in Hi.
          rewrite length_entries in Hi by lia.
          rewrite (slot_addr_exact _ _ i Hreg) by (change (lh_n w2') with (lh_n w2); lia).
          simpl. rewrite Hdev2, Hst2. intros [= -> ->].
          destruct Hx as [? | [Hx _]]; [done |]. apply Hx.
          unfold in_log_region. lia.
        * intros b Hb. rewrite Hha. intros [= -> ->].
          destruct Hx as [? | [_ Hx]]; [done |]. now apply Hx. }
  specialize (Hend ltac:(rewrite Hout2, Ho; lia) w3 E3).
  set (wf := add_events [EAcquire; EWakeup; ERelease]
               (set_logV (with_committing 0) w3)) in *.
  assert (logV wf = with_committing 0 (with_n 0 (logV w2'))) as Lf
    by (unfold wf; simpl; now rewrite L3).
  exists wf. split; [exact Hend |].
  change (disk wf) with (disk w3).
  split; [| split; [| split; [| split; [| split]]]].
  - split.
    + exact Hp3.
    + exact Hwf3.
    + now rewrite Lf.
    + rewrite Lf. simpl. rewrite Hout2, Ho. lia.
    + unfold lh_n. now rewrite Lf.
    + unfold lh_block. rewrite Lf. exact Harr2.
    + rewrite Lf. simpl. now rewrite Hst2.
    + rewrite Lf. simpl. now rewrite Hst2, Hsz2.
  - rewrite Lf. simpl. exact Hst2.
  - rewrite Lf. simpl. exact Hsz2.
  - rewrite Lf. simpl. exact Hdev2.
  - intros blk d Hb. rewrite Hhome3.
    + now apply Hcont2.
    + apply Hent2. eauto.
  - intros x Hx. rewrite Hrest3, Hdisk2; [done |].
    destruct Hx as [? | [Hx1 Hx2]]; [now left | right].
    split; [done |]. intros [d0 Hd0]%Hent2. unfold bdata in *. congruence.
Qed.

Lemma loggable_outside w ups b :
  loggable w ups → is_Some (written ups !! b) → ¬ in_log_region (logV w) b.
Proof.
  intros (_ & _ & Hups) Hb.
  destruct (written_onto_keys ups ∅ b Hb) as [[? Hm] | Hin];
    [now rewrite lookup_empty in Hm |].
  apply list_elem_of_fmap in Hin as ([blk d] & -> & Hin).
  rewrite Forall_forall in Hups. now apply (Hups _ Hin).
Qed.

Lemma system_call_run ups w :
  idle w →
  0 < MAXOPBLOCKS <= LOGSIZE → LOGSIZE <= Int.max_int →
  loggable w ups →
  let dev := log.dev (logV w) in
  ∃ w', system_call dev ups w = Ok tt w' ∧
        idle w' ∧
        log.start (logV w') = log.start (logV w) ∧
        log.size (logV w') = log.size (logV w) ∧
        log.dev (logV w') = dev ∧
        (∀ blk d, written ups !! blk = Some d →
           disk_read (disk w') (dev, blk) = d) ∧
        (∀ x, x.1 ≠ dev ∨ (¬ in_log_region (logV w) x.2 ∧ written ups !! x.2 = None) →
           disk_read (disk w') x = disk_read (disk w) x).
Proof.
  intros [Hp Hwf Hc Ho Hn Harr Hs0 Hs1] HM HL Hlog dev.
  pose proof Hlog as (Hl1 & Hl2 & Hups).
  unfold bdata in *.
  (* begin_op *)
  assert (no_overflow (logV w)) as Hno.
  { unfold no_overflow, Int.in_range, Int.min_int, Int.max_int, lh_n in *.
    rewrite Ho, Hn. lia. }
  assert (admits (logV w)) as Hadm.
  { split; [done |]. unfold lh_n in Hn. rewrite Ho, Hn. lia. }
  pose proof (begin_op_admitted w Hno Hadm) as E1.
  set (w1 := add_events [ERelease]
               (set_logV (with_outstanding (log.outstanding (logV w) + 1))
                  (add_events [EAcquire] w))) in *.
  assert (updating w1 w1 ∅ 0) as Hup1.
  { split; try done.
    - change (lh_n w1) with (lh_n w). lia.
    - change (entries w1) with (entries w). unfold entries. rewrite Hn. apply NoDup_nil_2.
    - intros b. change (entries w1) with (entries w). unfold entries. rewrite Hn. simpl.
      rewrite lookup_empty. split; [intros Hb; now apply not_elem_of_nil in Hb |].
      intros [? ?]. done. }
  (* the updates *)
  assert (Int.in_range (log.size (logV w1) - 1)) as A1.
  { change (log.size (logV w1)) with (log.size (logV w)).
    unfold Int.in_range, Int.min_int, Int.max_int in *. lia. }
  assert (0 + Z.of_nat (length ups) <= log.size (logV w1) - 1) as A4
    by (change (log.size (logV w1)) with (log.size (logV w)); lia).
  assert (1 <= log.outstanding (logV w1)) as A5
    by (change (log.outstanding (logV w1)) with (log.outstanding (logV w) + 1); lia).
  assert (Forall (fun u : Z * list Z => length u.2 = Z.to_nat BSIZE) ups) as A6
    by (eapply Forall_impl; [exact Hups |]; now intros u [_ ?]).
  pose proof (logged_updates_run w1 ups w1 ∅ 0 Hup1 A1 ltac:(lia) ltac:(lia) A4 A5 A6)
    as Hrun.
  destruct (logged_updates (log.dev (logV w1)) ups w1) as [[] w2 | h w2] eqn:E2.
  2: { destruct h; try done. now destruct Hrun as [Hne _]. }
  destruct Hrun as [Hup2 Hp2].
  specialize (Hp2 Hp).
  change (log.dev (logV w1)) with dev in E2.
  fold (written ups) in Hup2.
  (* end_op *)
  destruct (last_end_op w1 w2 (written ups) (0 + Z.of_nat (length ups)) Hup2 Hp2)
    as (w' & E3 & Hidle & Hrest).
  { simpl. lia. }
  { exact Hc. }
  { exact Hs0. }
  { exact Hs1. }
  { lia. }
  { change (log.size (logV w1)) with (log.size (logV w)). lia. }
  { intros b Hb. now apply (loggable_outside w ups). }
  exists w'. split; [| split; [exact Hidle | exact Hrest]].
  unfold system_call.
  now rewrite (bind_ok _ _ _ _ _ E1), (bind_ok _ _ _ _ _ E2).
Qed.

(** X14.  A system call that is alone in the log gets its updates on disk.
    Started with no call in flight and an empty log, [begin_op], the
    updates, each made through [bread], [log_write] and [brelse], and
    [end_op] all return; every block the call has written is then on disk,
    at its home, with the contents last written to it (a block written
    several times is logged once, with its last contents); every block
    that is neither written nor in the log region is as before; and the log
    is empty again, with no call in flight. *)
Theorem system_call_durable ups w :
  power w = None →
  wf_store w →
  log.committing (logV w) = 0 →
  log.outstanding (logV w) = 0 →
  lh_n w = 0 →
  length (lh_block w) = Z.to_nat LOGSIZE →
  0 < MAXOPBLOCKS <= LOGSIZE → LOGSIZE <= Int.max_int →
  0 <= log.start (logV w) →
  log.start (logV w) + log.size (logV w) <= Int.max_int + 1 →
  Z.of_nat (length ups) <= LOGSIZE →
  Z.of_nat (length ups) < log.size (logV w) →
  Forall (fun u => ¬ in_log_region (logV w) u.1 ∧ length u.2 = Z.to_nat BSIZE) ups →
  let dev := log.dev (logV w) in
  ∃ w', system_call dev ups w = Ok tt w' ∧
        (∀ blk d, written ups !! blk = Some d →
           disk_read (disk w') (dev, blk) = d) ∧
        (∀ x, x.1 ≠ dev ∨ (¬ in_log_region (logV w) x.2 ∧ written ups !! x.2 = None) →
           disk_read (disk w') x = disk_read (disk w) x) ∧
        lh_n w' = 0 ∧
        log.outstanding (logV w') = 0 ∧
        log.committing (logV w') = 0.
Proof.
  intros Hp Hwf Hc Ho Hn Harr HM HL Hs0 Hs1 Hl1 Hl2 Hups dev.
  destruct (system_call_run ups w) as (w' & E & Hidle & _ & _ & _ & Hw & Hrest);
    [now split | done | done | now split |].
  exists w'. split; [exact E |]. split; [exact Hw |]. split; [exact Hrest |].
  destruct Hidle. done.
Qed.

(** System calls one after the other. *)
Definition system_calls (dev : Z) (calls : list (list (Z * bdata))) : M unit :=
  foldr (fun ups k => system_call dev ups ;;; k) (ret tt) calls.

Lemma written_onto_lookup ups : ∀ m b,
  written_onto m ups !! b
  = match written ups !! b with Some d => Some d | None => m !! b end.
Proof.
  unfold written.
  induction ups as [| [blk d] ups IH]; intros m b; simpl; [now rewrite lookup_empty |].
  rewrite IH, (IH (<[blk := d]> ∅)).
  destruct (written_onto ∅ ups !! b); [done |].
  destruct (decide (b = blk)) as [-> | Hne].
  - now rewrite !lookup_insert_eq.
  - now rewrite !lookup_insert_ne, lookup_empty by done.
Qed.

Lemma written_app ups1 ups2 b :
  written (ups1 ++ ups2) !! b
  = match written ups2 !! b with Some d => Some d | None => written ups1 !! b end.
Proof.
  unfold written at 1, written_onto. rewrite foldl_app.
  apply written_onto_lookup.
Qed.

Lemma written_keys ups b : is_Some (written ups !! b) → b ∈ ups.*1.
Proof.
  intros Hb. destruct (written_onto_keys ups ∅ b Hb) as [[? Hm] | Hin]; [| done].
  now rewrite lookup_empty in Hm.
Qed.

(** X15.  After any sequence of system calls made one at a time, each
    through [begin_op], logged updates and [end_op], every block holds on
    disk the contents the last call that wrote it left there, every block
    that no call wrote and that is outside the log region is untouched, and
    the log is at rest again. *)
Theorem system_calls_durable calls : ∀ w,
  idle w →
  0 < MAXOPBLOCKS <= LOGSIZE → LOGSIZE <= Int.max_int →
  Forall (loggable w) calls →
  let dev := log.dev (logV w) in
  ∃ w', system_calls dev calls w = Ok tt w' ∧
        idle w' ∧
        (∀ blk d, written (concat calls) !! blk = Some d →
           disk_read (disk w') (dev, blk) = d) ∧
        (∀ x, x.1 ≠ dev ∨
              (¬ in_log_region (logV w) x.2 ∧ written (concat calls) !! x.2 = None) →
           disk_read (disk w') x = disk_read (disk w) x).
Proof.
  induction calls as [| ups calls IH]; intros w Hidle HM HL Hcalls dev.
  - exists w. split; [done |]. split; [done |]. split; [| done].
    intros blk d Hb. unfold written in Hb. simpl in Hb. now rewrite lookup_empty in Hb.
  - apply Forall_cons in Hcalls as [Hups Hcalls].
    destruct (system_call_run ups w Hidle HM HL Hups)
      as (w1 & E1 & Hidle1 & Hst1 & Hsz1 & Hdev1 & Hw1 & Hrest1).
    fold dev in E1, Hdev1, Hw1, Hrest1.
    assert (∀ b, in_log_region (logV w1) b ↔ in_log_region (logV w) b) as Hreg.
    { intros b. unfold in_log_region. now rewrite Hst1, Hsz1. }
    destruct (IH w1 Hidle1 HM HL) as (w' & E & Hidle' & Hw' & Hrest').
    { eapply Forall_impl; [exact Hcalls |].
      intros ups' (H1 & H2 & H3). split; [done |]. split; [now rewrite Hsz1 |].
      eapply Forall_impl; [exact H3 |]. intros u [H4 H5]. split; [| done].
      now rewrite Hreg. }
    rewrite Hdev1 in E, Hw', Hrest'.
    exists w'. split.
    { simpl. now rewrite (bind_ok _ _ _ _ _ E1). }
    split; [exact Hidle' |]. simpl concat. split.
    + intros blk d Hb. rewrite written_app in Hb.
      destruct (written (concat calls) !! blk) as [d' |] eqn:Hlater.
      * injection Hb as <-. now apply Hw'.
      * rewrite Hrest'.
        -- now apply Hw1.
        -- right. split; [| done]. rewrite Hreg.
           assert (blk ∈ ups.*1) as Hin by (apply written_keys; eauto).
           apply list_elem_of_fmap in Hin as ([blk' d'] & -> & Hin).
           destruct Hups as (_ & _ & Hups). rewrite Forall_forall in Hups.
           now apply (Hups _ Hin).
    + intros x Hx. rewrite Hrest'.
      * apply Hrest1. destruct Hx as [? | [Hx1 Hx2]]; [now left | right].
        split; [done |]. rewrite written_app in Hx2.
        destruct (written (concat calls) !! x.2); [done | exact Hx2].
      * destruct Hx as [? | [Hx1 Hx2]]; [now left | right].
        split; [now rewrite Hreg |]. rewrite written_app in Hx2.
        now destruct (written (concat calls) !! x.2).
Qed.
End SystemCall.


(** ** From boot to a crash *)

Section BootToCrash.
Context `{Params}.


(** Booting on a disk whose header says that the log is empty. *)
Lemma boot_clean dev sb d :
  logheader.sizeof < BSIZE → 0 <= LOGSIZE →
  Int.in_range (logstart sb) →
  wf_disk d →
  Block.get_int (disk_read d (dev, logstart sb)) logheader.off_n = 0 →
  ∃ w2, initlog dev sb (boot d) = Ok tt w2 ∧
        ∀ x, x ≠ (dev, logstart sb) → disk_read (disk w2) x = disk_read d x.
Proof.
  intros Hfit HL Hstart Hwfd Hz.
  destruct (initlog_returns dev sb d []) as (w2 & E & R); try done.
  - now apply header_holds_nil.
  - apply layout_nil.
  - exists w2. split; [done |]. intros x Hx.
    apply (rec_rest _ _ _ _ _ R); [exact Hx |].
    intros b Hb. now apply not_elem_of_nil in Hb.
Qed.

(** X17.  A system call is atomic across a crash.  Let power fail at any
    disk read or write of a system call that is alone in the log, or not at
    all, and let the machine reboot and run [initlog]: then either every
    block the call wrote is on disk as it was before the call, or every one
    holds the contents the call last wrote to it. *)
Theorem system_call_atomic ups w p :
  idle w →
  0 < MAXOPBLOCKS <= LOGSIZE → LOGSIZE <= Int.max_int →
  logheader.sizeof < BSIZE →
  loggable w ups →
  Forall (fun u => Int.in_range u.1) ups →
  Block.get_int (disk_read (disk w) (head_addr (logV w))) logheader.off_n = 0 →
  let dev := log.dev (logV w) in
  ∃ w1, (system_call dev ups (set_power p w) = Ok tt w1 ∨
         system_call dev ups (set_power p w) = Halt PowerLoss w1) ∧
    ∃ w2, initlog dev (sb_of (logV w)) (boot (disk w1)) = Ok tt w2 ∧
          ((∀ blk, blk ∈ ups.*1 →
              disk_read (disk w2) (dev, blk) = disk_read (disk w) (dev, blk)) ∨
           (∀ blk d, written ups !! blk = Some d →
              disk_read (disk w2) (dev, blk) = d)).
Proof.
  intros [Hp Hwf Hc Ho Hn Harr Hs0 Hs1] HM HL Hfit (Hl1 & Hl2 & Hups) Hint Hclean dev.
  unfold bdata in *.
  set (sb := sb_of (logV w)).
  assert (Int.in_range (logstart sb)) as Hstart.
  { unfold sb, sb_of, Int.in_range, Int.min_int, Int.max_int in *. simpl. lia. }
  assert (∀ blk, blk ∈ ups.*1 → ¬ in_log_region (logV w) blk ∧ Int.in_range blk) as Hblk.
  { intros blk Hin. apply list_elem_of_fmap in Hin as ([blk' d] & -> & Hin).
    rewrite Forall_forall in Hups, Hint. split; [now apply (Hups _ Hin) |].
    now apply (Hint _ Hin). }
  assert (∀ blk, blk ∈ ups.*1 → (dev, blk) ≠ head_addr (logV w)) as Hnothead.
  { intros blk Hin [= ->]. apply (proj1 (Hblk _ Hin)). unfold in_log_region. lia. }
  (* a disk on which the call has left no trace *)
  assert (∀ d0, wf_disk d0 →
            (∀ x, disk_read d0 x = disk_read (disk w) x) →
            ∃ w2, initlog dev sb (boot d0) = Ok tt w2 ∧
                  ∀ blk, blk ∈ ups.*1 →
                    disk_read (disk w2) (dev, blk) = disk_read (disk w) (dev, blk))
    as Hold.
  { intros d0 Hwf0 Hsame.
    destruct (boot_clean dev sb d0) as (w2 & E & Hrest); try done; [lia | |].
    { change (dev, logstart sb) with (head_addr (logV w)). now rewrite Hsame. }
    exists w2. split; [done |]. intros blk Hin.
    rewrite Hrest by now apply Hnothead. apply Hsame. }
  (* begin_op *)
  set (wp := set_power p w).
  assert (no_overflow (logV wp)) as Hno.
  { unfold no_overflow, Int.in_range, Int.min_int, Int.max_int, lh_n in *. simpl.
    rewrite Ho, Hn. lia. }
  assert (admits (logV wp)) as Hadm.
  { split; [done |]. unfold lh_n in Hn. simpl. rewrite Ho, Hn. lia. }
  pose proof (begin_op_admitted wp Hno Hadm) as E1.
  set (w1 := add_events [ERelease]
               (set_logV (with_outstanding (log.outstanding (logV wp) + 1))
                  (add_events [EAcquire] wp))) in *.
  assert (updating w1 w1 ∅ 0) as Hup1.
  { split; try done.
    - change (lh_n w1) with (lh_n w). lia.
    - change (entries w1) with (entries w). unfold entries. rewrite Hn. apply NoDup_nil_2.
    - intros b. change (entries w1) with (entries w). unfold entries. rewrite Hn. simpl.
      rewrite lookup_empty. split; [intros Hb; now apply not_elem_of_nil in Hb |].
      intros [? ?]. done. }
  (* the updates *)
  assert (Int.in_range (log.size (logV w1) - 1)) as A1.
  { change (log.size (logV w1)) with (log.size (logV w)).
    unfold Int.in_range, Int.min_int, Int.max_int in *. lia. }
  assert (0 + Z.of_nat (length ups) <= log.size (logV w1) - 1) as A4
    by (change (log.size (logV w1)) with (log.size (logV w)); lia).
  assert (1 <= log.outstanding (logV w1)) as A5
    by (change (log.outstanding (logV w1)) with (log.outstanding (logV w) + 1); lia).
  assert (Forall (fun u : Z * list Z => length u.2 = Z.to_nat BSIZE) ups) as A6
    by (eapply Forall_impl; [exact Hups |]; now intros u [_ ?]).
  pose proof (logged_updates_run w1 ups w1 ∅ 0 Hup1 A1 ltac:(lia) ltac:(lia) A4 A5 A6)
    as Hrun.
  change (log.dev (logV w1)) with dev in Hrun.
  destruct (logged_updates dev ups w1) as [[] w2 | h w2] eqn:E2.
  2: { (* power lost during the updates *)
       destruct h; try done. destruct Hrun as [_ Hdisk].
       exists w2. split.
       - right. unfold system_call.
         rewrite (bind_ok _ _ _ _ _ E1). now rewrite (bind_halt _ _ _ _ _ E2).
       - destruct (Hold (disk w2)) as (w3 & E3 & H3).
         + rewrite Hdisk. apply Hwf.
         + intros x. now rewrite Hdisk.
         + exists w3. split; [done |]. now left. }
  destruct Hrun as [Hup2 _].
  fold (written ups) in Hup2.
  destruct Hup2 as [Hwf2 Hst2 Hsz2 Hdev2 Hout2 Hcom2 Harr2 Hn2 Hnd2 Hent2 Hcont2 Hdisk2 _].
  simpl in Hst2, Hsz2, Hdev2, Hout2, Hcom2, Hcont2, Hdisk2.
  (* end_op *)
  destruct (end_op_run w2) as (_ & Hend & Hhalt).
  { rewrite Hout2, Ho. unfold Int.in_range, Int.min_int, Int.max_int. lia. }
  { now rewrite Hcom2. }
  set (w2' := add_events [ERelease]
                (set_logV (with_committing 1)
                   (set_logV (with_outstanding (log.outstanding (logV w2) - 1))
                      (add_events [EAcquire] w2)))) in *.
  assert (log.outstanding (logV w2) - 1 = 0) as Hlast by (rewrite Hout2, Ho; lia).
  specialize (Hend Hlast). specialize (Hhalt Hlast).
  assert (∀ b, b ∈ entries w2 → b ∈ ups.*1) as Hkeys.
  { intros b Hb. apply written_keys. now apply Hent2. }
  pose (R := fun w1' : world => ∃ w3,
    initlog dev sb (boot (disk w1')) = Ok tt w3 ∧
    ((∀ blk, blk ∈ ups.*1 →
        disk_read (disk w3) (dev, blk) = disk_read (disk w) (dev, blk)) ∨
     (∀ blk d, written ups !! blk = Some d → disk_read (disk w3) (dev, blk) = d))).
  assert (spec commit w2' (fun _ w3 => R w3) R) as Hspec.
  { destruct (decide (lh_n w2 = 0)) as [Hz | Hnz].
    { (* nothing was logged *)
      assert (commit w2' = Ok tt w2') as E3
        by (apply commit_idle; change (lh_n w2') with (lh_n w2); lia).
      assert (R w2') as HR.
      { destruct (Hold (disk w2')) as (w3 & E & H3).
        - change (disk w2') with (disk w2). rewrite Hdisk2. apply Hwf.
        - intros x. change (disk w2') with (disk w2). now rewrite Hdisk2.
        - exists w3. split; [done |]. now left. }
      with_strategy transparent [spec] unfold spec. now rewrite E3. }
    assert (region_ok (logV w2') (lh_n w2')) as Hreg.
    { unfold region_ok. change (lh_n w2') with (lh_n w2). simpl.
      rewrite Hst2, Hsz2. lia. }
    assert (txn_ready w2') as Htr.
    { split; try done.
      - change (lh_n w2') with (lh_n w2). lia.
      - apply Forall_forall. intros b Hb.
        change (entries w2') with (entries w2) in Hb.
        destruct (Hblk b (Hkeys b Hb)) as [Hout Hin]. split; [done |].
        unfold in_log_region in *. simpl. now rewrite Hst2, Hsz2.
      - change (disk w2') with (disk w2). rewrite Hdisk2.
        change (disk w1) with (disk w).
        replace (head_addr (logV w2')) with (head_addr (logV w)); [done |].
        unfold head_addr. simpl. now rewrite Hdev2, Hst2. }
    pose proof (txn_layout w2' Htr) as Hlay.
    assert (sb_of (logV w2') = sb) as Hsb.
    { unfold sb, sb_of. simpl. now rewrite Hst2, Hsz2. }
    assert (log.dev (logV w2') = dev) as Hdev' by (simpl; exact Hdev2).
    assert (∀ b, home_addr (logV w2') b = (dev, b)) as Hha
      by (intros b; unfold home_addr; now rewrite Hdev').
    apply commit_spec.
    - exact Hwf2.
    - change (lh_n w2') with (lh_n w2). lia.
    - change (lh_n w2') with (lh_n w2). change (lh_block w2') with (lh_block w2). lia.
    - exact Hlay.
    - (* before the commit point *)
      intros _ w'' j Hj [Cwf Cwr Cdone Crest].
      destruct (recover_absent w2' (disk w'') Htr Cwf) as (w3 & E & Hrest).
      { rewrite Crest; [apply (tr_clean _ Htr) |].
        intros i b Hi Hb. apply not_eq_sym, (lay_slot_head _ _ Hlay).
        now apply lookup_lt_Some in Hb. }
      rewrite Hdev', Hsb in E.
      exists w3. split; [done |]. left. intros blk Hin.
      rewrite Hrest.
      + rewrite Crest.
        * change (disk w2') with (disk w2). now rewrite Hdisk2.
        * intros i b Hi Hb Heq.
          pose proof (lookup_lt_Some _ _ _ Hb) as Hlt.
          rewrite (slot_addr_exact _ _ i Hreg) in Heq
            by (change (entries w2') with (entries w2) in Hlt;
                rewrite length_entries in Hlt by lia;
                change (lh_n w2') with (lh_n w2); lia).
          injection Heq as _ ->. apply (proj1 (Hblk _ Hin)).
          change (entries w2') with (entries w2) in Hlt.
          rewrite length_entries in Hlt by lia.
          unfold in_log_region. simpl. rewrite Hst2. lia.
      + replace (head_addr (logV w2')) with (head_addr (logV w))
          by (unfold head_addr; simpl; now rewrite Hdev2, Hst2).
        now apply Hnothead.
    - (* after the commit point *)
      intros _ w'' j Hj [Awf Ahead Aslots Ahomes Arest Awr].
      destruct (recover_present w2' (disk w'') Htr Awf Ahead) as (w3 & E & Hhomes).
      rewrite Hdev', Hsb in E.
      exists w3. split; [done |]. right. intros blk d Hb.
      assert (blk ∈ entries w2) as (i & Hi)%list_elem_of_lookup_1
        by (apply Hent2; eauto).
      pose proof (Hhomes i blk Hi) as Hh. rewrite Hha in Hh. rewrite Hh.
      rewrite (Aslots i blk Hi), Hha. now apply Hcont2.
    - (* commit has returned *)
      intros w3 [Fl Fp Fwf Fhead Fslots Fhomes Frest Fwr].
      destruct (recover_absent w2' (disk w3) Htr (proj1 Fwf)) as (w4 & E & Hrest).
      { rewrite Fhead. unfold clear_head. rewrite put_head_n; [done |].
        unfold commit_head. rewrite length_put_head.
        rewrite (length_content w2') by exact Hwf2.
        unfold logheader.sizeof in Hfit. lia. }
      rewrite Hdev', Hsb in E.
      exists w4. split; [done |]. right. intros blk d Hb.
      assert (blk ∈ entries w2) as Hin by (apply Hent2; eauto).
      pose proof Hin as (i & Hi)%list_elem_of_lookup_1.
      rewrite Hrest.
      + pose proof (Fhomes i blk Hi) as Hh. rewrite Hha in Hh. rewrite Hh.
        now apply Hcont2.
      + replace (head_addr (logV w2')) with (head_addr (logV w))
          by (unfold head_addr; simpl; now rewrite Hdev2, Hst2).
        apply Hnothead. now apply Hkeys. }
  destruct (spec_run _ _ _ _ Hspec) as [([] & w3 & E3 & HR) | (w3 & E3 & HR)].
  - (* the call returns *)
    eexists. split.
    + left. unfold system_call.
      rewrite (bind_ok _ _ _ _ _ E1), (bind_ok _ _ _ _ _ E2). exact (Hend w3 E3).
    + exact HR.
  - exists w3. split.
    + right. unfold system_call.
      rewrite (bind_ok _ _ _ _ _ E1), (bind_ok _ _ _ _ _ E2). exact (Hhalt _ w3 E3).
    + exact HR.
Qed.
End BootToCrash.


(** ** Several system calls in one transaction *)

Section GroupCommit.
Context `{Params}.

(** [k] system calls leaving one after the other. *)
Fixpoint end_ops (k : nat) : M unit :=
  match k with
  | O => ret tt
  | S k' => end_op ;;; end_ops k'
  end.

(** An [end_op] that is not the last one out. *)
Lemma end_op_not_last w0 w m k :
  updating w0 w m k →
  log.committing (logV w0) = 0 →
  Int.in_range (log.outstanding (logV w0) - 1) →
  log.outstanding (logV w0) - 1 ≠ 0 →
  ∃ w', end_op w = Ok tt w' ∧
        updating (set_logV (with_outstanding (log.outstanding (logV w0) - 1)) w0) w' m k ∧
        power w' = power w ∧
        writes (trace w') = writes (trace w).
Proof.
  intros [Hwf Hst Hsz Hdev Hout Hcom Harr Hn Hnd Hent Hcont Hdisk Hwrites] Hc Hr Hne.
  destruct (end_op_run w) as (Hrun & _ & _).
  { now rewrite Hout. }
  { now rewrite Hcom. }
  eexists. split; [apply Hrun; now rewrite Hout |].
  split; [| split].
  - split; try done.
    + simpl. now rewrite Hout.
    + simpl. rewrite !writes_app. simpl. now rewrite !app_nil_r.
  - reflexivity.
  - simpl. rewrite !writes_app. simpl. now rewrite !app_nil_r.
Qed.

Lemma end_ops_not_last j : ∀ w0 w m k,
  updating w0 w m k →
  log.committing (logV w0) = 0 →
  Z.of_nat j < log.outstanding (logV w0) <= Int.max_int →
  ∃ w', end_ops j w = Ok tt w' ∧
        updating (set_logV (with_outstanding (log.outstanding (logV w0) - Z.of_nat j)) w0)
          w' m k ∧
        power w' = power w ∧
        writes (trace w') = writes (trace w).
Proof.
  induction j as [| j IH]; intros w0 w m k Hup Hc Ho.
  - exists w. split; [done |]. split; [| done].
    replace (set_logV (with_outstanding (log.outstanding (logV w0) - Z.of_nat 0)) w0)
      with w0; [done |].
    rewrite Z.sub_0_r. now destruct w0 as [[] ? ? ? ? ?].
  - destruct (end_op_not_last w0 w m k Hup Hc) as (w1 & E1 & Hup1 & Hp1 & Hw1).
    { unfold Int.in_range, Int.min_int, Int.max_int in *. lia. }
    { lia. }
    destruct (IH _ w1 m k Hup1) as (w' & E & Hup' & Hp' & Hw').
    { exact Hc. }
    { simpl. lia. }
    exists w'. split; [simpl; now rewrite (bind_ok _ _ _ _ _ E1) |].
    split; [| split; congruence].
    replace (set_logV (with_outstanding (log.outstanding (logV w0) - Z.of_nat (S j))) w0)
      with (set_logV
              (with_outstanding
                 (log.outstanding
                    (logV (set_logV (with_outstanding (log.outstanding (logV w0) - 1)) w0))
                  - Z.of_nat j))
              (set_logV (with_outstanding (log.outstanding (logV w0) - 1)) w0));
      [exact Hup' |].
    unfold set_logV, with_outstanding. simpl. do 2 f_equal. lia.
Qed.

(** X18.  Group commit.  With [k + 1] system calls in flight, the updates
    they log stay in the buffers while the first [k] of them leave: their
    [end_op] writes nothing to the disk.  The [end_op] of the last one out
    commits the updates of all of them, and leaves the log at rest. *)
Theorem group_commit k ups w :
  idle w →
  0 < MAXOPBLOCKS → (Z.of_nat k + 1) * MAXOPBLOCKS <= LOGSIZE → LOGSIZE <= Int.max_int →
  loggable w ups →
  let dev := log.dev (logV w) in
  ∃ w1 w2,
    (begin_ops (S k) ;;; logged_updates dev ups ;;; end_ops k) w = Ok tt w1 ∧
    disk w1 = disk w ∧
    writes (trace w1) = writes (trace w) ∧
    log.outstanding (logV w1) = 1 ∧
    end_op w1 = Ok tt w2 ∧
    (∀ blk d, written ups !! blk = Some d → disk_read (disk w2) (dev, blk) = d) ∧
    idle w2.
Proof.
  intros [Hp Hwf Hc Ho Hn Harr Hs0 Hs1] HM Hfit HL Hlog dev.
  pose proof Hlog as (Hl1 & Hl2 & Hups).
  unfold bdata in *.
  (* the calls enter *)
  destruct (begin_ops_run (S k) w Hc ltac:(lia) ltac:(lia) HM)
    as (w1 & E1 & L1 & _ & Hd1 & Hc1 & Hp1 & Hw1).
  { rewrite Hn, Ho. nia. }
  { rewrite Hn, Ho. nia. }
  rewrite Ho in L1.
  assert (updating w1 w1 ∅ 0) as Hup1.
  { split; try done.
    - destruct Hwf as [Hwd Hwc]. split; [now rewrite Hd1 | now rewrite Hc1].
    - unfold lh_block. rewrite L1. exact Harr.
    - unfold lh_n. rewrite L1. unfold lh_n in Hn. simpl. lia.
    - unfold entries, lh_n. rewrite L1. unfold lh_n in Hn. simpl. rewrite Hn.
      apply NoDup_nil_2.
    - intros b. unfold entries, lh_n. rewrite L1. unfold lh_n in Hn. simpl. rewrite Hn.
      simpl. rewrite lookup_empty.
      split; [intros Hb; now apply not_elem_of_nil in Hb |]. intros [? ?]. done. }
  assert (log.size (logV w1) = log.size (logV w) ∧
          log.start (logV w1) = log.start (logV w) ∧
          log.dev (logV w1) = dev ∧
          log.committing (logV w1) = 0 ∧
          log.outstanding (logV w1) = Z.of_nat (S k)) as (Hsz1 & Hst1 & Hdev1 & Hcom1 & Hout1)
    by (rewrite L1; simpl; repeat split; try done; lia).
  (* the updates *)
  assert (Int.in_range (log.size (logV w1) - 1)) as A1.
  { rewrite Hsz1. unfold Int.in_range, Int.min_int, Int.max_int in *. lia. }
  assert (0 + Z.of_nat (length ups) <= log.size (logV w1) - 1) as A4
    by (rewrite Hsz1; lia).
  assert (1 <= log.outstanding (logV w1)) as A5 by (rewrite Hout1; lia).
  assert (Forall (fun u : Z * list Z => length u.2 = Z.to_nat BSIZE) ups) as A6
    by (eapply Forall_impl; [exact Hups |]; now intros u [_ ?]).
  pose proof (logged_updates_run w1 ups w1 ∅ 0 Hup1 A1 ltac:(nia) ltac:(lia) A4 A5 A6)
    as Hrun.
  rewrite Hdev1 in Hrun.
  destruct (logged_updates dev ups w1) as [[] w2 | h w2] eqn:E2.
  2: { destruct h; try done. destruct Hrun as [Hne _]. now rewrite Hp1 in Hne. }
  destruct Hrun as [Hup2 Hp2].
  specialize (Hp2 ltac:(congruence)).
  fold (written ups) in Hup2.
  (* all but one leave *)
  destruct (end_ops_not_last k w1 w2 _ _ Hup2 Hcom1) as (w3 & E3 & Hup3 & Hp3 & Hw3).
  { rewrite Hout1. unfold Int.max_int in *. lia. }
  set (w0 := set_logV (with_outstanding (log.outstanding (logV w1) - Z.of_nat k)) w1) in *.
  (* the last one *)
  destruct (last_end_op w0 w3 (written ups) (0 + Z.of_nat (length ups)) Hup3)
    as (w4 & E4 & Hidle & _ & _ & _ & Hdone & _).
  { congruence. }
  { simpl. rewrite Hout1. lia. }
  { exact Hcom1. }
  { simpl. now rewrite Hst1. }
  { simpl. now rewrite Hst1, Hsz1. }
  { lia. }
  { simpl. rewrite Hsz1. lia. }
  { intros b Hb. pose proof (loggable_outside w ups b Hlog Hb) as Hb'.
    unfold in_log_region in *. simpl. now rewrite Hst1, Hsz1. }
  exists w3, w4. split; [| split; [| split; [| split; [| split; [| split]]]]].
  - unfold bind at 1. rewrite E1. unfold bind at 1. rewrite E2. exact E3.
  - rewrite (up_disk _ _ _ _ Hup3). simpl. exact Hd1.
  - rewrite (up_writes _ _ _ _ Hup3). simpl. exact Hw1.
  - rewrite (up_outstanding _ _ _ _ Hup3). simpl. rewrite Hout1. lia.
  - exact E4.
  - intros blk d Hb. rewrite <- Hdev1. now apply Hdone.
  - exact Hidle.
Qed.
End GroupCommit.


(** ** Buffers *)

Section Buffers.
Context `{Params}.

Fixpoint drop_buf (a : addr) (held : list addr) : list addr :=
  match held with
  | [] => []
  | x :: l => if decide (x = a) then l else x :: drop_buf a l
  end.

(** Modelled from the spec: [read] returns a locked buffer and [release]
    drops the caller's hold on it (section 6), [bio.c] not being among the
    sources.  [buf_step] gives what a call does to the buffers this thread
    holds, or [None] when the call cannot be made: a [bread] of a buffer
    the thread already holds (it would wait for itself), a [bwrite] or a
    [brelse] of a buffer it does not hold. *)
Definition buf_step (held : list addr) (e : event) : option (list addr) :=
  match e with
  | EBread a => if decide (a ∈ held) then None else Some (a :: held)
  | EBwrite a _ => if decide (a ∈ held) then Some held else None
  | EBrelse a => if decide (a ∈ held) then Some (drop_buf a held) else None
  | _ => Some held
  end.

Definition bufs_from (held : list addr) (t : list event) : option (list addr) :=
  foldl (fun st e => st ≫= fun held => buf_step held e) (Some held) t.

(** The buffers held after the calls of a trace, none being held at first. *)
Definition bufs_after (t : list event) : option (list addr) := bufs_from [] t.

(** No power loss so far, the buffer rules respected, no buffer held. *)
Definition tidy (w : world) : Prop :=
  power w = None ∧ bufs_after (trace w) = Some [].

Lemma bufs_from_none t :
  foldl (fun st e => st ≫= fun held => buf_step held e) None t = None.
Proof. induction t as [| e t IH]; [done | exact IH]. Qed.

Lemma bufs_from_cons held e t :
  bufs_from held (e :: t) = buf_step held e ≫= fun held' => bufs_from held' t.
Proof.
  unfold bufs_from. simpl. destruct (buf_step held e); simpl; [done |].
  apply bufs_from_none.
Qed.

Lemma bufs_from_app held t1 t2 :
  bufs_from held (t1 ++ t2) = bufs_from held t1 ≫= fun held' => bufs_from held' t2.
Proof.
  unfold bufs_from. rewrite foldl_app.
  destruct (foldl _ (Some held) t1); simpl; [done |]. apply bufs_from_none.
Qed.

Lemma bufs_after_app t evs held :
  bufs_after t = Some held → bufs_after (t ++ evs) = bufs_from held evs.
Proof. unfold bufs_after. intros Ht. now rewrite bufs_from_app, Ht. Qed.

Lemma tidy_becomes w w' l d c evs :
  tidy w → becomes w w' l d c evs → bufs_from [] evs = Some [] → tidy w'.
Proof.
  intros [Hp Hb] B Hevs. split; [now apply (bc_power _ _ _ _ _ _ B) |].
  rewrite (bc_trace _ _ _ _ _ _ B). now rewrite (bufs_after_app _ _ _ Hb).
Qed.

(** Calls that neither take nor give up a buffer, and write only buffers
    among [held]. *)
Definition quiet (held : list addr) (e : event) : Prop :=
  match e with
  | EBwrite b _ => b ∈ held
  | EBread _ | EBrelse _ => False
  | _ => True
  end.

Lemma buf_step_read held a : a ∉ held → buf_step held (EBread a) = Some (a :: held).
Proof. intros Ha. unfold buf_step. now rewrite decide_False. Qed.

Lemma buf_step_write held a d : a ∈ held → buf_step held (EBwrite a d) = Some held.
Proof. intros Ha. unfold buf_step. now rewrite decide_True. Qed.

Lemma buf_step_relse held a :
  a ∈ held → buf_step held (EBrelse a) = Some (drop_buf a held).
Proof. intros Ha. unfold buf_step. now rewrite decide_True. Qed.

Lemma drop_buf_here a l : drop_buf a (a :: l) = l.
Proof. unfold drop_buf. now rewrite decide_True. Qed.

Lemma drop_buf_further a x l : x ≠ a → drop_buf a (x :: l) = x :: drop_buf a l.
Proof. intros Hx. unfold drop_buf at 1. rewrite decide_False by done. reflexivity. Qed.

Lemma bufs_from_step held e t held' :
  buf_step held e = Some held' → bufs_from held (e :: t) = bufs_from held' t.
Proof. intros He. now rewrite bufs_from_cons, He. Qed.

Lemma bufs_from_quiet held mid :
  Forall (quiet held) mid → bufs_from held mid = Some held.
Proof.
  induction 1 as [| e mid He Hmid IH]; [done |].
  rewrite (bufs_from_step held e mid held); [exact IH |].
  destruct e; try done. now apply buf_step_write.
Qed.

Lemma bufs_from_quiet_then held mid lst :
  Forall (quiet held) mid → bufs_from held (mid ++ lst) = bufs_from held lst.
Proof. intros Hmid. now rewrite bufs_from_app, (bufs_from_quiet _ _ Hmid). Qed.

Lemma bufs_one a mid :
  Forall (quiet [a]) mid →
  bufs_from [] ([EBread a] ++ mid ++ [EBrelse a]) = Some [].
Proof.
  intros Hmid. change ([EBread a] ++ mid ++ [EBrelse a]) with (EBread a :: mid ++ [EBrelse a]).
  rewrite (bufs_from_step [] _ _ [a]) by (apply buf_step_read, not_elem_of_nil).
  rewrite (bufs_from_quiet_then _ _ _ Hmid).
  rewrite (bufs_from_step [a] _ _ []); [done |].
  rewrite buf_step_relse by apply list_elem_of_here. now rewrite drop_buf_here.
Qed.

Lemma bufs_two s h mid lst :
  h ≠ s →
  Forall (quiet [h; s]) mid →
  lst = [EBrelse s; EBrelse h] ∨ lst = [EBrelse h; EBrelse s] →
  bufs_from [] ([EBread s; EBread h] ++ mid ++ lst) = Some [].
Proof.
  intros Hne Hmid Hlst.
  change ([EBread s; EBread h] ++ mid ++ lst) with (EBread s :: EBread h :: mid ++ lst).
  rewrite (bufs_from_step [] _ _ [s]) by (apply buf_step_read, not_elem_of_nil).
  rewrite (bufs_from_step [s] _ _ [h; s])
    by (apply buf_step_read; intros ->%list_elem_of_singleton; done).
  rewrite (bufs_from_quiet_then _ _ _ Hmid).
  destruct Hlst as [-> | ->].
  - rewrite (bufs_from_step [h; s] _ _ [h]).
    2: { rewrite buf_step_relse by (apply list_elem_of_further, list_elem_of_here).
         now rewrite drop_buf_further, drop_buf_here. }
    rewrite (bufs_from_step [h] _ _ []); [done |].
    rewrite buf_step_relse by apply list_elem_of_here. now rewrite drop_buf_here.
  - rewrite (bufs_from_step [h; s] _ _ [s]).
    2: { rewrite buf_step_relse by apply list_elem_of_here. now rewrite drop_buf_here. }
    rewrite (bufs_from_step [s] _ _ []); [done |].
    rewrite buf_step_relse by apply list_elem_of_here. now rewrite drop_buf_here.
Qed.

Lemma write_head_tidy w :
  tidy w →
  (Z.to_nat (lh_n w) ≤ length (lh_block w))%nat →
  ∃ w', write_head w = Ok tt w' ∧ tidy w' ∧ logV w' = logV w.
Proof.
  intros Ht Hlen.
  destruct (write_head_run w (proj1 Ht) Hlen) as (w' & E & B & _).
  exists w'. split; [exact E |]. split; [| apply (bc_logV _ _ _ _ _ _ B)].
  eapply tidy_becomes; [exact Ht | exact B |].
  apply (bufs_one _ [EBwrite _ _]).
  constructor; [apply list_elem_of_here | constructor].
Qed.

Lemma read_head_tidy w :
  tidy w →
  let hb := content w (head_addr (logV w)) in
  (Z.to_nat (Block.get_int hb logheader.off_n) ≤ length (lh_block w))%nat →
  ∃ w', read_head w = Ok tt w' ∧ tidy w' ∧
        logV w' = with_lh (get_head hb (lh_block w)) (logV w).
Proof.
  intros Ht hb Hlen.
  destruct (read_head_run w (proj1 Ht) Hlen) as (w' & E & B & _).
  exists w'. split; [exact E |]. split; [| apply (bc_logV _ _ _ _ _ _ B)].
  eapply tidy_becomes; [exact Ht | exact B |].
  apply (bufs_one _ []). constructor.
Qed.

Lemma install_trans_tidy recovering w :
  tidy w →
  (Z.to_nat (lh_n w) ≤ length (lh_block w))%nat →
  (∀ (i : nat) b, entries w !! i = Some b →
     home_addr (logV w) b ≠ slot_addr (logV w) i) →
  ∃ w', install_trans recovering w = Ok tt w' ∧ tidy w' ∧ logV w' = logV w.
Proof.
  intros Ht Hlen Hapart.
  destruct (spec_returns (install_trans recovering) w
              (fun _ w' => logV w' = logV w ∧ tidy w')) as ([] & w' & E & L & Ht').
  - apply (install_trans_rule recovering (fun _ w1 => tidy w1)); [done | done | | done].
    intros j dst w1 Hj Hdst Hl Ht1. cbv zeta. split.
    { intros Hne. now destruct Ht1. }
    intros w2 B2 _. eapply tidy_becomes; [exact Ht1 | exact B2 |].
    unfold install_events.
    apply (bufs_two _ _ (EBwrite _ _ :: (if decide (recovering = 0) then [EBunpin _] else []))).
    + apply Hapart. now apply entries_lookup.
    + constructor; [apply list_elem_of_here |]. case_decide; now repeat constructor.
    + now left.
  - eauto.
Qed.

Lemma write_log_tidy w :
  tidy w →
  (Z.to_nat (lh_n w) ≤ length (lh_block w))%nat →
  (∀ (i : nat) b, entries w !! i = Some b →
     home_addr (logV w) b ≠ slot_addr (logV w) i) →
  ∃ w', write_log w = Ok tt w' ∧ tidy w' ∧ logV w' = logV w.
Proof.
  intros Ht Hlen Hapart.
  destruct (spec_returns write_log w
              (fun _ w' => logV w' = logV w ∧ tidy w')) as ([] & w' & E & L & Ht').
  - apply (write_log_rule (fun _ w1 => tidy w1)); [done | done | | done].
    intros j src w1 Hj Hsrc Hl Ht1. cbv zeta. split.
    { intros Hne. now destruct Ht1. }
    intros w2 B2 _. eapply tidy_becomes; [exact Ht1 | exact B2 |].
    unfold write_log_events.
    apply (bufs_two _ _ [EBwrite _ _]).
    + apply Hapart. now apply entries_lookup.
    + constructor; [apply list_elem_of_further, list_elem_of_here | constructor].
    + now right.
  - eauto.
Qed.

(** X19.  The buffers of [commit] and of recovery.  Provided no logged
    block is its own log slot, [commit] and [recover_from_log] never read a
    buffer they already hold, write and release only buffers they hold, and
    have released every buffer they read when they return: each [bread] is
    matched by one [brelse]. *)
Theorem buffer_discipline w :
  power w = None →
  bufs_after (trace w) = Some [] →
  ((Z.to_nat (lh_n w) ≤ length (lh_block w))%nat →
   (∀ (i : nat) b, entries w !! i = Some b →
      home_addr (logV w) b ≠ slot_addr (logV w) i) →
   ∃ w', commit w = Ok tt w' ∧ bufs_after (trace w') = Some []) ∧
  (let hb := content w (head_addr (logV w)) in
   (Z.to_nat (Block.get_int hb logheader.off_n) ≤ length (lh_block w))%nat →
   (∀ i : nat, (i < Z.to_nat (Block.get_int hb logheader.off_n))%nat →
      home_addr (logV w) (Block.get_int hb (logheader.off_block i))
      ≠ slot_addr (logV w) i) →
   ∃ w', recover_from_log w = Ok tt w' ∧ bufs_after (trace w') = Some []).
Proof.
  intros Hp Hb. assert (tidy w) as Ht by now split.
  split.
  - intros Hlen Hapart.
    destruct (decide (lh_n w > 0)) as [Hn | Hn].
    2: { exists w. split; [apply commit_idle; lia | done]. }
    destruct (write_log_tidy w Ht Hlen Hapart) as (w1 & E1 & Ht1 & L1).
    destruct (write_head_tidy w1 Ht1) as (w2 & E2 & Ht2 & L2).
    { unfold lh_n, lh_block. now rewrite L1. }
    destruct (install_trans_tidy 0 w2 Ht2) as (w3 & E3 & Ht3 & L3).
    { unfold lh_n, lh_block. now rewrite L2, L1. }
    { unfold entries, lh_n, lh_block. rewrite L2, L1. exact Hapart. }
    destruct (write_head_tidy (set_logV (with_n 0) w3)) as (w4 & E4 & Ht4 & L4).
    { exact Ht3. }
    { unfold lh_n. simpl. lia. }
    exists w4. split; [| apply Ht4].
    unfold commit. rewrite bind_gets, decide_True by done.
    rewrite (bind_ok _ _ _ _ _ E1), (bind_ok _ _ _ _ _ E2), (bind_ok _ _ _ _ _ E3).
    now rewrite bind_modify.
  - intros hb Hlen Hapart.
    destruct (read_head_tidy w Ht Hlen) as (w1 & E1 & Ht1 & L1). fold hb in L1.
    assert (lh_n w1 = Block.get_int hb logheader.off_n) as Hn1
      by (unfold lh_n; now rewrite L1).
    assert (length (lh_block w1) = length (lh_block w)) as Hlen1.
    { unfold lh_block at 1. rewrite L1. simpl. apply length_get_entries. }
    destruct (install_trans_tidy 1 w1 Ht1) as (w2 & E2 & Ht2 & L2).
    { rewrite Hn1, Hlen1. exact Hlen. }
    { intros i b Hi. pose proof (lookup_lt_Some _ _ _ Hi) as Hlt.
      rewrite length_entries in Hlt by (rewrite Hn1, Hlen1; exact Hlen).
      rewrite Hn1 in Hlt.
      unfold entries in Hi. apply lookup_take_Some in Hi as [Hi _].
      unfold lh_block in Hi. rewrite L1 in Hi. simpl in Hi.
      rewrite lookup_get_entries_in in Hi by lia. injection Hi as <-.
      replace (home_addr (logV w1)) with (home_addr (logV w))
        by (unfold home_addr; now rewrite L1).
      replace (slot_addr (logV w1) i) with (slot_addr (logV w) i)
        by (unfold slot_addr; now rewrite L1).
      now apply Hapart. }
    destruct (write_head_tidy (set_logV (with_n 0) w2)) as (w3 & E3 & Ht3 & L3).
    { exact Ht2. }
    { unfold lh_n. simpl. lia. }
    exists w3. split; [| apply Ht3].
    unfold recover_from_log.
    rewrite (bind_ok _ _ _ _ _ E1), (bind_ok _ _ _ _ _ E2).
    now rewrite bind_modify.
Qed.
End Buffers.


(** * The further properties at work *)

Section MoreExamples.
#[local] Existing Instance xv6_params.

(** A log at rest on device 1, at block 2, 31 blocks long. *)
Definition ex_rest : world :=
  mkWorld (log.mk 2 31 0 0 1 (logheader.mk 0 (replicate 30 0))) ∅ ∅ None [] [].


(** A header block whose count is one more than [lh.block] has elements. *)
Definition ex_overrun : world :=
  mkWorld (ex_log 0 (replicate 30 0))
    {[ (1, 2) := Block.set_int zero_block 0 31 ]} ∅ None [] [].

(** A system call that writes block 100 twice and block 101 once. *)
Definition ex_ups : list (Z * bdata) :=
  [(100, ex_block); (100, <[1%nat := 187]> ex_block); (101, ex_block)].

Definition ex_calls : list call :=
  [BeginOp; LogWrite (1, 100); LogWrite (1, 100); LogWrite (1, 101); EndOp].

Definition ex_called : world :=
  match do_calls ex_calls ex_rest with
  | Ok _ w => w
  | Halt _ w => w
  end.

Lemma ex_rest_idle : idle ex_rest.
Proof.
  split; try reflexivity.
  - split; apply map_Forall_empty.
  - simpl. lia.
  - unfold Int.max_int. simpl. lia.
Qed.

Lemma ex_ups_loggable : loggable ex_rest ex_ups.
Proof.
  split; [| split].
  - change LOGSIZE with 30. simpl. lia.
  - simpl. lia.
  - repeat constructor; unfold in_log_region; simpl; lia.
Qed.

Lemma ex_again_loggable : loggable ex_rest [(100, zero_block)].
Proof.
  split; [| split].
  - change LOGSIZE with 30. simpl. lia.
  - simpl. lia.
  - repeat constructor; unfold in_log_region; simpl; lia.
Qed.

Lemma ex_params : 0 < MAXOPBLOCKS <= LOGSIZE ∧ LOGSIZE <= Int.max_int.
Proof. change MAXOPBLOCKS with 10. change LOGSIZE with 30. unfold Int.max_int. lia. Qed.

Lemma ex_rest_inv : log_inv ex_rest.
Proof.
  split.
  - change (lh_n ex_rest) with 0. change LOGSIZE with 30. lia.
  - now left.
  - reflexivity.
  - apply NoDup_nil_2.
  - reflexivity.
  - reflexivity.
Qed.

Lemma ex_called_run : do_calls ex_calls ex_rest = Ok tt ex_called.
Proof. vm_compute. reflexivity. Qed.


Lemma read_head_count_unchecked_witness :
  ∃ w', overruns read_head ex_overrun w' ∧ lh_n w' = 31.
Proof.
  destruct (read_head_count_unchecked ex_overrun eq_refl) as ([_ Hover] & Hat & _).
  destruct Hover as (w' & E); [vm_compute; lia |].
  exists w'. split; [exact E |]. now rewrite (proj1 (Hat w' E)).
Defined.

Lemma write_read_head_roundtrip_witness :
  ∃ w1, write_head ex_txn = Ok tt w1 ∧
        content w1 (head_addr (logV ex_txn))
        = disk_read (disk w1) (head_addr (logV ex_txn)).
Proof.
  destruct (write_read_head_roundtrip ex_txn) as (w1 & E & Hc & _).
  - reflexivity.
  - exact ex_txn_wf.
  - change (lh_n ex_txn) with 2.
    unfold Int.in_range, Int.min_int, Int.max_int. lia.
  - eapply Forall_impl; [apply (tr_valid _ ex_txn_ready) |]. now intros b [? _].
  - vm_compute. lia.
  - vm_compute. lia.
  - exists w1. split; [exact E | exact Hc].
Defined.

Lemma commit_installs_witness :
  ∃ w', commit ex_txn = Ok tt w' ∧ logV w' = with_n 0 (logV ex_txn).
Proof.
  destruct (commit_installs ex_txn) as (w' & E & L & _).
  - reflexivity.
  - exact ex_txn_wf.
  - change BSIZE with 1024. lia.
  - change (lh_n ex_txn) with 2. lia.
  - vm_compute. lia.
  - apply (tr_region _ ex_txn_ready).
  - apply (tr_nodup _ ex_txn_ready).
  - eapply Forall_impl; [apply (tr_valid _ ex_txn_ready) |]. now intros b [_ ?].
  - exists w'. split; [exact E | exact L].
Defined.

Lemma install_trans_idempotent_witness :
  ∃ w1 w2, install_trans 0 ex_txn = Ok tt w1 ∧
           install_trans 1 w1 = Ok tt w2 ∧
           ∀ x, disk_read (disk w2) x = disk_read (disk w1) x.
Proof.
  destruct (install_trans_idempotent 0 1 ex_txn) as (w1 & w2 & E1 & E2 & _ & Hsame).
  - reflexivity.
  - exact ex_txn_wf.
  - vm_compute. lia.
  - apply (tr_region _ ex_txn_ready).
  - apply (tr_nodup _ ex_txn_ready).
  - eapply Forall_impl; [apply (tr_valid _ ex_txn_ready) |]. now intros b [_ ?].
  - exists w1, w2. split; [exact E1 |]. split; [exact E2 | exact Hsame].
Defined.

Lemma initlog_installs_log_witness :
  ∃ w', initlog 1 ex_sb (boot ex_disk) = Ok tt w' ∧
        disk_read (disk w') (1, 100) = disk_read ex_disk (1, 3).
Proof.
  destruct (initlog_installs_log 1 ex_sb ex_disk [100]) as (w' & E & _ & _ & Hh & _).
  - reflexivity.
  - change LOGSIZE with 30. lia.
  - exact ex_disk_committed.
  - exists w'. split; [exact E |]. exact (Hh 0%nat 100 eq_refl).
Defined.

Lemma begin_end_op_roundtrip_witness :
  ∃ w1 w2, begin_op ex_idle = Ok tt w1 ∧ end_op w1 = Ok tt w2 ∧ logV w2 = logV ex_idle.
Proof.
  destruct (begin_end_op_roundtrip ex_idle) as (w1 & w2 & E1 & E2 & _ & L & _).
  - unfold Int.in_range, Int.min_int, Int.max_int. simpl. lia.
  - repeat split; unfold Int.in_range, Int.min_int, Int.max_int; simpl; lia.
  - split; simpl; [reflexivity | lia].
  - simpl. lia.
  - exists w1, w2. split; [exact E1 |]. split; [exact E2 | exact L].
Defined.

Lemma begin_op_capacity_witness :
  ∃ w', begin_ops 3 ex_rest = Ok tt w' ∧ log.outstanding (logV w') = 3 ∧
        ∃ w'', begin_op w' = Halt Blocked w''.
Proof.
  destruct (begin_op_capacity 3 ex_rest) as (w' & E & Ho & _ & Hblocked).
  - reflexivity.
  - reflexivity.
  - simpl. lia.
  - change (lh_n ex_rest) with 0. lia.
  - change MAXOPBLOCKS with 10. lia.
  - change (lh_n ex_rest) with 0. change MAXOPBLOCKS with 10.
    unfold Int.max_int. simpl. lia.
  - change (lh_n ex_rest) with 0. change MAXOPBLOCKS with 10. change LOGSIZE with 30.
    simpl. lia.
  - exists w'. split; [exact E |]. split; [exact Ho |]. apply Hblocked.
    change (lh_n ex_rest) with 0. change MAXOPBLOCKS with 10. change LOGSIZE with 30.
    simpl. lia.
Defined.

Lemma calls_keep_invariants_witness : log_inv ex_called.
Proof.
  apply (calls_keep_invariants ex_calls ex_rest ex_called).
  - reflexivity.
  - reflexivity.
  - unfold Int.in_range, Int.min_int, Int.max_int. simpl. lia.
  - apply ex_params.
  - apply ex_params.
  - change MAXOPBLOCKS with 10. change LOGSIZE with 30. unfold Int.max_int. simpl. lia.
  - exact ex_rest_inv.
  - exact ex_called_run.
Defined.

Lemma system_call_durable_witness :
  ∃ w', system_call 1 ex_ups ex_rest = Ok tt w' ∧
        disk_read (disk w') (1, 100) = <[1%nat := 187]> ex_block ∧
        lh_n w' = 0.
Proof.
  destruct (system_call_durable ex_ups ex_rest) as (w' & E & Hw & _ & Hn & _).
  - reflexivity.
  - apply (idle_wf _ ex_rest_idle).
  - reflexivity.
  - reflexivity.
  - reflexivity.
  - reflexivity.
  - apply ex_params.
  - apply ex_params.
  - apply (idle_start _ ex_rest_idle).
  - apply (idle_region _ ex_rest_idle).
  - apply ex_ups_loggable.
  - apply ex_ups_loggable.
  - apply ex_ups_loggable.
  - exists w'. split; [exact E |]. split; [| exact Hn].
    apply Hw. vm_compute. reflexivity.
Defined.

Lemma system_calls_durable_witness :
  ∃ w', system_calls 1 [ex_ups; [(100, zero_block)]] ex_rest = Ok tt w' ∧
        disk_read (disk w') (1, 100) = zero_block ∧
        disk_read (disk w') (1, 101) = ex_block.
Proof.
  destruct (system_calls_durable [ex_ups; [(100, zero_block)]] ex_rest)
    as (w' & E & _ & Hw & _).
  - exact ex_rest_idle.
  - apply ex_params.
  - apply ex_params.
  - apply Forall_cons. split; [exact ex_ups_loggable |].
    apply Forall_cons. split; [exact ex_again_loggable | apply Forall_nil_2].
  - exists w'. split; [exact E |]. split; apply Hw; vm_compute; reflexivity.
Defined.


Lemma group_commit_witness :
  ∃ w1 w2,
    (begin_ops 3 ;;; logged_updates 1 ex_ups ;;; end_ops 2) ex_rest = Ok tt w1 ∧
    disk w1 = disk ex_rest ∧
    end_op w1 = Ok tt w2 ∧
    disk_read (disk w2) (1, 101) = ex_block.
Proof.
  destruct (group_commit 2 ex_ups ex_rest) as (w1 & w2 & E1 & Hd & _ & _ & E2 & Hw & _).
  - exact ex_rest_idle.
  - apply ex_params.
  - change MAXOPBLOCKS with 10. change LOGSIZE with 30. simpl. lia.
  - apply ex_params.
  - exact ex_ups_loggable.
  - exists w1, w2. split; [exact E1 |]. split; [exact Hd |]. split; [exact E2 |].
    apply Hw. vm_compute. reflexivity.
Defined.

Lemma buffer_discipline_witness :
  ∃ w', commit ex_txn = Ok tt w' ∧ bufs_after (trace w') = Some [].
Proof.
  apply (proj1 (buffer_discipline ex_txn eq_refl eq_refl)).
  - vm_compute. lia.
  - intros i b Hi.
    apply (lay_home_slot _ _ (txn_layout _ ex_txn_ready)).
    + apply list_elem_of_lookup. eauto.
    + now apply lookup_lt_Some in Hi.
Defined.

Lemma system_call_atomic_witness :
  ∃ w1, (system_call 1 ex_ups (set_power (Some 9%nat) ex_rest) = Ok tt w1 ∨
         system_call 1 ex_ups (set_power (Some 9%nat) ex_rest) = Halt PowerLoss w1) ∧
    ∃ w2, initlog 1 ex_sb (boot (disk w1)) = Ok tt w2 ∧
          ((∀ blk, blk ∈ ex_ups.*1 →
              disk_read (disk w2) (1, blk) = disk_read (disk ex_rest) (1, blk)) ∨
           (∀ blk d, written ex_ups !! blk = Some d →
              disk_read (disk w2) (1, blk) = d)).
Proof.
  apply (system_call_atomic ex_ups ex_rest (Some 9%nat)).
  - exact ex_rest_idle.
  - apply ex_params.
  - apply ex_params.
  - reflexivity.
  - exact ex_ups_loggable.
  - repeat constructor; unfold Int.in_range, Int.min_int, Int.max_int; simpl; lia.
  - vm_compute. reflexivity.
Defined.
End MoreExamples.
